(** * Graph, adaptable priority queue and Dijkstra search of
      [Assignment_2_Paths.py], embedded in Rocq.

    Python objects with identity (Vertex, Edge, Element) carry an allocation
    number; mutable Element objects live in an object store and the queue
    holds references to them, so that aliasing through handles is kept.
    Python dictionaries are insertion-ordered association lists; Python list
    indexing keeps its negative-index wrap-around and its IndexError. *)

From stdpp Require Import base decidable option list strings relations.
From Stdlib Require Import ZArith Lia.

Local Open Scope Z_scope.

(** ** Exceptions and the state-and-exception monad *)

(** The exceptions the program can raise. [Custom] stands for an exception
    class a program defines itself; the source file defines none. *)
Inductive exn : Type :=
  | KeyError
  | IndexError
  | AttributeError
  | Custom (name : string).

(** The outcome of running a piece of code: a value, an exception, or a loop
    that did not finish within the given number of iterations. *)
Inductive outcome (A : Type) : Type :=
  | Ok (a : A)
  | Raise (e : exn)
  | OutOfFuel.
Arguments Ok {A} a.
Arguments Raise {A} e.
Arguments OutOfFuel {A}.

(** Mutations made before an exception stay visible, as in Python. *)
Definition M (S A : Type) : Type := S -> S * outcome A.

Definition ret {S A} (a : A) : M S A := fun s => (s, Ok a).
Definition raise {S A} (e : exn) : M S A := fun s => (s, Raise e).
Definition out_of_fuel {S A} : M S A := fun s => (s, OutOfFuel).
Definition bind {S A B} (c : M S A) (k : A -> M S B) : M S B :=
  fun s => match c s with
           | (s', Ok a) => k a s'
           | (s', Raise e) => (s', Raise e)
           | (s', OutOfFuel) => (s', OutOfFuel)
           end.
Definition get {S} : M S S := fun s => (s, Ok s).
Definition put {S} (s : S) : M S unit := fun _ => (s, Ok tt).
Definition modify {S} (f : S -> S) : M S unit := fun s => (f s, Ok tt).

Declare Scope py_scope.
Delimit Scope py_scope with py.
Notation "'let*' x := c 'in' k" := (bind c (fun x => k))
  (at level 10, x name, c at level 99, k at level 200) : py_scope.
Notation "c ;; k" := (bind c (fun _ => k))
  (at level 100, k at level 200, right associativity) : py_scope.
Local Open Scope py_scope.

(** [for x in xs: body x] *)
Fixpoint for_each {S A} (xs : list A) (body : A -> M S unit) : M S unit :=
  match xs with
  | [] => ret tt
  | x :: xs' => body x ;; for_each xs' body
  end.

(** ** Python dictionaries: insertion-ordered, one entry per key *)

Section Dict.
Context {K V : Type} `{EqDecision K}.

Definition dict : Type := list (K * V).

Fixpoint dict_get (k : K) (d : dict) : option V :=
  match d with
  | [] => None
  | (k', v) :: d' => if decide (k = k') then Some v else dict_get k d'
  end.

Definition dict_mem (k : K) (d : dict) : bool :=
  match dict_get k d with Some _ => true | None => false end.

(** [d[k] = v]: an existing key keeps its place, a new key goes last. *)
Fixpoint dict_set (k : K) (v : V) (d : dict) : dict :=
  match d with
  | [] => [(k, v)]
  | (k', v') :: d' =>
      if decide (k = k') then (k, v) :: d' else (k', v') :: dict_set k v d'
  end.

Fixpoint dict_del (k : K) (d : dict) : dict :=
  match d with
  | [] => []
  | (k', v') :: d' =>
      if decide (k = k') then d' else (k', v') :: dict_del k d'
  end.

Definition dict_keys (d : dict) : list K := map fst d.
Definition dict_values (d : dict) : list V := map snd d.
End Dict.
Arguments dict K V : clear implicits.

(** ** Python lists indexed by an integer *)

(** The position [l[i]] denotes in a list of length [n]: negative indices
    count from the end, anything outside [-n, n) is an IndexError. *)
Definition py_index (n : nat) (i : Z) : option nat :=
  if 0 <=? i then (if i <? Z.of_nat n then Some (Z.to_nat i) else None)
  else (if 0 <=? Z.of_nat n + i then Some (Z.to_nat (Z.of_nat n + i)) else None).

Definition py_getitem {A} (l : list A) (i : Z) : option A :=
  match py_index (length l) i with
  | Some p => l !! p
  | None => None
  end.

Definition py_setitem {A} (l : list A) (i : Z) (x : A) : option (list A) :=
  match py_index (length l) i with
  | Some p => Some (<[p := x]> l)
  | None => None
  end.

(** ** class Element and class APQ *)

Module APQ.
Section WithValue.
Context {L : Type}.

(** [Element(k, v, i)]; [_key] and [_index] are mutated in place. *)
Record Element : Type := mkElement { _key : Z; _value : L; _index : Z }.

(** A handle is a reference to an Element object. *)
Definition handle : Type := nat.

(** The queue object: [_queue] is the Python list of references; [objects]
    is the store of every Element created so far, indexed by reference. *)
Record t : Type := mkAPQ { objects : list Element; _queue : list handle }.

(** [APQ()] *)
Definition init : t := mkAPQ [] [].

Definition len_queue : M t Z :=
  fun q => (q, Ok (Z.of_nat (length (_queue q)))).

(** [self._queue[i]] *)
Definition queue_getitem (i : Z) : M t handle :=
  fun q => match py_getitem (_queue q) i with
           | Some h => (q, Ok h)
           | None => (q, Raise IndexError)
           end.

(** [self._queue[i] = h] *)
Definition queue_setitem (i : Z) (h : handle) : M t unit :=
  fun q => match py_setitem (_queue q) i h with
           | Some l => (mkAPQ (objects q) l, Ok tt)
           | None => (q, Raise IndexError)
           end.

(** Reading an attribute of the object behind a reference. A reference
    that is not an Element of this store has no such attribute. *)
Definition deref (h : handle) : M t Element :=
  fun q => match objects q !! h with
           | Some e => (q, Ok e)
           | None => (q, Raise AttributeError)
           end.

Definition key_of (h : handle) : M t Z :=
  let* e := deref h in ret (_key e).
Definition value_of (h : handle) : M t L :=
  let* e := deref h in ret (_value e).
Definition index_of (h : handle) : M t Z :=
  let* e := deref h in ret (_index e).

(** [h._index = i] *)
Definition set_index (h : handle) (i : Z) : M t unit :=
  let* e := deref h in
  modify (fun q => mkAPQ (<[h := mkElement (_key e) (_value e) i]> (objects q))
                         (_queue q)).

(** [h._key = k] *)
Definition set_key (h : handle) (k : Z) : M t unit :=
  let* e := deref h in
  modify (fun q => mkAPQ (<[h := mkElement k (_value e) (_index e)]> (objects q))
                         (_queue q)).

(** [Element.__lt__] *)
Definition elem_lt (a b : handle) : M t bool :=
  let* ka := key_of a in
  let* kb := key_of b in
  ret (ka <? kb).

(** [self._queue[i] < self._queue[j]] *)
Definition queue_lt (i j : Z) : M t bool :=
  let* a := queue_getitem i in
  let* b := queue_getitem j in
  elem_lt a b.

(** The three statements every swap in the source consists of:
    [queue[i]._index = j; queue[j]._index = i;
     queue[i], queue[j] = queue[j], queue[i]]. *)
Definition swap_entries (i j : Z) : M t unit :=
  let* a := queue_getitem i in
  set_index a j ;;
  let* b := queue_getitem j in
  set_index b i ;;
  let* x := queue_getitem j in
  let* y := queue_getitem i in
  queue_setitem i x ;;
  queue_setitem j y.

Definition min_leaf (i : Z) : M t Z :=
  let* n := len_queue in
  if 2 * i + 2 >? n - 1 then ret (2 * i + 1)
  else
    let* lt := queue_lt (2 * i + 1) (2 * i + 2) in
    if lt then ret (2 * i + 1) else ret (2 * i + 2).

Fixpoint bubble_down_loop (fuel : nat) (index : Z) : M t unit :=
  match fuel with
  | O => out_of_fuel
  | S fuel' =>
      let* n := len_queue in
      if 2 * index + 1 <? n then
        let* a := queue_getitem index in
        let* m := min_leaf index in
        let* b := queue_getitem m in
        let* lt := elem_lt a b in
        if lt then ret tt
        else
          let* min_leaf_ := min_leaf index in
          swap_entries index min_leaf_ ;;
          bubble_down_loop fuel' min_leaf_
      else ret tt
  end.

(** The loop runs at most once per level below a non-negative index, so
    the queue length bounds it (lemma [bubble_down_loop_ok]); from a negative
    index the source loop need not stop. *)
Definition bubble_down (index : Z) : M t unit :=
  let* n := len_queue in
  bubble_down_loop (S (Z.to_nat n)) index.

Fixpoint bubble_up_loop (fuel : nat) (index : Z) : M t unit :=
  match fuel with
  | O => out_of_fuel
  | S fuel' =>
      let* lt := queue_lt index ((index - 1) / 2) in
      if lt then
        let parent := (index - 1) / 2 in
        swap_entries index parent ;;
        bubble_up_loop fuel' parent
      else ret tt
  end.

(** [(index - 1) // 2] is Python's floor division, [Z.div] here, so it is
    [-1] at index [0]. From a position of a well-formed queue the loop stops
    within [length + 2] rounds (lemma [bubble_up_loop_ok]). *)
Definition bubble_up (index : Z) : M t unit :=
  if index >? 0 then
    let* n := len_queue in
    bubble_up_loop (Z.to_nat n + 2) index
  else ret tt.

Definition add (key : Z) (item : L) : M t handle :=
  let* i := len_queue in
  let* element :=
    (fun q => (mkAPQ (objects q ++ [mkElement key item i]) (_queue q),
               Ok (length (objects q)))) in
  modify (fun q => mkAPQ (objects q) (_queue q ++ [element])) ;;
  bubble_up i ;;
  ret element.

Definition min : M t handle := queue_getitem 0.

(** [self._queue.pop(-1)] *)
Definition queue_pop : M t handle :=
  fun q => match last (_queue q) with
           | Some h => (mkAPQ (objects q) (removelast (_queue q)), Ok h)
           | None => (q, Raise IndexError)
           end.

Definition remove_min : M t handle :=
  let* n := len_queue in
  let* a := queue_getitem 0 in
  set_index a (n - 1) ;;
  let* n := len_queue in
  let* b := queue_getitem (n - 1) in
  set_index b 0 ;;
  let* x := queue_getitem (-1) in
  let* y := queue_getitem 0 in
  queue_setitem 0 x ;;
  queue_setitem (-1) y ;;
  let* removed := queue_pop in
  bubble_down 0 ;;
  ret removed.

Definition update_key (element : handle) (newkey : Z) : M t unit :=
  let* k := key_of element in
  if k >? newkey then
    set_key element newkey ;;
    let* i := index_of element in
    bubble_up i
  else
    let* k := key_of element in
    if k <? newkey then
      set_key element newkey ;;
      let* i := index_of element in
      bubble_down i
    else ret tt.

Definition get_key (element : handle) : M t Z := key_of element.

(** Every read of [element._index] is a fresh read of the object, as in
    the source, where the first statement has already changed it. *)
Definition remove (element : handle) : M t handle :=
  let* n := len_queue in
  let* i := index_of element in
  let* a := queue_getitem i in
  set_index a (n - 1) ;;
  let* i := index_of element in
  let* n := len_queue in
  let* b := queue_getitem (n - 1) in
  set_index b i ;;
  let* x := queue_getitem (-1) in
  let* i := index_of element in
  let* y := queue_getitem i in
  let* i := index_of element in
  queue_setitem i x ;;
  queue_setitem (-1) y ;;
  let* removed := queue_pop in
  let* i := index_of element in
  bubble_down i ;;
  let* i := index_of element in
  bubble_up i ;;
  ret removed.

End WithValue.
Arguments Element L : clear implicits.
Arguments t L : clear implicits.
End APQ.

(** ** class Vertex and class Edge *)

(** Vertex defines neither [__eq__] nor [__hash__]: vertices are compared
    and hashed by object identity. [id] is the allocation number of the
    object; an object is never changed after creation, so two records are
    equal exactly when they are the same object. *)
Module Vertex.
Record t (L : Type) : Type := mk { id : nat; _element : L }.
Arguments mk {L} id _element.
Arguments id {L} _.
Arguments _element {L} _.

Definition element {L} (v : t L) : L := _element v.

#[global] Instance eq_dec {L} `{EqDecision L} : EqDecision (t L).
Proof. solve_decision. Defined.
End Vertex.

Module Edge.
Section WithLabel.
Context {L : Type} `{EqDecision L}.

(** Edge elements are the costs Dijkstra adds up, integers here. *)
Record t : Type :=
  mk { id : nat; _vertices : Vertex.t L * Vertex.t L; _element : Z }.

Definition vertices (e : t) : Vertex.t L * Vertex.t L := _vertices e.
Definition start (e : t) : Vertex.t L := fst (_vertices e).
Definition end_ (e : t) : Vertex.t L := snd (_vertices e).
Definition element (e : t) : Z := _element e.

(** [None] is Python's None. *)
Definition opposite (e : t) (v : Vertex.t L) : option (Vertex.t L) :=
  if decide (fst (_vertices e) = v) then Some (snd (_vertices e))
  else if decide (snd (_vertices e) = v) then Some (fst (_vertices e))
  else None.

#[global] Instance eq_dec : EqDecision t.
Proof. solve_decision. Defined.
End WithLabel.
Arguments t L : clear implicits.
End Edge.

(** The values a caller can pass for the [oneway] flag of [add_edge]. *)
Inductive pyobj : Type :=
  | PyBool (b : bool)
  | PyNone
  | PyInt (z : Z).

(** [x is True] and [x is False] *)
Definition is_True (x : pyobj) : bool :=
  match x with PyBool true => true | _ => false end.
Definition is_False (x : pyobj) : bool :=
  match x with PyBool false => true | _ => false end.

(** ** class Graph *)

Module Graph.
Section WithLabel.
Context {L : Type} `{EqDecision L}.

Abbreviation Vertex := (Vertex.t L).
Abbreviation Edge := (Edge.t L).

(** [_structure] is the adjacency map; [next_id] is the allocation number
    the next Vertex or Edge object gets. *)
Record t : Type :=
  mk { _structure : dict Vertex (dict Vertex Edge); next_id : nat }.

(** [Graph()] *)
Definition init : t := mk [] 0.

Definition num_vertices (g : t) : nat := length (_structure g).

(** [self._structure[v]] for a key [v] met while iterating over
    [self._structure]; such a key always has an entry. *)
Definition adjacency (g : t) (v : Vertex) : dict Vertex Edge :=
  default [] (dict_get v (_structure g)).

Definition num_edges (g : t) : nat :=
  let num :=
    foldl (fun num v => (num + length (adjacency g v))%nat) 0%nat
          (dict_keys (_structure g)) in
  (num `div` 2)%nat.

Definition vertices (g : t) : list Vertex := dict_keys (_structure g).

Fixpoint first_with_label (element : L) (vs : list Vertex) : option Vertex :=
  match vs with
  | [] => None
  | v :: vs' =>
      if decide (Vertex.element v = element) then Some v
      else first_with_label element vs'
  end.

(** [None] is Python's None. *)
Definition get_vertex_by_label (g : t) (element : L) : option Vertex :=
  first_with_label element (dict_keys (_structure g)).

Definition edges (g : t) : list Edge :=
  flat_map
    (fun v => flat_map
                (fun w => match dict_get w (adjacency g v) with
                          | Some e => if decide (Edge.start e = v) then [e] else []
                          | None => []
                          end)
                (dict_keys (adjacency g v)))
    (dict_keys (_structure g)).

Definition get_edges (g : t) (v : Vertex) : option (list Edge) :=
  if dict_mem v (_structure g) then
    Some (flat_map (fun w => match dict_get w (adjacency g v) with
                             | Some e => [e]
                             | None => []
                             end)
                   (dict_keys (adjacency g v)))
  else None.

Definition get_edge (g : t) (v w : Vertex) : option Edge :=
  if dict_mem v (_structure g) && dict_mem w (adjacency g v)
  then dict_get w (adjacency g v)
  else None.

Definition degree (g : t) (v : Vertex) : outcome nat :=
  match dict_get v (_structure g) with
  | Some adj => Ok (length adj)
  | None => Raise KeyError
  end.

Definition add_vertex (g : t) (element : L) : t * Vertex :=
  let v := Vertex.mk (next_id g) element in
  (mk (dict_set v [] (_structure g)) (S (next_id g)), v).

Definition add_vertex_if_new (g : t) (element : L) : t * Vertex :=
  match first_with_label element (dict_keys (_structure g)) with
  | Some v => (g, v)
  | None => add_vertex g element
  end.

(** [self._structure[v][w] = e], for a key [v] of [_structure] *)
Definition store_edge (v w : Vertex) (e : Edge)
    (s : dict Vertex (dict Vertex Edge)) : dict Vertex (dict Vertex Edge) :=
  dict_set v (dict_set w e (default [] (dict_get v s))) s.

(** [None] is Python's None. The Edge object is created, and so takes an
    allocation number, before the flag is looked at. *)
Definition add_edge (g : t) (v w : Vertex) (element : Z) (oneway : pyobj)
    : t * option Edge :=
  if negb (dict_mem v (_structure g)) || negb (dict_mem w (_structure g))
  then (g, None)
  else
    let e := Edge.mk (next_id g) (v, w) element in
    let s := _structure g in
    let s' :=
      if is_True oneway || bool_decide (v = w) then store_edge v w e s
      else if is_False oneway then store_edge w v e (store_edge v w e s)
      else s in
    (mk s' (S (next_id g)), Some e).

End WithLabel.
Arguments t L : clear implicits.
End Graph.

(** ** class RouteMap(Graph) *)

Module RouteMap.
Section WithLabel.
Context {L C : Type} `{EqDecision L}.

Abbreviation Vertex := (Vertex.t L).
Abbreviation Edge := (Edge.t L).

(** [graph] holds what [Graph.__init__] sets up; [C] is the type of a
    coordinate, [None] the default of [add_vertex]. *)
Record t : Type :=
  mk { graph : Graph.t L;
       _vertexcoords : dict Vertex (option C * option C);
       _findvertex : dict L Vertex }.

(** [RouteMap()] *)
Definition init : t := mk Graph.init [] [].

Definition add_vertex (m : t) (element : L) (coord1 coord2 : option C)
    : t * Vertex :=
  let g := graph m in
  let v := Vertex.mk (Graph.next_id g) element in
  (mk (Graph.mk (dict_set v [] (Graph._structure g)) (S (Graph.next_id g)))
      (dict_set v (coord1, coord2) (_vertexcoords m))
      (dict_set element v (_findvertex m)),
   v).

(** The inherited [add_vertex_if_new] calls the overriding [add_vertex],
    with its default coordinates. *)
Definition add_vertex_if_new (m : t) (element : L) : t * Vertex :=
  match Graph.first_with_label element (Graph.vertices (graph m)) with
  | Some v => (m, v)
  | None => add_vertex m element None None
  end.

(** The inherited [add_edge]. *)
Definition add_edge (m : t) (v w : Vertex) (element : Z) (oneway : pyobj)
    : t * option Edge :=
  let '(g, r) := Graph.add_edge (graph m) v w element oneway in
  (mk g (_vertexcoords m) (_findvertex m), r).

(** [self._findvertex[element]] *)
Definition get_vertex_by_label (m : t) (element : L) : outcome Vertex :=
  match dict_get element (_findvertex m) with
  | Some v => Ok v
  | None => Raise KeyError
  end.

End WithLabel.
Arguments t L C : clear implicits.
End RouteMap.

(** ** What [dijkstra] asks of its [graph] argument *)

(** [dijkstra] calls [graph.get_vertex_by_label] and [graph.get_edges]; the
    first is overridden by RouteMap, the second inherited. A result [None]
    of the lookup is Python's None. *)
Class GraphLike (L G : Type) : Type :=
  { lookup_label : G -> L -> outcome (option (Vertex.t L));
    as_graph : G -> Graph.t L }.

#[global] Instance Graph_is_GraphLike {L} `{EqDecision L}
    : GraphLike L (Graph.t L) :=
  {| lookup_label g element := Ok (Graph.get_vertex_by_label g element);
     as_graph g := g |}.

#[global] Instance RouteMap_is_GraphLike {L C} `{EqDecision L}
    : GraphLike L (RouteMap.t L C) :=
  {| lookup_label m element :=
       match RouteMap.get_vertex_by_label m element with
       | Ok v => Ok (Some v)
       | Raise e => Raise e
       | OutOfFuel => OutOfFuel
       end;
     as_graph m := RouteMap.graph m |}.

(** ** dijkstra *)

Section Dijkstra.
Context {L G : Type} `{EqDecision L} `{GraphLike L G}.

Abbreviation Vertex := (Vertex.t L).
Abbreviation Edge := (Edge.t L).

(** A value of [locs]: the integer stored for the start label, or the
    handle [open.add] returned. *)
Inductive loc : Type :=
  | LocInt (z : Z)
  | LocElement (h : APQ.handle).

(** The local variables of [dijkstra] that hold mutable objects. *)
Record frame : Type :=
  mkFrame { open : APQ.t L;
            locs : dict L loc;
            closed : dict L (Z * option L);
            preds : dict L (option L) }.

Definition on_open {A} (c : M (APQ.t L) A) : M frame A :=
  fun f => let '(q, r) := c (open f) in
           (mkFrame q (locs f) (closed f) (preds f), r).

Definition set_locs (k : L) (v : loc) : M frame unit :=
  modify (fun f => mkFrame (open f) (dict_set k v (locs f)) (closed f) (preds f)).
Definition set_preds (k : L) (v : option L) : M frame unit :=
  modify (fun f => mkFrame (open f) (locs f) (closed f) (dict_set k v (preds f))).
Definition set_closed (k : L) (v : Z * option L) : M frame unit :=
  modify (fun f => mkFrame (open f) (locs f) (dict_set k v (closed f)) (preds f)).

(** [locs.pop(k)] and [preds.pop(k)] *)
Definition pop_locs (k : L) : M frame loc :=
  fun f => match dict_get k (locs f) with
           | Some v => (mkFrame (open f) (dict_del k (locs f)) (closed f) (preds f), Ok v)
           | None => (f, Raise KeyError)
           end.
Definition pop_preds (k : L) : M frame (option L) :=
  fun f => match dict_get k (preds f) with
           | Some v => (mkFrame (open f) (locs f) (closed f) (dict_del k (preds f)), Ok v)
           | None => (f, Raise KeyError)
           end.

Definition in_closed (k : L) : M frame bool :=
  fun f => (f, Ok (dict_mem k (closed f))).
Definition in_locs (k : L) : M frame bool :=
  fun f => (f, Ok (dict_mem k (locs f))).

(** [locs[k]._key]: the integer stored for the start label has no
    attribute [_key]. *)
Definition locs_key (k : L) : M frame Z :=
  let* f := get in
  match dict_get k (locs f) with
  | Some (LocElement h) => on_open (APQ.key_of h)
  | Some (LocInt _) => raise AttributeError
  | None => raise KeyError
  end.

(** [locs[k]] passed to [update_key], which reads [element._key] first *)
Definition locs_update_key (k : L) (newkey : Z) : M frame unit :=
  let* f := get in
  match dict_get k (locs f) with
  | Some (LocElement h) => on_open (APQ.update_key h newkey)
  | Some (LocInt _) => raise AttributeError
  | None => raise KeyError
  end.

(** [opposite._element], where [opposite] may be None *)
Definition element_of (o : option Vertex) : M frame L :=
  match o with
  | Some w => ret (Vertex._element w)
  | None => raise AttributeError
  end.

(** The body of [for edge in graph.get_edges(v)]. [min._key] is read from
    the removed Element object each time it is used. *)
Definition relax (min : APQ.handle) (vert : L) (v : Vertex) (edge : Edge)
    : M frame unit :=
  let opposite := Edge.opposite edge v in
  let* o := element_of opposite in
  let* c := in_closed o in
  if negb c then
    let* k := on_open (APQ.key_of min) in
    let newcost := k + Edge._element edge in
    let* l := in_locs o in
    if negb l then
      set_preds o (Some vert) ;;
      let* added := on_open (APQ.add newcost o) in
      set_locs o (LocElement added)
    else
      let* k := locs_key o in
      if k >? newcost then
        set_preds o (Some vert) ;;
        locs_update_key o newcost
      else ret tt
  else ret tt.

(** The first half of a round of [while len(open._queue) > 0]: the
    minimum is removed and goes into [closed]. *)
Definition close_min : M frame (APQ.handle * L) :=
  let* min := on_open APQ.remove_min in
  let* vert := on_open (APQ.value_of min) in
  let* loc := pop_locs vert in
  let* pred := pop_preds vert in
  let* k := on_open (APQ.key_of min) in
  set_closed vert (k, pred) ;;
  ret (min, vert).

(** The second half: the edges of the vertex found for the label. When
    the lookup gives None, [get_edges(None)] is None, as None is no key of
    [_structure]. *)
Definition scan_edges (graph : G) (min : APQ.handle) (vert : L)
    : M frame unit :=
  let* v := (fun f => (f, lookup_label graph vert)) in
  match v with
  | Some v =>
      match Graph.get_edges (as_graph graph) v with
      | Some es => for_each es (relax min vert v)
      | None => ret tt
      end
  | None => ret tt
  end.

Definition visit (graph : G) : M frame unit :=
  let* closing := close_min in
  scan_edges graph closing.1 closing.2.

Fixpoint dijkstra_loop (fuel : nat) (graph : G) : M frame unit :=
  match fuel with
  | O => out_of_fuel
  | S fuel' =>
      let* n := on_open APQ.len_queue in
      if n >? 0 then visit graph ;; dijkstra_loop fuel' graph
      else ret tt
  end.

(** The statements of [dijkstra] up to the two print loops, which do not
    change [closed]. [fuel] bounds the rounds of the while loop. *)
Definition dijkstra_body (fuel : nat) (graph : G) (vertex : L) : M frame unit :=
  on_open (APQ.add 0 vertex) ;;
  set_locs vertex (LocInt 0) ;;
  dijkstra_loop fuel graph.

Definition dijkstra_start (vertex : L) : frame :=
  mkFrame APQ.init [] [] [(vertex, None)].

Definition dijkstra (fuel : nat) (graph : G) (vertex : L)
    : outcome (dict L (Z * option L)) :=
  match dijkstra_body fuel graph vertex (dijkstra_start vertex) with
  | (f, Ok _) => Ok (closed f)
  | (_, Raise e) => Raise e
  | (_, OutOfFuel) => OutOfFuel
  end.

End Dijkstra.

(** ** RouteMap.sp *)

Section ShortestPathReport.
Context {L C : Type} `{EqDecision L}.

(** One printed line [W,latitude,longitude,element,cost]. *)
Record row : Type :=
  mkRow { latitude : option C; longitude : option C; element : L; cost : Z }.

(** [while w != v]; [w] becomes None when a predecessor is None, and None
    is no key of [_findvertex]. *)
Fixpoint sp_loop (fuel : nat) (m : RouteMap.t L C)
    (closed : dict L (Z * option L)) (v : L) (w : option L)
    (printed : list row) : list row * outcome unit :=
  match fuel with
  | O => (printed, OutOfFuel)
  | S fuel' =>
      if bool_decide (w = Some v) then (printed, Ok tt)
      else
        match w with
        | None => (printed, Raise KeyError)
        | Some w =>
            match RouteMap.get_vertex_by_label m w with
            | Ok label =>
                match dict_get label (RouteMap._vertexcoords m) with
                | Some (latitude, longitude) =>
                    match dict_get w closed with
                    | Some (cost, pred) =>
                        sp_loop fuel' m closed v pred
                          (printed ++ [mkRow latitude longitude w cost])
                    | None => (printed, Raise KeyError)
                    end
                | None => (printed, Raise KeyError)
                end
            | Raise e => (printed, Raise e)
            | OutOfFuel => (printed, OutOfFuel)
            end
        end
  end.

(** The lines printed after the header, and how the call ends. *)
Definition sp (fuel : nat) (m : RouteMap.t L C) (v w : L)
    : list row * outcome unit :=
  match dijkstra fuel m v with
  | Ok closed => sp_loop fuel m closed v (Some w) []
  | Raise e => ([], Raise e)
  | OutOfFuel => ([], OutOfFuel)
  end.

(** What the calls write to standard output, one constructor for each
    [print] statement: [print(closed)] and the line of one item of
    [closed.items()] at the end of [dijkstra], the header of [sp], and a
    line of the loop of [sp]. *)
Inductive line : Type :=
  | ClosedTable (closed : dict L (Z * option L))
  | Destination (vertex : L) (path_length : Z) (previous : option L)
  | Header
  | Waypoint (r : row).

(** The two print statements at the end of [dijkstra], reached only when
    the while loop has ended without an exception. *)
Definition dijkstra_prints (closed : dict L (Z * option L)) : list line :=
  ClosedTable closed
  :: map (fun unit => Destination unit.1 unit.2.1 unit.2.2) closed.

(** Everything a call of [sp] prints, in order, and how the call ends:
    the lines of [dijkstra], the header, then the lines of the loop. *)
Definition sp_output (fuel : nat) (m : RouteMap.t L C) (v w : L)
    : list line * outcome unit :=
  match dijkstra fuel m v with
  | Ok closed =>
      let '(rows, r) := sp_loop fuel m closed v (Some w) [] in
      (dijkstra_prints closed ++ Header :: map Waypoint rows, r)
  | Raise e => ([], Raise e)
  | OutOfFuel => ([], OutOfFuel)
  end.

End ShortestPathReport.

(** * Predicates the properties are stated with *)

(** ** Reasoning about computations *)

(** [c] keeps [P] true of the state, however it ends. *)
Definition stable {S A} (P : S -> Prop) (c : M S A) : Prop :=
  forall s, P s -> P (c s).1.

(** From a state in [P], if [c] returns a value then [Q] holds of the value
    and the state reached. *)
Definition triple {S A} (P : S -> Prop) (c : M S A) (Q : A -> S -> Prop) : Prop :=
  forall s, P s -> match c s with
                   | (s', Ok a) => Q a s'
                   | _ => True
                   end.

(** The error kind the specification names for a path to a vertex that was
    never finalized. *)
Definition Unreachable : exn := Custom "Unreachable".

(** ** The heap and handle invariants of the queue *)

Section QueueInvariants.
Context {L : Type}.

Definition entry_at (q : APQ.t L) (p : nat) : option (APQ.Element L) :=
  match APQ._queue q !! p with
  | Some h => APQ.objects q !! h
  | None => None
  end.

(** Every entry below the root has a parent whose key is not larger. *)
Definition heap_ordered (q : APQ.t L) : bool :=
  forallb
    (fun p => match entry_at q ((p - 1) `div` 2)%nat, entry_at q p with
              | Some parent, Some child => APQ._key parent <=? APQ._key child
              | _, _ => false
              end)
    (seq 1 (length (APQ._queue q) - 1)).

(** Every entry's [_index] is the position it is stored at. *)
Definition indices_valid (q : APQ.t L) : bool :=
  forallb
    (fun p => match entry_at q p with
              | Some e => APQ._index e =? Z.of_nat p
              | None => false
              end)
    (seq 0 (length (APQ._queue q))).

(** Every reference in the queue is to an Element object. *)
Definition handles_live (q : APQ.t L) : Prop :=
  forall p, (p < length (APQ._queue q))%nat -> is_Some (entry_at q p).

(** Every Element object ever created holds a value in [R]. *)
Definition objects_all (R : L -> Prop) (q : APQ.t L) : Prop :=
  forall h e, APQ.objects q !! h = Some e -> R (APQ._value e).

(** The structure of the queue that every operation [dijkstra] uses keeps:
    no entry twice, every entry an Element object whose [_index] is its
    position or -1. *)
Definition queue_wf (q : APQ.t L) : Prop :=
  NoDup (APQ._queue q) /\
  forall p h, APQ._queue q !! p = Some h ->
    exists e, APQ.objects q !! h = Some e /\
              (APQ._index e = Z.of_nat p \/ APQ._index e = -1).

(** The Element objects are the same and hold the same values. *)
Definition same_values (q q' : APQ.t L) : Prop :=
  length (APQ.objects q') = length (APQ.objects q) /\
  forall h, (APQ._value <$> APQ.objects q' !! h)
            = (APQ._value <$> APQ.objects q !! h).

(** The queue holds the same entries, in some order. *)
Definition reordered (q q' : APQ.t L) : Prop :=
  same_values q q' /\
  length (APQ._queue q') = length (APQ._queue q) /\
  forall h, h ∈ APQ._queue q' <-> h ∈ APQ._queue q.

(** The position [x] comes from when the entries at [p1] and [p2] change
    places. *)
Definition transpose (p1 p2 x : nat) : nat :=
  if decide (x = p2) then p1 else if decide (x = p1) then p2 else x.

(** What holds of [dijkstra]'s variables throughout: [R] of every value
    given to the queue, [B] of the table of closed labels. *)
Definition frame_inv (R : L -> Prop) (B : dict L (Z * option L) -> Prop)
    (f : frame) : Prop :=
  (forall h e, APQ.objects (open f) !! h = Some e -> R (APQ._value e)) /\
  B (closed f).

(** The values held by the entries of the queue, in array order. *)
Definition queue_values (q : APQ.t L) : list L :=
  omap (fun h => APQ._value <$> APQ.objects q !! h) (APQ._queue q).
End QueueInvariants.

(** ** Graphs built by calls, and what is known of each edge *)

Section GraphCalls.
Context {L : Type} `{EqDecision L}.

Abbreviation Vertex := (Vertex.t L).
Abbreviation Edge := (Edge.t L).

Inductive call : Type :=
  | AddVertex (element : L)
  | AddEdge (v w : Vertex) (element : Z) (oneway : pyobj).

(** The graph after some calls, with the edges [add_edge] has returned:
    those it put in both adjacency maps and those it put in one. *)
Record history : Type :=
  mkHistory { now : Graph.t L; two_way : list Edge; one_way : list Edge }.

Definition start_history : history := mkHistory Graph.init [] [].

(** Where [add_edge] puts the new edge, by the tests it makes on its
    arguments: in both maps ([Some true]), in [v]'s map only
    ([Some false]), or nowhere. *)
Definition add_edge_mode (v w : Vertex) (oneway : pyobj) : option bool :=
  if is_True oneway || bool_decide (v = w) then Some false
  else if is_False oneway then Some true
  else None.

Definition step (h : history) (c : call) : history :=
  match c with
  | AddVertex element =>
      mkHistory (Graph.add_vertex (now h) element).1 (two_way h) (one_way h)
  | AddEdge v w element oneway =>
      match Graph.add_edge (now h) v w element oneway with
      | (g, Some e) =>
          match add_edge_mode v w oneway with
          | Some true => mkHistory g (e :: two_way h) (one_way h)
          | Some false => mkHistory g (two_way h) (e :: one_way h)
          | None => mkHistory g (two_way h) (one_way h)
          end
      | (g, None) => mkHistory g (two_way h) (one_way h)
      end
  end.

Definition play (h : history) (cs : list call) : history := foldl step h cs.

(** [e] is in some adjacency map of [g]. *)
Definition stored (g : Graph.t L) (e : Edge) : Prop :=
  exists a b, Graph.get_edge g a b = Some e.

Definition both_directions (g : Graph.t L) (e : Edge) : Prop :=
  Graph.get_edge g (Edge.start e) (Edge.end_ e) = Some e /\
  Graph.get_edge g (Edge.end_ e) (Edge.start e) = Some e.

Definition one_direction (g : Graph.t L) (e : Edge) : Prop :=
  forall a b, Graph.get_edge g a b = Some e ->
              a = Edge.start e /\ b = Edge.end_ e.

(** The edge invariant of the data model, for the edges of a history. *)
Definition edge_invariant (h : history) : Prop :=
  (forall e, e ∈ two_way h -> stored (now h) e -> both_directions (now h) e) /\
  (forall e, e ∈ one_way h -> one_direction (now h) e).

(** What a history built by calls keeps true, besides the edge invariant:
    allocation numbers below [next_id], edges stored between their own
    ends, two-way edges between different vertices. *)
Record history_ok (h : history) : Prop :=
  { ok_vertex_ids : forall v, v ∈ Graph.vertices (now h) ->
                              (Vertex.id v < Graph.next_id (now h))%nat;
    ok_stored_ids : forall a b e, Graph.get_edge (now h) a b = Some e ->
                                  (Edge.id e < Graph.next_id (now h))%nat;
    ok_logged_ids : forall e, e ∈ two_way h \/ e ∈ one_way h ->
                              (Edge.id e < Graph.next_id (now h))%nat;
    ok_ends : forall a b e, Graph.get_edge (now h) a b = Some e ->
                (a = Edge.start e /\ b = Edge.end_ e) \/
                (a = Edge.end_ e /\ b = Edge.start e);
    ok_two_way_ends : forall e, e ∈ two_way h -> Edge.start e <> Edge.end_ e;
    ok_edges : edge_invariant h }.

(** A one-way [add_edge(v, w)] made while [get_edge(v, w)] and
    [get_edge(w, v)] return one and the same edge. *)
Definition splits_two_way (g : Graph.t L) (c : call) : bool :=
  match c with
  | AddEdge v w _ oneway =>
      is_True oneway && negb (bool_decide (v = w)) &&
      match Graph.get_edge g v w with
      | Some e => bool_decide (Graph.get_edge g w v = Some e)
      | None => false
      end
  | AddVertex _ => false
  end.

Fixpoint never_splits (h : history) (cs : list call) : bool :=
  match cs with
  | [] => true
  | c :: cs' => negb (splits_two_way (now h) c) && never_splits (step h c) cs'
  end.

(** The cost of walking along the given vertices, edge by edge. *)
Fixpoint walk_cost (g : Graph.t L) (vs : list Vertex) : option Z :=
  match vs with
  | [] => Some 0
  | v :: vs' =>
      match vs' with
      | [] => Some 0
      | w :: _ =>
          match Graph.get_edge g v w, walk_cost g vs' with
          | Some e, Some c => Some (Edge._element e + c)
          | _, _ => None
          end
      end
  end.

(** One hop: a vertex labelled [a] has, in its adjacency map, an edge
    whose other end is labelled [b]. *)
Definition hop (g : Graph.t L) (a b : L) : Prop :=
  exists v es e w,
    v ∈ Graph.vertices g /\ Vertex.element v = a /\
    Graph.get_edges g v = Some es /\ e ∈ es /\
    Edge.opposite e v = Some w /\ Vertex.element w = b.

Definition reachable (g : Graph.t L) (a b : L) : Prop := rtc (hop g) a b.
End GraphCalls.

(** ** Route maps built by calls *)

Section RouteMapCalls.
Context {L C : Type} `{EqDecision L}.

Inductive built : RouteMap.t L C -> Prop :=
  | built_init : built RouteMap.init
  | built_add_vertex m element c1 c2 :
      built m -> built (RouteMap.add_vertex m element c1 c2).1
  | built_add_vertex_if_new m element :
      built m -> built (RouteMap.add_vertex_if_new m element).1
  | built_add_edge m v w element oneway :
      built m -> built (RouteMap.add_edge m v w element oneway).1.

(** The label index names vertices of the map by their own label. *)
Definition index_sound (m : RouteMap.t L C) : Prop :=
  forall l v, dict_get l (RouteMap._findvertex m) = Some v ->
              v ∈ Graph.vertices (RouteMap.graph m) /\ Vertex.element v = l.
End RouteMapCalls.

(** A graph-like object whose label lookup returns vertices of its graph
    carrying the label asked for. *)
Definition lookup_sound {L G} `{EqDecision L} `{GraphLike L G} (graph : G) : Prop :=
  forall l v, lookup_label graph l = Ok (Some v) ->
              v ∈ Graph.vertices (as_graph graph) /\ Vertex.element v = l.

(** ** What the search needs of its graph and keeps of its variables *)

Section SearchDefs.
Context {L : Type} `{EqDecision L}.

(** The labels at the ends of the edges [get_edges] returns. *)
Definition edge_labels (g : Graph.t L) : list L :=
  flat_map
    (fun v => match Graph.get_edges g v with
              | Some es =>
                  flat_map (fun e => [Vertex._element (Edge.start e);
                                      Vertex._element (Edge.end_ e)]) es
              | None => []
              end)
    (Graph.vertices g).

(** The variables of [dijkstra] between two rounds: the queue is well
    formed, [locs] maps exactly the labels in the queue to their handles,
    no label is both in the queue and closed, and every label is in
    [bound]. *)
Record frame_wf (bound : list L) (f : frame) : Prop :=
  { wf_queue : queue_wf (open f);
    wf_locs_keys : NoDup (dict_keys (locs f));
    wf_closed_keys : NoDup (dict_keys (closed f));
    wf_handles : forall h, h ∈ APQ._queue (open f) ->
      exists l, (APQ._value <$> APQ.objects (open f) !! h) = Some l /\
                dict_get l (locs f) = Some (LocElement h) /\
                dict_mem l (preds f) = true /\ l ∈ bound;
    wf_locs : forall l x, dict_get l (locs f) = Some x ->
      exists h, x = LocElement h /\ h ∈ APQ._queue (open f) /\
                (APQ._value <$> APQ.objects (open f) !! h) = Some l;
    wf_open_closed : forall l, dict_mem l (locs f) = true ->
                               dict_mem l (closed f) = false;
    wf_closed : forall l, dict_mem l (closed f) = true -> l ∈ bound }.

(** A graph as the methods build it: allocation numbers below [next_id],
    every edge stored between its own two ends, both of them vertices. *)
Record graph_wf (g : Graph.t L) : Prop :=
  { gw_ids : forall v, v ∈ Graph.vertices g -> (Vertex.id v < Graph.next_id g)%nat;
    gw_ends : forall a b e, Graph.get_edge g a b = Some e ->
                ((a = Edge.start e /\ b = Edge.end_ e) \/
                 (a = Edge.end_ e /\ b = Edge.start e)) /\
                b ∈ Graph.vertices g }.

(** Every vertex of the route map has its label in the index. *)
Definition index_complete {C} (m : RouteMap.t L C) : Prop :=
  forall v, v ∈ Graph.vertices (RouteMap.graph m) ->
            dict_mem (Vertex.element v) (RouteMap._findvertex m) = true.
End SearchDefs.

(** ** Predicates of the further properties *)

(** *** Counting and listing edges *)

Section GraphCounts.
Context {L : Type} `{EqDecision L}.

(** A call that cannot replace an edge: [add_vertex], or [add_edge(v, w)]
    made while neither [get_edge(v, w)] nor [get_edge(w, v)] returns an
    edge. *)
Definition joins_new_pair (g : Graph.t L) (c : call) : bool :=
  match c with
  | AddEdge v w _ _ =>
      match Graph.get_edge g v w, Graph.get_edge g w v with
      | None, None => true
      | _, _ => false
      end
  | AddVertex _ => true
  end.

Fixpoint only_new_pairs (h : history) (cs : list call) : bool :=
  match cs with
  | [] => true
  | c :: cs' => joins_new_pair (now h) c && only_new_pairs (step h c) cs'
  end.

(** The number [num_edges] halves: the sizes of all adjacency maps. *)
Definition adjacency_sizes (g : Graph.t L) : nat :=
  sum_list_with (fun v => length (Graph.adjacency g v)) (Graph.vertices g).

(** The entries of [v]'s adjacency map that [edges] lists. *)
Definition listed_at (g : Graph.t L) (v : Vertex.t L) : list (Edge.t L) :=
  flat_map (fun w => match dict_get w (Graph.adjacency g v) with
                     | Some e => if decide (Edge.start e = v) then [e] else []
                     | None => []
                     end)
           (dict_keys (Graph.adjacency g v)).
End GraphCounts.

Section EdgeListing.
Context {L : Type} `{EqDecision L}.

(** Every edge in an adjacency map is also where its own ends put it: in
    the map of its first vertex, under its second. *)
Definition stored_at_start (g : Graph.t L) : Prop :=
  forall a b e, Graph.get_edge g a b = Some e ->
                Graph.get_edge g (Edge.start e) (Edge.end_ e) = Some e.

(** No vertex is a key of [_structure] twice, nor of an adjacency map. *)
Definition keys_once (g : Graph.t L) : Prop :=
  NoDup (Graph.vertices g) /\
  forall v, NoDup (dict_keys (Graph.adjacency g v)).
End EdgeListing.

(** *** Element objects, positions and the heap order *)

Section QueueObjects.
Context {L : Type}.

(** The Element object behind [h] holds the key [k] and the value [v]. *)
Definition element_holds (h : APQ.handle) (k : Z) (v : L) (q : APQ.t L) : Prop :=
  exists i, APQ.objects q !! h = Some (APQ.mkElement k v i).

(** Every entry's [_index] is the position it is stored at, and no entry
    is stored twice. *)
Definition positions_valid (q : APQ.t L) : Prop :=
  NoDup (APQ._queue q) /\
  forall p h, APQ._queue q !! p = Some h ->
    exists e, APQ.objects q !! h = Some e /\ APQ._index e = Z.of_nat p.
End QueueObjects.

Section HeapOrder.
Context {L : Type}.

(** The entry at [p] has a key not below its parent's. *)
Definition parent_le (q : APQ.t L) (p : nat) : Prop :=
  forall e ep, entry_at q p = Some e ->
               entry_at q ((p - 1) `div` 2)%nat = Some ep ->
               APQ._key ep <= APQ._key e.

(** The heap order, at every position below the root. *)
Definition heap_order (q : APQ.t L) : Prop :=
  forall p, (1 <= p)%nat -> parent_le q p.

(** The heap order but for the entry at [i], which may be larger than its
    children; the children are not below the parent of [i]. *)
Definition heap_but (q : APQ.t L) (i : nat) : Prop :=
  (forall p, (1 <= p)%nat -> ((p - 1) `div` 2)%nat <> i -> parent_le q p) /\
  (forall c e ep, (1 <= i)%nat -> (1 <= c)%nat -> ((c - 1) `div` 2)%nat = i ->
     entry_at q c = Some e -> entry_at q ((i - 1) `div` 2)%nat = Some ep ->
     APQ._key ep <= APQ._key e).
End HeapOrder.

Section HeapOrderUp.
Context {L : Type}.

(** The heap order but for the entry at [i], which may be smaller than
    its parent; the children of [i] are not below the parent of [i]. *)
Definition heap_above (q : APQ.t L) (i : nat) : Prop :=
  (forall p, (1 <= p)%nat -> p <> i -> parent_le q p) /\
  (forall c e ep, (1 <= i)%nat -> (1 <= c)%nat -> ((c - 1) `div` 2)%nat = i ->
     entry_at q c = Some e -> entry_at q ((i - 1) `div` 2)%nat = Some ep ->
     APQ._key ep <= APQ._key e).
End HeapOrderUp.

(** *** The table of a search *)

Section SearchTree.
Context {L G : Type} `{EqDecision L} `{GraphLike L G}.

(** The search can go from the label [a] to the label [b] at cost [c]: the
    vertex the graph finds for [a] has an edge of element [c] whose other
    end is labelled [b]. *)
Definition link (graph : G) (a b : L) (c : Z) : Prop :=
  exists v es e w,
    lookup_label graph a = Ok (Some v) /\
    Graph.get_edges (as_graph graph) v = Some es /\ e ∈ es /\
    Edge.opposite e v = Some w /\ Vertex._element w = b /\
    Edge._element e = c.

(** A walk along links from [a], with the sum of its costs. *)
Inductive walk (graph : G) (a : L) : L -> Z -> Prop :=
  | walk_here : walk graph a a 0
  | walk_on b c d e :
      walk graph a b d -> link graph b c e -> walk graph a c (d + e).

(** A table of a search from [s]: the entry of [s] first, then entries
    each of which names as predecessor a label entered before it, at a
    distance that is the predecessor's plus the cost of a link from it. *)
Inductive search_tree (graph : G) (s : L) : dict L (Z * option L) -> Prop :=
  | tree_root : search_tree graph s [(s, (0, None))]
  | tree_grow c l d p dp pp :
      search_tree graph s c -> dict_get l c = None ->
      dict_get p c = Some (dp, pp) -> link graph p l (d - dp) ->
      search_tree graph s (c ++ [(l, (d, Some p))]).

(** What the entries of the queue have to do with the table: each waits
    with a key that is the distance of its recorded predecessor, a closed
    label, plus the cost of a link from it. *)
Record frame_links (graph : G) (s : L) (f : frame) : Prop :=
  { fl_tree : search_tree graph s (closed f);
    fl_open : forall h, h ∈ APQ._queue (open f) ->
      exists l k p dp pp,
        element_holds h k l (open f) /\
        dict_get l (preds f) = Some (Some p) /\
        dict_get p (closed f) = Some (dp, pp) /\
        link graph p l (k - dp) }.

(** The label is closed or waits in the queue. *)
Definition reached (f : frame) (l : L) : Prop :=
  dict_mem l (closed f) = true \/ dict_mem l (locs f) = true.

(** Every link from a closed label leads to a label that is reached. *)
Definition frontier (graph : G) (f : frame) : Prop :=
  forall a b c, dict_mem a (closed f) = true -> link graph a b c -> reached f b.
End SearchTree.

Section WayBack.
Context {L C : Type} `{EqDecision L}.

(** The labels and costs on the way from [w] back to [v] along the
    predecessors of a table, [v] itself left out. *)
Inductive way_back (table : dict L (Z * option L)) (v : L)
    : L -> list (L * Z) -> Prop :=
  | way_done : way_back table v v []
  | way_step w d p rest :
      w <> v -> dict_get w table = Some (d, Some p) ->
      way_back table v p rest -> way_back table v w ((w, d) :: rest).

(** Every vertex in the label index has coordinates. *)
Definition coords_complete (m : RouteMap.t L C) : Prop :=
  forall l v, dict_get l (RouteMap._findvertex m) = Some v ->
              dict_mem v (RouteMap._vertexcoords m) = true.
End WayBack.

(** ** The graphs and queues of the examples *)

Module Examples.
Definition two_way : pyobj := PyBool false.
Definition directed : pyobj := PyBool true.

(** Vertices A, B, C; edges A-B of cost 1, B-C of cost 2, A-C of cost 4,
    added in this order. *)
Definition triangle : Graph.t string :=
  let '(g, a) := Graph.add_vertex Graph.init "A" in
  let '(g, b) := Graph.add_vertex g "B" in
  let '(g, c) := Graph.add_vertex g "C" in
  let g := (Graph.add_edge g a b 1 two_way).1 in
  let g := (Graph.add_edge g b c 2 two_way).1 in
  (Graph.add_edge g a c 4 two_way).1.

(** The same vertices and edges, the edge A-C added first. *)
Definition triangle_ac_first : Graph.t string :=
  let '(g, a) := Graph.add_vertex Graph.init "A" in
  let '(g, b) := Graph.add_vertex g "B" in
  let '(g, c) := Graph.add_vertex g "C" in
  let g := (Graph.add_edge g a c 4 two_way).1 in
  let g := (Graph.add_edge g a b 1 two_way).1 in
  (Graph.add_edge g b c 2 two_way).1.

Definition vS : Vertex.t string := Vertex.mk 0 "S".
Definition vX : Vertex.t string := Vertex.mk 1 "X".
Definition vY : Vertex.t string := Vertex.mk 2 "Y".

(** Vertices S, X, Y; edges S-X of cost 10, S-Y of cost 1, Y-X of cost 1. *)
Definition detour : Graph.t string :=
  let '(g, s) := Graph.add_vertex Graph.init "S" in
  let '(g, x) := Graph.add_vertex g "X" in
  let '(g, y) := Graph.add_vertex g "Y" in
  let g := (Graph.add_edge g s x 10 two_way).1 in
  let g := (Graph.add_edge g s y 1 two_way).1 in
  (Graph.add_edge g y x 1 two_way).1.

Definition vA : Vertex.t string := Vertex.mk 0 "A".
Definition vB : Vertex.t string := Vertex.mk 1 "B".

(** [a = g.add_vertex("A"); b = g.add_vertex("B")] *)
Definition two_vertices : Graph.t string :=
  (Graph.add_vertex (Graph.add_vertex Graph.init "A").1 "B").1.

(** A two-way edge between A and B, then a one-way edge from A to B. *)
Definition readd_one_way : list (call (L := string)) :=
  [AddVertex "A"; AddVertex "B";
   AddEdge vA vB 1 two_way; AddEdge vA vB 2 directed].

(** A two-way edge between A and B and a one-way edge from B to C. *)
Definition mixed_edges : list (call (L := string)) :=
  [AddVertex "A"; AddVertex "B"; AddVertex "C";
   AddEdge vA vB 1 two_way; AddEdge vB (Vertex.mk 2 "C") 2 directed].

(** A route map of two vertices and no edge. *)
Definition two_islands : RouteMap.t string Z :=
  (RouteMap.add_vertex
     (RouteMap.add_vertex RouteMap.init "A" (Some 1) (Some 2)).1
     "B" (Some 3) (Some 4)).1.

(** Two vertices and one one-way edge between them. *)
Definition one_arrow : Graph.t string :=
  let '(g, a) := Graph.add_vertex Graph.init "A" in
  let '(g, b) := Graph.add_vertex g "B" in
  (Graph.add_edge g a b 7 directed).1.

(** [a = q.add(1, "a"); q.add(2, "b"); q.add(3, "c")], and the handle [a] *)
Definition three_entries : APQ.t string * outcome APQ.handle :=
  (let* a := APQ.add 1 "a" in
   APQ.add 2 "b" ;;
   APQ.add 3 "c" ;;
   ret a) APQ.init.

(** [q.add(1, "a"); q.add(1, "b")]: a valid heap of two equal keys *)
Definition equal_keys : APQ.t string :=
  ((APQ.add 1 "a" ;; APQ.add 1 "b") APQ.init).1.

(** [q.add(5, "a"); q.add(3, "b")] *)
Definition two_adds : APQ.t string * outcome APQ.handle :=
  (APQ.add 5 "a" ;; APQ.add 3 "b") APQ.init.

(** A route map of two vertices and a two-way edge of cost 7 between
    them. *)
Definition two_towns : RouteMap.t string Z :=
  let '(m, a) := RouteMap.add_vertex RouteMap.init "A" (Some 1) (Some 2) in
  let '(m, b) := RouteMap.add_vertex m "B" (Some 3) (Some 4) in
  (RouteMap.add_edge m a b 7 two_way).1.

(** The queue after [add(1, "a"); add(2, "b"); add(3, "c")]. *)
Definition heap_of_three : APQ.t string :=
  APQ.mkAPQ [APQ.mkElement 1 "a" 0; APQ.mkElement 2 "b" 1; APQ.mkElement 3 "c" 2]
            [0%nat; 1%nat; 2%nat].

(** The queue after [add(5, "a")]. *)
Definition heap_of_one : APQ.t string :=
  APQ.mkAPQ [APQ.mkElement 5 "a" 0] [0%nat].

(** [q.add(1, "a"); q.add(1, "b"); q.add(1, "c")]: a root with two children
    of its own key *)
Definition three_equal_keys : APQ.t string :=
  ((APQ.add 1 "a" ;; APQ.add 1 "b" ;; APQ.add 1 "c") APQ.init).1.
End Examples.

(** * Properties *)

(** ** The queue on concrete inputs *)

(** C2. The heap invariant does not survive two insertions: after
    [add(5, "a")] and [add(3, "b")] the root has key 5 and its child key 3,
    and the child's [_index] is -1, not its position 1. *)
Theorem add_breaks_heap_invariant :
  exists q h,
    Examples.two_adds = (q, Ok h) /\
    APQ._queue q = [0%nat; 1%nat] /\
    APQ.objects q = [APQ.mkElement 5 "a" 0; APQ.mkElement 3 "b" (-1)] /\
    heap_ordered q = false /\
    indices_valid q = false.
Proof. eexists _, _. repeat split; vm_compute; reflexivity. Qed.

(** C3. On a valid three-entry heap, [remove] of the root's handle pops the
    last entry, leaves the entry asked for in the queue, and ends with an
    IndexError instead of returning that entry. *)
Theorem remove_pops_last_entry_and_fails :
  exists q a q',
    Examples.three_entries = (q, Ok a) /\
    heap_ordered q = true /\ indices_valid q = true /\
    queue_values q = ["a"; "b"; "c"] /\
    (APQ._value <$> APQ.objects q !! a) = Some "a" /\
    APQ.remove a q = (q', Raise IndexError) /\
    queue_values q' = ["a"; "b"] /\
    indices_valid q' = false.
Proof. eexists _, _, _. repeat split; vm_compute; reflexivity. Qed.

(** ** dijkstra on concrete graphs *)

(** C1. With non-negative costs S-X 10, S-Y 1, Y-X 1, the table returned
    for source S gives X the distance 10 and predecessor S, although the
    walk S, Y, X costs 2. *)
Theorem dijkstra_keeps_longer_path (n : nat) :
  Forall (fun e => 0 <= Edge._element e) (Graph.edges Examples.detour) /\
  walk_cost Examples.detour [Examples.vS; Examples.vY; Examples.vX] = Some 2 /\
  dijkstra (4 + n) Examples.detour "S" =
    Ok [("S", (0, None)); ("X", (10, Some "S")); ("Y", (1, Some "S"))].
Proof.
  split; [|split].
  - vm_compute. repeat constructor; discriminate.
  - vm_compute. reflexivity.
  - vm_compute. reflexivity.
Qed.

(** C4. For the graph A-B 1, B-C 2, A-C 4 with the edge A-C added before
    A-B, the table returned for source A gives C the distance 4 and the
    predecessor A. *)
Theorem dijkstra_triangle_ac_first (n : nat) :
  dijkstra (4 + n) Examples.triangle_ac_first "A" =
    Ok [("A", (0, None)); ("C", (4, Some "A")); ("B", (1, Some "A"))].
Proof. vm_compute. reflexivity. Qed.

(** With the edges added in the order A-B, B-C, A-C the table is the
    expected one. *)
Lemma dijkstra_triangle_listed_order (n : nat) :
  dijkstra (4 + n) Examples.triangle "A" =
    Ok [("A", (0, None)); ("B", (1, Some "A")); ("C", (3, Some "B"))].
Proof. vm_compute. reflexivity. Qed.

(** The two graphs have the same vertices and the same cost between every
    two of them. *)
Lemma triangle_same_edges :
  Graph.vertices Examples.triangle_ac_first = Graph.vertices Examples.triangle /\
  forall v w, v ∈ Graph.vertices Examples.triangle ->
              w ∈ Graph.vertices Examples.triangle ->
    (Edge._element <$> Graph.get_edge Examples.triangle_ac_first v w) =
    (Edge._element <$> Graph.get_edge Examples.triangle v w).
Proof.
  split; [reflexivity|].
  intros v w Hv Hw. vm_compute in Hv, Hw.
  repeat (apply elem_of_cons in Hv as [->|Hv]);
    repeat (apply elem_of_cons in Hw as [->|Hw]);
    try (by apply elem_of_nil in Hv); try (by apply elem_of_nil in Hw);
    vm_compute; reflexivity.
Qed.

(** ** num_edges on a concrete graph *)

(** C6. With no two-way edge and one one-way edge, [num_edges] is 0, while
    [edges] lists the one edge. *)
Theorem num_edges_one_way_edge :
  Graph.num_edges Examples.one_arrow = 0%nat /\
  length (Graph.edges Examples.one_arrow) = 1%nat.
Proof. split; vm_compute; reflexivity. Qed.

(** ** Dictionaries *)

Section DictFacts.
Context {K V : Type} `{EqDecision K}.
Implicit Types (d : dict K V) (k : K) (v : V).

Lemma dict_get_set k k' v d :
  dict_get k (dict_set k' v d) = if decide (k = k') then Some v else dict_get k d.
Proof.
  induction d as [|[k0 v0] d IH]; simpl.
  - destruct (decide (k = k')); reflexivity.
  - destruct (decide (k' = k0)) as [->|Hne]; simpl.
    + destruct (decide (k = k0)); reflexivity.
    + rewrite IH. destruct (decide (k = k0)) as [->|]; [|reflexivity].
      destruct (decide (k0 = k')); congruence.
Qed.

Lemma dict_get_set_eq k v d : dict_get k (dict_set k v d) = Some v.
Proof. rewrite dict_get_set. by rewrite decide_True. Qed.

Lemma dict_get_set_ne k k' v d :
  k <> k' -> dict_get k (dict_set k' v d) = dict_get k d.
Proof. intros. rewrite dict_get_set. by rewrite decide_False. Qed.

Lemma dict_get_del k k' d :
  dict_get k d = None -> dict_get k (dict_del k' d) = None.
Proof.
  induction d as [|[k0 v0] d IH]; simpl; [done|].
  destruct (decide (k = k0)); [done|]. intros Hd.
  destruct (decide (k' = k0)); simpl; [done|].
  rewrite decide_False by done. auto.
Qed.

Lemma dict_mem_keys k d : dict_mem k d = true <-> k ∈ dict_keys d.
Proof.
  unfold dict_mem, dict_keys. induction d as [|[k0 v0] d IH]; simpl.
  - split; [done|]. intros Hk. by apply elem_of_nil in Hk.
  - rewrite elem_of_cons. destruct (decide (k = k0)); [tauto|].
    rewrite IH. tauto.
Qed.

Lemma dict_mem_false_keys k d : dict_mem k d = false <-> k ∉ dict_keys d.
Proof.
  rewrite <- dict_mem_keys. destruct (dict_mem k d); split; congruence.
Qed.

Lemma dict_get_Some_keys k v d : dict_get k d = Some v -> k ∈ dict_keys d.
Proof. intros Hk. apply dict_mem_keys. unfold dict_mem. by rewrite Hk. Qed.

Lemma dict_get_None_keys k d : dict_get k d = None <-> k ∉ dict_keys d.
Proof.
  rewrite <- dict_mem_false_keys. unfold dict_mem.
  destruct (dict_get k d); split; congruence.
Qed.

Lemma dict_get_Some_in k v d : dict_get k d = Some v -> (k, v) ∈ d.
Proof.
  induction d as [|[k0 v0] d IH]; simpl; [done|].
  destruct (decide (k = k0)) as [->|].
  - intros [= ->]. apply elem_of_cons. by left.
  - intros Hd. apply elem_of_cons. right. auto.
Qed.

Lemma dict_mem_set k k' v d :
  dict_mem k (dict_set k' v d) = bool_decide (k = k') || dict_mem k d.
Proof.
  unfold dict_mem. rewrite dict_get_set.
  destruct (decide (k = k')).
  - by rewrite bool_decide_eq_true_2.
  - by rewrite bool_decide_eq_false_2.
Qed.

Lemma dict_keys_set k k' v d :
  k ∈ dict_keys (dict_set k' v d) <-> k = k' \/ k ∈ dict_keys d.
Proof.
  rewrite <- !dict_mem_keys, dict_mem_set.
  rewrite orb_true_iff, bool_decide_eq_true. tauto.
Qed.

(** Assigning to a key the dictionary has keeps the order of its keys. *)
Lemma dict_keys_set_present k v d :
  k ∈ dict_keys d -> dict_keys (dict_set k v d) = dict_keys d.
Proof.
  unfold dict_keys. induction d as [|[k0 v0] d IH]; simpl.
  - intros Hk. by apply elem_of_nil in Hk.
  - rewrite elem_of_cons. intros Hk.
    destruct (decide (k = k0)) as [->|]; simpl; [done|].
    f_equal. apply IH. tauto.
Qed.
End DictFacts.

(** ** Graph: get_edge and add_edge *)

Section GraphFacts.
Context {L : Type} `{EqDecision L}.
Implicit Types (g : Graph.t L) (v w a b : Vertex.t L) (e : Edge.t L).

Lemma vertex_in_graph g v :
  dict_mem v (Graph._structure g) = true <-> v ∈ Graph.vertices g.
Proof. apply dict_mem_keys. Qed.

Lemma get_edge_lookup g v w :
  Graph.get_edge g v w =
  match dict_get v (Graph._structure g) with
  | Some adj => dict_get w adj
  | None => None
  end.
Proof.
  unfold Graph.get_edge, Graph.adjacency, dict_mem.
  destruct (dict_get v (Graph._structure g)) as [adj|]; simpl; [|done].
  by destruct (dict_get w adj).
Qed.

Lemma get_edge_store_edge s n n' v w e a b :
  Graph.get_edge (Graph.mk (Graph.store_edge v w e s) n) a b =
  if decide (a = v /\ b = w) then Some e
  else Graph.get_edge (Graph.mk s n') a b.
Proof.
  rewrite !get_edge_lookup. unfold Graph.store_edge. simpl.
  rewrite dict_get_set. destruct (decide (a = v)) as [->|Hav].
  - rewrite dict_get_set. destruct (decide (b = w)) as [->|Hbw].
    + by rewrite decide_True.
    + rewrite decide_False by tauto. by destruct (dict_get v s).
  - by rewrite decide_False by tauto.
Qed.

Lemma vertices_store_edge s n n' v w e :
  v ∈ dict_keys s ->
  Graph.vertices (Graph.mk (Graph.store_edge v w e s) n) =
  Graph.vertices (Graph.mk s n').
Proof. intros Hv. by apply dict_keys_set_present. Qed.

Lemma get_edge_next_id s n n' a b :
  Graph.get_edge (Graph.mk s n) a b = Graph.get_edge (Graph.mk s n') a b.
Proof. by rewrite !get_edge_lookup. Qed.

Lemma add_edge_absent g v w element oneway :
  v ∉ Graph.vertices g \/ w ∉ Graph.vertices g ->
  Graph.add_edge g v w element oneway = (g, None).
Proof.
  intros Hno. unfold Graph.add_edge.
  assert (negb (dict_mem v (Graph._structure g))
          || negb (dict_mem w (Graph._structure g)) = true) as ->; [|done].
  apply orb_true_iff. rewrite !negb_true_iff, !dict_mem_false_keys.
  exact Hno.
Qed.

Lemma add_edge_present g v w element oneway :
  v ∈ Graph.vertices g -> w ∈ Graph.vertices g ->
  let e := Edge.mk (Graph.next_id g) (v, w) element in
  exists g',
    Graph.add_edge g v w element oneway = (g', Some e) /\
    Graph.next_id g' = S (Graph.next_id g) /\
    Graph.vertices g' = Graph.vertices g /\
    forall a b,
      Graph.get_edge g' a b =
      match add_edge_mode v w oneway with
      | Some both =>
          if decide (a = v /\ b = w) then Some e
          else if decide (both = true /\ a = w /\ b = v) then Some e
          else Graph.get_edge g a b
      | None => Graph.get_edge g a b
      end.
Proof.
  intros Hv Hw e. unfold Graph.add_edge, add_edge_mode.
  apply vertex_in_graph in Hv as Hv'. apply vertex_in_graph in Hw as Hw'.
  rewrite Hv', Hw'. simpl. destruct g as [s n]. simpl in *. fold e.
  eexists. split; [reflexivity|]. split; [reflexivity|].
  destruct (is_True oneway || bool_decide (v = w)) eqn:Hone.
  - split; [by apply (vertices_store_edge s _ n)|]. intros a b.
    rewrite (get_edge_store_edge s _ n).
    destruct (decide (a = v /\ b = w)); [done|].
    by rewrite decide_False by (intros [? _]; done).
  - destruct (is_False oneway) eqn:Htwo.
    + split.
      * rewrite (vertices_store_edge _ _ n).
        -- by apply vertices_store_edge.
        -- apply dict_keys_set. by right.
      * intros a b.
        rewrite (get_edge_store_edge _ _ n), (get_edge_store_edge s _ n).
        destruct (decide (a = v /\ b = w)) as [[-> ->]|Hvw].
        -- by destruct (decide (v = w /\ w = v)).
        -- destruct (decide (a = w /\ b = v)).
           ++ by rewrite decide_True by tauto.
           ++ by rewrite decide_False by tauto.
    + split; [done|]. intros a b. done.
Qed.
End GraphFacts.

(** C7, as stated, fails: the second half holds only for a flag that is
    True or False. Between the two vertices A and B of a graph, [add_edge]
    with the flag None, and with the flag 1, returns the new edge and stores
    it in no adjacency map. *)
Lemma add_edge_flag_not_Boolean_stores_nothing :
  let g := Examples.two_vertices in
  let e := Edge.mk 2 (Examples.vA, Examples.vB) 7 in
  Examples.vA ∈ Graph.vertices g /\ Examples.vB ∈ Graph.vertices g /\
  Examples.vA <> Examples.vB /\
  forall oneway, oneway = PyNone \/ oneway = PyInt 1 ->
    exists g',
      Graph.add_edge g Examples.vA Examples.vB 7 oneway = (g', Some e) /\
      Graph._structure g' = Graph._structure g /\
      Graph.get_edges g' Examples.vA = Some [] /\
      Graph.get_edges g' Examples.vB = Some [] /\
      Graph.get_edge g' Examples.vA Examples.vB = None /\
      Graph.get_edge g' Examples.vB Examples.vA = None.
Proof.
  intros g e. split; [apply elem_of_cons; by left|].
  split; [apply elem_of_cons; right; apply elem_of_cons; by left|].
  split; [done|].
  intros oneway [->| ->]; eexists; split_and!; vm_compute; reflexivity.
Qed.

(** C7, amended. [add_edge] returns None and leaves the graph as it is when
    [v] or [w] is no vertex of the graph. Otherwise it returns the new edge
    from [v] to [w] and leaves the vertices as they are, and what it stores
    depends on the flag. When [oneway] is True or [v == w], [get_edge(v, w)]
    returns the new edge, whatever was stored before, and every other pair
    keeps its edge. When [oneway] is False and [v != w], [get_edge(v, w)]
    and [get_edge(w, v)] both return the new edge and every other pair
    keeps its edge. When [oneway] is neither True nor False and [v != w],
    the adjacency maps are the ones from before the call, so every pair
    keeps its edge and the new edge is stored nowhere. *)
Theorem add_edge_spec {L} `{EqDecision L} (g : Graph.t L)
    (v w : Vertex.t L) (element : Z) (oneway : pyobj) :
  (v ∉ Graph.vertices g \/ w ∉ Graph.vertices g ->
   Graph.add_edge g v w element oneway = (g, None)) /\
  (v ∈ Graph.vertices g -> w ∈ Graph.vertices g ->
   let e := Edge.mk (Graph.next_id g) (v, w) element in
   exists g',
     Graph.add_edge g v w element oneway = (g', Some e) /\
     Graph.vertices g' = Graph.vertices g /\
     (is_True oneway = true \/ v = w ->
      Graph.get_edge g' v w = Some e /\
      forall a b, (a, b) <> (v, w) ->
                  Graph.get_edge g' a b = Graph.get_edge g a b) /\
     (is_False oneway = true -> v <> w ->
      Graph.get_edge g' v w = Some e /\
      Graph.get_edge g' w v = Some e /\
      forall a b, (a, b) <> (v, w) -> (a, b) <> (w, v) ->
                  Graph.get_edge g' a b = Graph.get_edge g a b) /\
     (is_True oneway = false -> is_False oneway = false -> v <> w ->
      Graph._structure g' = Graph._structure g /\
      forall a b, Graph.get_edge g' a b = Graph.get_edge g a b)).
Proof.
  split.
  - apply add_edge_absent.
  - intros Hv Hw e.
    destruct (add_edge_present g v w element oneway Hv Hw)
      as (g' & Hadd & _ & Hvs & Hget).
    exists g'. split; [exact Hadd|]. split; [exact Hvs|].
    fold e in Hget. unfold add_edge_mode in Hget. split; [|split].
    + intros Hone.
      assert (is_True oneway || bool_decide (v = w) = true) as Hmode.
      { destruct Hone as [->| ->]; [done|].
        rewrite bool_decide_eq_true_2 by done. apply orb_true_r. }
      rewrite Hmode in Hget. split.
      * rewrite Hget. by rewrite decide_True.
      * intros a b Hab. rewrite Hget.
        rewrite decide_False by (intros [-> ->]; done).
        by rewrite decide_False by (intros [? _]; done).
    + intros Htwo Hne.
      assert (is_True oneway = false) as Hnot by (by destruct oneway as [[|]| |]).
      rewrite Hnot, Htwo, bool_decide_eq_false_2 in Hget by done.
      simpl in Hget. split; [|split].
      * rewrite Hget. by rewrite decide_True.
      * rewrite Hget. destruct (decide (w = v /\ v = w)); [done|].
        by rewrite decide_True.
      * intros a b Hab Hba. rewrite Hget.
        rewrite decide_False by (intros [-> ->]; done).
        by rewrite decide_False by (intros (_ & -> & ->); done).
    + intros Hnot Hnor Hne. split.
      * unfold Graph.add_edge in Hadd.
        rewrite (proj2 (vertex_in_graph g v) Hv),
          (proj2 (vertex_in_graph g w) Hw) in Hadd.
        simpl in Hadd. rewrite Hnot, Hnor, bool_decide_eq_false_2 in Hadd by done.
        simpl in Hadd. by injection Hadd as <-.
      * intros a b. rewrite Hget.
        by rewrite Hnot, Hnor, bool_decide_eq_false_2 by done.
Qed.

(** ** Label lookup in Graph and in RouteMap *)

Section LabelLookup.
Context {L C : Type} `{EqDecision L}.
Implicit Types (g : Graph.t L) (m : RouteMap.t L C) (v : Vertex.t L).

Lemma first_with_label_Some element (vs : list (Vertex.t L)) v :
  Graph.first_with_label element vs = Some v ->
  v ∈ vs /\ Vertex.element v = element.
Proof.
  induction vs as [|v0 vs IH]; simpl; [done|].
  destruct (decide (Vertex.element v0 = element)) as [Heq|].
  - intros [= <-]. split; [apply elem_of_cons; by left|done].
  - intros Hf. destruct (IH Hf) as [Hin Hel].
    split; [apply elem_of_cons; by right|done].
Qed.

Lemma first_with_label_None element (vs : list (Vertex.t L)) :
  (forall v, v ∈ vs -> Vertex.element v <> element) ->
  Graph.first_with_label element vs = None.
Proof.
  intros Hno. destruct (Graph.first_with_label element vs) as [v|] eqn:Hf;
    [|done].
  apply first_with_label_Some in Hf as [Hin Hel]. by destruct (Hno v Hin).
Qed.

Lemma graph_lookup_sound g : lookup_sound g.
Proof.
  intros l v Hl. simpl in Hl. injection Hl as Hl.
  by apply first_with_label_Some in Hl.
Qed.

Lemma add_edge_vertices g v w element oneway :
  Graph.vertices (Graph.add_edge g v w element oneway).1 = Graph.vertices g.
Proof.
  destruct (decide (v ∈ Graph.vertices g)) as [Hv|Hv];
    [destruct (decide (w ∈ Graph.vertices g)) as [Hw|Hw]|].
  - destruct (add_edge_present g v w element oneway Hv Hw)
      as (g' & -> & _ & Hvs & _). exact Hvs.
  - unfold Graph.add_edge.
    apply dict_mem_false_keys in Hw. unfold Graph.vertices in *.
    rewrite Hw. by rewrite orb_true_r.
  - unfold Graph.add_edge.
    apply dict_mem_false_keys in Hv. unfold Graph.vertices in *.
    by rewrite Hv.
Qed.

Lemma add_vertex_index_sound m element c1 c2 :
  index_sound m -> index_sound (RouteMap.add_vertex m element c1 c2).1.
Proof.
  intros IH l v. simpl. rewrite dict_get_set.
  unfold Graph.vertices. simpl. rewrite dict_keys_set.
  destruct (decide (l = element)) as [->|].
  - intros [= <-]. split; [by left|done].
  - intros Hl. destruct (IH l v Hl). split; [by right|done].
Qed.

Lemma built_index_sound m : built m -> index_sound m.
Proof.
  induction 1 as [|m element c1 c2 _ IH|m element _ IH|m v w element oneway _ IH].
  - intros l v. done.
  - by apply add_vertex_index_sound.
  - unfold RouteMap.add_vertex_if_new.
    destruct (Graph.first_with_label _ _); [done|].
    by apply add_vertex_index_sound.
  - intros l v0. unfold RouteMap.add_edge.
    pose proof (add_edge_vertices (RouteMap.graph m) v w element oneway) as Hvs.
    destruct (Graph.add_edge _ _ _ _ _) as [g' r]. simpl in *.
    rewrite Hvs. apply IH.
Qed.

Lemma route_map_lookup_sound m : built m -> lookup_sound m.
Proof.
  intros Hm l v Hl. simpl in Hl. unfold RouteMap.get_vertex_by_label in Hl.
  destruct (dict_get l (RouteMap._findvertex m)) as [v0|] eqn:Hget; [|done].
  injection Hl as ->. by apply (built_index_sound m Hm).
Qed.
End LabelLookup.

(** C10. For an element no vertex carries, [Graph.get_vertex_by_label]
    returns None, and [RouteMap.get_vertex_by_label], on a route map built
    by its own methods, raises KeyError. *)
Theorem get_vertex_by_label_miss {L C} `{EqDecision L}
    (g : Graph.t L) (m : RouteMap.t L C) (element : L) :
  ((forall v, v ∈ Graph.vertices g -> Vertex.element v <> element) ->
   Graph.get_vertex_by_label g element = None) /\
  (built m ->
   (forall v, v ∈ Graph.vertices (RouteMap.graph m) ->
              Vertex.element v <> element) ->
   RouteMap.get_vertex_by_label m element = Raise KeyError).
Proof.
  split.
  - apply first_with_label_None.
  - intros Hm Hno. unfold RouteMap.get_vertex_by_label.
    destruct (dict_get element (RouteMap._findvertex m)) as [v|] eqn:Hget;
      [|done].
    destruct (built_index_sound m Hm element v Hget) as [Hin Hel].
    by destruct (Hno v Hin).
Qed.

(** ** The edge invariant along a history of calls *)

Section EdgeInvariant.
Context {L : Type} `{EqDecision L}.
Implicit Types (g : Graph.t L) (h : history (L := L)) (e : Edge.t L).

Lemma start_history_ok : history_ok (L := L) start_history.
Proof.
  split; simpl.
  - intros v Hv. by apply elem_of_nil in Hv.
  - intros a b e. by rewrite get_edge_lookup.
  - intros e [He|He]; by apply elem_of_nil in He.
  - intros a b e. by rewrite get_edge_lookup.
  - intros e He. by apply elem_of_nil in He.
  - split; intros e He; by apply elem_of_nil in He.
Qed.

Lemma get_edge_add_vertex g element a b :
  (forall v, v ∈ Graph.vertices g -> (Vertex.id v < Graph.next_id g)%nat) ->
  Graph.get_edge (Graph.add_vertex g element).1 a b = Graph.get_edge g a b.
Proof.
  intros Hids. rewrite !get_edge_lookup. simpl. rewrite dict_get_set.
  destruct (decide (a = _)) as [->|]; [|done].
  destruct (dict_get _ (Graph._structure g)) as [adj|] eqn:Hget; [|done].
  apply dict_get_Some_keys, Hids in Hget. simpl in Hget. lia.
Qed.

Lemma step_add_vertex_ok h element :
  history_ok h -> history_ok (step h (AddVertex element)).
Proof.
  intros [Hv Hs Hl He Ht [Hb Ho]].
  assert (forall a b, Graph.get_edge (Graph.add_vertex (now h) element).1 a b
                      = Graph.get_edge (now h) a b) as Hget
    by (intros; by apply get_edge_add_vertex).
  split; simpl.
  - intros v. unfold Graph.vertices. simpl. rewrite dict_keys_set.
    intros [->|Hin]; simpl; [lia|]. specialize (Hv v Hin). lia.
  - intros a b e. rewrite Hget. intros Hin. specialize (Hs _ _ _ Hin). lia.
  - intros e Hin. specialize (Hl e Hin). lia.
  - intros a b e. rewrite Hget. apply He.
  - exact Ht.
  - split; simpl.
    + intros e Hin [a [b Hst]]. rewrite Hget in Hst.
      destruct (Hb e Hin) as [H1 H2]; [by exists a, b|].
      split; by rewrite Hget.
    + intros e Hin a b. rewrite Hget. by apply Ho.
Qed.

Lemma step_add_edge_ok h v w element oneway :
  history_ok h ->
  splits_two_way (now h) (AddEdge v w element oneway) = false ->
  history_ok (step h (AddEdge v w element oneway)).
Proof.
  intros Hok Hguard. pose proof Hok as [Hv Hs Hl He Ht [Hb Ho]].
  destruct (decide (v ∈ Graph.vertices (now h) /\ w ∈ Graph.vertices (now h)))
    as [[Hvin Hwin]|Hout].
  2: { assert (Graph.add_edge (now h) v w element oneway = (now h, None)) as Hnone.
       { apply add_edge_absent. apply not_and_l in Hout. exact Hout. }
       simpl. rewrite Hnone. by destruct h. }
  destruct (add_edge_present (now h) v w element oneway Hvin Hwin)
    as (g' & Hadd & Hnext & Hvs & Hget).
  set (e := Edge.mk (Graph.next_id (now h)) (v, w) element) in *.
  assert (forall a b e', Graph.get_edge (now h) a b = Some e' -> e' <> e) as Hold.
  { intros a b e' Hin ->. apply Hs in Hin. simpl in Hin. lia. }
  assert (forall e', e' ∈ two_way h \/ e' ∈ one_way h -> e' <> e) as Hlog.
  { intros e' Hin ->. apply Hl in Hin. simpl in Hin. lia. }
  simpl. rewrite Hadd. fold e.
  destruct (add_edge_mode v w oneway) as [[|]|] eqn:Hmode.
  - (* stored in both maps *)
    assert (v <> w) as Hvw.
    { unfold add_edge_mode in Hmode.
      destruct (is_True oneway); [done|]. simpl in Hmode.
      destruct (bool_decide (v = w)) eqn:Hd; [done|].
      by apply bool_decide_eq_false in Hd. }
    assert (forall a b e', e' <> e -> Graph.get_edge g' a b = Some e' ->
              Graph.get_edge (now h) a b = Some e' /\
              (a, b) <> (v, w) /\ (a, b) <> (w, v)) as Hback.
    { intros a b e' Hne. rewrite Hget.
      destruct (decide (a = v /\ b = w)) as [[-> ->]|]; [congruence|].
      destruct (decide (true = true /\ a = w /\ b = v)) as [(_ & -> & ->)|];
        [congruence|].
      intros Hin. split; [done|]. split; intros [= -> ->]; tauto. }
    assert (forall a b e', (a, b) <> (v, w) -> (a, b) <> (w, v) ->
              Graph.get_edge (now h) a b = Some e' ->
              Graph.get_edge g' a b = Some e') as Hfwd.
    { intros a b e' H1 H2. rewrite Hget.
      rewrite decide_False by (intros [-> ->]; done).
      by rewrite decide_False by (intros (_ & -> & ->); done). }
    split; simpl.
    + rewrite Hvs, Hnext. intros v0 Hin. specialize (Hv v0 Hin). lia.
    + rewrite Hnext. intros a b e'. destruct (decide (e' = e)) as [->|Hne].
      * simpl. lia.
      * intros Hin. apply Hback in Hin as [Hin _]; [|done].
        apply Hs in Hin. lia.
    + rewrite Hnext. intros e'. rewrite elem_of_cons.
      intros [[->|Hin]|Hin]; [simpl; lia| |].
      * specialize (Hl e' (or_introl Hin)). lia.
      * specialize (Hl e' (or_intror Hin)). lia.
    + intros a b e'. destruct (decide (e' = e)) as [->|Hne].
      * rewrite Hget.
        destruct (decide (a = v /\ b = w)) as [[-> ->]|]; [by left|].
        destruct (decide (true = true /\ a = w /\ b = v)) as [(_ & -> & ->)|];
          [by right|].
        intros Hin. by destruct (Hold _ _ _ Hin).
      * intros Hin. apply Hback in Hin as [Hin _]; [|done]. by apply He.
    + intros e'. rewrite elem_of_cons. intros [->|Hin]; [done|]. by apply Ht.
    + split; simpl.
      * intros e'. rewrite elem_of_cons. intros [->|Hin].
        -- intros _. unfold both_directions.
           change (Edge.start e) with v. change (Edge.end_ e) with w.
           split; rewrite Hget.
           ++ by rewrite decide_True.
           ++ destruct (decide (w = v /\ v = w)); [done|].
              by rewrite decide_True.
        -- intros [a [b Hst]].
           assert (e' <> e) as Hne by (apply Hlog; by left).
           apply Hback in Hst as (Hst & Hab1 & Hab2); [|done].
           destruct (Hb e' Hin) as [H1 H2]; [by exists a, b|].
           destruct (He _ _ _ Hst) as [[-> ->]|[-> ->]].
           ++ split; apply Hfwd; try done.
              ** intros [= Hx Hy]. apply Hab2. by rewrite Hx, Hy.
              ** intros [= Hx Hy]. apply Hab1. by rewrite Hx, Hy.
           ++ split; apply Hfwd; try done.
              ** intros [= Hx Hy]. apply Hab2. by rewrite Hx, Hy.
              ** intros [= Hx Hy]. apply Hab1. by rewrite Hx, Hy.
      * intros e' Hin a b Hst.
        assert (e' <> e) as Hne by (apply Hlog; by right).
        apply Hback in Hst as [Hst _]; [|done]. by apply (Ho e' Hin).
  - (* stored in the map of [v] only *)
    assert (forall a b e', e' <> e -> Graph.get_edge g' a b = Some e' ->
              Graph.get_edge (now h) a b = Some e' /\ (a, b) <> (v, w)) as Hback.
    { intros a b e' Hne. rewrite Hget.
      destruct (decide (a = v /\ b = w)) as [[-> ->]|]; [congruence|].
      rewrite decide_False by (intros [? _]; done).
      intros Hin. split; [done|]. intros [= -> ->]; tauto. }
    assert (forall a b e', (a, b) <> (v, w) ->
              Graph.get_edge (now h) a b = Some e' ->
              Graph.get_edge g' a b = Some e') as Hfwd.
    { intros a b e' H1. rewrite Hget.
      rewrite decide_False by (intros [-> ->]; done).
      by rewrite decide_False by (intros [? _]; done). }
    assert (forall e', e' ∈ two_way h ->
              Graph.get_edge (now h) v w = Some e' ->
              Graph.get_edge (now h) w v = Some e' -> False) as Hsplit.
    { intros e' Hin H1 H2. simpl in Hguard. rewrite H1 in Hguard.
      rewrite (bool_decide_eq_true_2 _ H2) in Hguard.
      unfold add_edge_mode in Hmode.
      destruct (is_True oneway); simpl in *.
      - destruct (bool_decide (v = w)) eqn:Hd; [|done].
        apply bool_decide_eq_true in Hd. subst w.
        destruct (He _ _ _ H1) as [[Hx Hy]|[Hx Hy]];
          apply (Ht e' Hin); congruence.
      - destruct (bool_decide (v = w)) eqn:Hd.
        + apply bool_decide_eq_true in Hd. subst w.
          destruct (He _ _ _ H1) as [[Hx Hy]|[Hx Hy]];
            apply (Ht e' Hin); congruence.
        + by destruct (is_False oneway). }
    split; simpl.
    + rewrite Hvs, Hnext. intros v0 Hin. specialize (Hv v0 Hin). lia.
    + rewrite Hnext. intros a b e'. destruct (decide (e' = e)) as [->|Hne].
      * simpl. lia.
      * intros Hin. apply Hback in Hin as [Hin _]; [|done].
        apply Hs in Hin. lia.
    + rewrite Hnext. intros e'. rewrite elem_of_cons.
      intros [Hin|[->|Hin]]; [|simpl; lia|].
      * specialize (Hl e' (or_introl Hin)). lia.
      * specialize (Hl e' (or_intror Hin)). lia.
    + intros a b e'. destruct (decide (e' = e)) as [->|Hne].
      * rewrite Hget.
        destruct (decide (a = v /\ b = w)) as [[-> ->]|]; [by left|].
        rewrite decide_False by (intros [? _]; done).
        intros Hin. by destruct (Hold _ _ _ Hin).
      * intros Hin. apply Hback in Hin as [Hin _]; [|done]. by apply He.
    + exact Ht.
    + split; simpl.
      * intros e' Hin [a [b Hst]].
        assert (e' <> e) as Hne by (apply Hlog; by left).
        apply Hback in Hst as [Hst Hab]; [|done].
        destruct (Hb e' Hin) as [H1 H2]; [by exists a, b|].
        split; apply Hfwd; try done.
        -- intros [= Hx Hy]. rewrite Hx, Hy in *. by apply (Hsplit e').
        -- intros [= Hx Hy]. rewrite Hx, Hy in *. by apply (Hsplit e').
      * intros e'. rewrite elem_of_cons. intros [->|Hin] a b.
        -- rewrite Hget.
           destruct (decide (a = v /\ b = w)) as [[-> ->]|]; [done|].
           rewrite decide_False by (intros [? _]; done).
           intros Hin. by destruct (Hold _ _ _ Hin).
        -- intros Hst.
           assert (e' <> e) as Hne by (apply Hlog; by right).
           apply Hback in Hst as [Hst _]; [|done]. by apply (Ho e' Hin).
  - (* stored nowhere *)
    split; simpl.
    + rewrite Hvs, Hnext. intros v0 Hin. specialize (Hv v0 Hin). lia.
    + rewrite Hnext. intros a b e'. rewrite Hget. intros Hin.
      apply Hs in Hin. lia.
    + rewrite Hnext. intros e' Hin. specialize (Hl e' Hin). lia.
    + intros a b e'. rewrite Hget. apply He.
    + exact Ht.
    + split; simpl.
      * intros e' Hin [a [b Hst]]. rewrite Hget in Hst.
        destruct (Hb e' Hin) as [H1 H2]; [by exists a, b|].
        split; by rewrite Hget.
      * intros e' Hin a b. rewrite Hget. by apply Ho.
Qed.

Lemma play_ok cs : forall h,
  history_ok h -> never_splits h cs = true -> history_ok (play h cs).
Proof.
  induction cs as [|c cs IH]; intros h Hok Hcs; simpl in *; [done|].
  apply andb_true_iff in Hcs as [Hc Hcs]. apply negb_true_iff in Hc.
  apply IH; [|done]. destruct c as [element|v w element oneway].
  - by apply step_add_vertex_ok.
  - by apply step_add_edge_ok.
Qed.
End EdgeInvariant.

(** C8, as stated, fails: after a two-way edge between A and B and a
    one-way edge from A to B, the two-way edge is still what
    [get_edge(B, A)] returns, but no longer what [get_edge(A, B)] returns. *)
Lemma edge_invariant_broken_by_one_way_readd :
  ~ edge_invariant (play start_history Examples.readd_one_way).
Proof.
  intros [Hboth _].
  destruct (Hboth (Edge.mk 2 (Examples.vA, Examples.vB) 1)) as [Hab _].
  - vm_compute. apply elem_of_cons. by left.
  - exists Examples.vB, Examples.vA. vm_compute. reflexivity.
  - vm_compute in Hab. discriminate.
Qed.

(** C8, amended. After every sequence of [add_vertex] and [add_edge] calls
    in which no one-way [add_edge(v, w)] is made while [get_edge(v, w)] and
    [get_edge(w, v)] return one and the same edge: every edge added two-way
    that is still stored is what [get_edge] returns in both directions, and
    every edge added one-way, or from a vertex to itself, is returned by
    [get_edge] from its start to its end only. *)
Theorem edge_invariant_kept {L} `{EqDecision L} (cs : list (call (L := L))) :
  never_splits start_history cs = true ->
  edge_invariant (play start_history cs).
Proof.
  intros Hcs. apply ok_edges, play_ok; [apply start_history_ok|done].
Qed.

Lemma edge_invariant_kept_witness :
  never_splits start_history Examples.mixed_edges = true /\
  edge_invariant (play start_history Examples.mixed_edges).
Proof.
  split; [reflexivity|].
  apply (edge_invariant_kept Examples.mixed_edges). reflexivity.
Defined.

(** ** Reading the queue *)

Section QueueReads.
Context {L : Type}.
Implicit Types (q : APQ.t L) (h a b : APQ.handle) (e : APQ.Element L).

Lemma py_index_nat (n p : nat) : (p < n)%nat -> py_index n (Z.of_nat p) = Some p.
Proof.
  intros Hp. unfold py_index.
  destruct (Z.leb_spec 0 (Z.of_nat p)); [|lia].
  destruct (Z.ltb_spec (Z.of_nat p) (Z.of_nat n)); [|lia].
  by rewrite Nat2Z.id.
Qed.

Lemma queue_getitem_nat q (p : nat) h :
  APQ._queue q !! p = Some h -> APQ.queue_getitem (Z.of_nat p) q = (q, Ok h).
Proof.
  intros Hp. unfold APQ.queue_getitem, py_getitem.
  rewrite py_index_nat by (by eapply lookup_lt_Some). by rewrite Hp.
Qed.

Lemma entry_at_Some q (p : nat) e :
  entry_at q p = Some e <->
  exists h, APQ._queue q !! p = Some h /\ APQ.objects q !! h = Some e.
Proof.
  unfold entry_at. destruct (APQ._queue q !! p) as [h|].
  - split; [eauto|]. by intros (h' & [= <-] & Hh).
  - split; [done|]. by intros (h' & ? & _).
Qed.

Lemma entry_at_lt q (p : nat) e :
  entry_at q p = Some e -> (p < length (APQ._queue q))%nat.
Proof.
  intros (h & Hq & _)%entry_at_Some. by eapply lookup_lt_Some.
Qed.

Lemma key_of_live q h e :
  APQ.objects q !! h = Some e -> APQ.key_of h q = (q, Ok (APQ._key e)).
Proof. intros He. unfold APQ.key_of, APQ.deref, bind. by rewrite He. Qed.

Lemma elem_lt_live q a b ea eb :
  APQ.objects q !! a = Some ea -> APQ.objects q !! b = Some eb ->
  APQ.elem_lt a b q = (q, Ok (APQ._key ea <? APQ._key eb)).
Proof.
  intros Ha Hb. unfold APQ.elem_lt, bind.
  by rewrite (key_of_live _ _ _ Ha), (key_of_live _ _ _ Hb).
Qed.

Lemma queue_lt_entries q (i j : nat) ei ej :
  entry_at q i = Some ei -> entry_at q j = Some ej ->
  APQ.queue_lt (Z.of_nat i) (Z.of_nat j) q
  = (q, Ok (APQ._key ei <? APQ._key ej)).
Proof.
  intros (a & Ha & Hea)%entry_at_Some (b & Hb & Heb)%entry_at_Some.
  unfold APQ.queue_lt, bind.
  rewrite (queue_getitem_nat _ _ _ Ha), (queue_getitem_nat _ _ _ Hb).
  by apply elem_lt_live.
Qed.

(** [min_leaf] on a position with a left child: the left child when there
    is no right child, else a child whose key is smallest, the right one
    when both keys are equal. *)
Lemma min_leaf_child q (i : nat) :
  handles_live q ->
  (2 * i + 1 < length (APQ._queue q))%nat ->
  exists (m : nat) child,
    APQ.min_leaf (Z.of_nat i) q = (q, Ok (Z.of_nat m)) /\
    entry_at q m = Some child /\
    (m = 2 * i + 1 \/ m = 2 * i + 2)%nat /\
    ((length (APQ._queue q) <= 2 * i + 2)%nat -> m = (2 * i + 1)%nat) /\
    (forall e, entry_at q (2 * i + 1) = Some e -> APQ._key child <= APQ._key e) /\
    (forall e, entry_at q (2 * i + 2) = Some e ->
               APQ._key child <= APQ._key e /\
               (m = (2 * i + 1)%nat -> APQ._key child < APQ._key e)).
Proof.
  intros Hlive Hleft.
  destruct (Hlive (2 * i + 1)%nat Hleft) as [left Hl].
  unfold APQ.min_leaf, APQ.len_queue, bind.
  replace (2 * Z.of_nat i + 1) with (Z.of_nat (2 * i + 1)) by lia.
  replace (2 * Z.of_nat i + 2) with (Z.of_nat (2 * i + 2)) by lia.
  destruct (Z.gtb_spec (Z.of_nat (2 * i + 2)) (Z.of_nat (length (APQ._queue q)) - 1))
    as [Hnone|Hright].
  - exists (2 * i + 1)%nat, left.
    split_and!; [done|done|by left|done| |].
    + intros e He. rewrite Hl in He. injection He as ->. lia.
    + intros e He. apply entry_at_lt in He. lia.
  - destruct (Hlive (2 * i + 2)%nat) as [right Hr]; [lia|].
    rewrite (queue_lt_entries _ _ _ _ _ Hl Hr).
    destruct (Z.ltb_spec (APQ._key left) (APQ._key right)) as [Hlt|Hge].
    + exists (2 * i + 1)%nat, left.
      split_and!; [done|done|by left|done| |].
      * intros e He. rewrite Hl in He. injection He as ->. lia.
      * intros e He. rewrite Hr in He. injection He as ->. lia.
    + exists (2 * i + 2)%nat, right.
      split_and!; [done|done|by right|lia| |].
      * intros e He. rewrite Hl in He. injection He as ->. lia.
      * intros e He. rewrite Hr in He. injection He as ->. lia.
Qed.
End QueueReads.

(** ** Rules for [stable] and [triple] *)

Section Rules.
Context {S : Type}.
Implicit Types (P : S -> Prop).

Lemma bind_ret {A B} (a : A) (k : A -> M S B) : bind (ret a) k = k a.
Proof. reflexivity. Qed.

Lemma bind_raise {A B} e (k : A -> M S B) : bind (raise e) k = raise e.
Proof. reflexivity. Qed.

Lemma stable_ret {A} P (a : A) : stable P (ret a).
Proof. by intros s Hs. Qed.

Lemma stable_raise {A} P e : stable P (raise (A := A) e).
Proof. by intros s Hs. Qed.

Lemma stable_out_of_fuel {A} P : stable P (out_of_fuel (A := A)).
Proof. by intros s Hs. Qed.

Lemma stable_bind {A B} P (c : M S A) (k : A -> M S B) :
  stable P c -> (forall a, stable P (k a)) -> stable P (bind c k).
Proof.
  intros Hc Hk s Hs. unfold bind. specialize (Hc s Hs).
  destruct (c s) as [s' [a| |]]; simpl in *; [by apply Hk|done..].
Qed.

Lemma stable_if {A} P (b : bool) (c1 c2 : M S A) :
  stable P c1 -> stable P c2 -> stable P (if b then c1 else c2).
Proof. by destruct b. Qed.

Lemma stable_read {A} P (f : S -> outcome A) : stable P (fun s => (s, f s)).
Proof. by intros s Hs. Qed.

Lemma stable_triple {A} P (c : M S A) : stable P c -> triple P c (fun _ => P).
Proof.
  intros Hc s Hs. specialize (Hc s Hs). by destruct (c s) as [s' [a| |]].
Qed.

Lemma triple_ret {A} P (a : A) : triple P (ret a) (fun x s => x = a /\ P s).
Proof. by intros s Hs. Qed.

Lemma triple_bind {A B} P (c : M S A) (k : A -> M S B) Q R :
  triple P c Q -> (forall a, triple (Q a) (k a) R) -> triple P (bind c k) R.
Proof.
  intros Hc Hk s Hs. unfold bind. specialize (Hc s Hs).
  destruct (c s) as [s' [a| |]]; [by apply Hk|done..].
Qed.

Lemma triple_weaken {A} P P' (c : M S A) (Q Q' : A -> S -> Prop) :
  triple P' c Q' -> (forall s, P s -> P' s) ->
  (forall a s, Q' a s -> Q a s) -> triple P c Q.
Proof.
  intros Hc HP HQ s Hs. specialize (Hc s (HP s Hs)).
  destruct (c s) as [s' [a| |]]; [by apply HQ|done..].
Qed.

Lemma triple_pure {A} (phi : Prop) P (c : M S A) Q :
  (phi -> triple P c Q) -> triple (fun s => phi /\ P s) c Q.
Proof. intros Hc s [Hphi Hs]. by apply Hc. Qed.

Lemma triple_for_each {A} P (xs : list A) (body : A -> M S unit) :
  (forall x, x ∈ xs -> triple P (body x) (fun _ => P)) ->
  triple P (for_each xs body) (fun _ => P).
Proof.
  induction xs as [|x xs IH]; intros Hbody; simpl.
  - by intros s Hs.
  - eapply triple_bind.
    + apply Hbody, elem_of_cons. by left.
    + intros u. apply IH. intros y Hy. apply Hbody, elem_of_cons. by right.
Qed.
End Rules.

(** ** The queue operations never change the value of an Element *)

Create HintDb stable discriminated.

#[global] Hint Resolve stable_ret stable_raise stable_out_of_fuel stable_read
  : stable.

(** Splits a computation at its binds and conditionals, closing the steps
    the hint database knows. *)
Ltac stable_steps :=
  repeat first
    [ solve [auto 4 with stable nocore]
    | apply stable_bind; [|intros ?]
    | apply stable_if ].

Section QueueValues.
Context {L : Type} (R : L -> Prop).
Implicit Types (q : APQ.t L) (h : APQ.handle).

Lemma stable_len_queue : stable (objects_all R) APQ.len_queue.
Proof. by intros q Hq. Qed.

Lemma stable_queue_getitem i : stable (objects_all R) (APQ.queue_getitem i).
Proof.
  intros q Hq. unfold APQ.queue_getitem. by destruct (py_getitem _ _).
Qed.

Lemma stable_queue_setitem i h : stable (objects_all R) (APQ.queue_setitem i h).
Proof.
  intros q Hq. unfold APQ.queue_setitem. by destruct (py_setitem _ _ _).
Qed.

Lemma stable_queue_pop : stable (objects_all R) APQ.queue_pop.
Proof. intros q Hq. unfold APQ.queue_pop. by destruct (last _). Qed.

Lemma stable_deref h : stable (objects_all R) (APQ.deref h).
Proof. intros q Hq. unfold APQ.deref. by destruct (_ !! _). Qed.

Lemma objects_all_insert q h e e' :
  objects_all R q -> APQ.objects q !! h = Some e ->
  APQ._value e' = APQ._value e ->
  objects_all R (APQ.mkAPQ (<[h := e']> (APQ.objects q)) (APQ._queue q)).
Proof.
  intros Hq He Hv h0 e0. simpl.
  destruct (decide (h0 = h)) as [->|Hne].
  - rewrite list_lookup_insert_eq by (by eapply lookup_lt_Some).
    intros [= <-]. rewrite Hv. by eapply Hq.
  - rewrite list_lookup_insert_ne by done. apply Hq.
Qed.

Lemma stable_set_index h i : stable (objects_all R) (APQ.set_index h i).
Proof.
  intros q Hq. unfold APQ.set_index, APQ.deref, bind, modify.
  destruct (APQ.objects q !! h) as [e|] eqn:He; simpl; [|done].
  by eapply objects_all_insert.
Qed.

Lemma stable_set_key h k : stable (objects_all R) (APQ.set_key h k).
Proof.
  intros q Hq. unfold APQ.set_key, APQ.deref, bind, modify.
  destruct (APQ.objects q !! h) as [e|] eqn:He; simpl; [|done].
  by eapply objects_all_insert.
Qed.

Local Hint Resolve stable_len_queue stable_queue_getitem
  stable_queue_setitem stable_queue_pop stable_deref stable_set_index
  stable_set_key : stable.

Lemma stable_key_of h : stable (objects_all R) (APQ.key_of h).
Proof. unfold APQ.key_of. stable_steps. Qed.

Lemma stable_index_of h : stable (objects_all R) (APQ.index_of h).
Proof. unfold APQ.index_of. stable_steps. Qed.

Local Hint Resolve stable_key_of stable_index_of : stable.

Lemma stable_elem_lt a b : stable (objects_all R) (APQ.elem_lt a b).
Proof. unfold APQ.elem_lt. stable_steps. Qed.

Local Hint Resolve stable_elem_lt : stable.

Lemma stable_queue_lt i j : stable (objects_all R) (APQ.queue_lt i j).
Proof. unfold APQ.queue_lt. stable_steps. Qed.

Lemma stable_swap_entries i j : stable (objects_all R) (APQ.swap_entries i j).
Proof. unfold APQ.swap_entries. stable_steps. Qed.

Local Hint Resolve stable_queue_lt stable_swap_entries : stable.

Lemma stable_min_leaf i : stable (objects_all R) (APQ.min_leaf i).
Proof. unfold APQ.min_leaf. stable_steps. Qed.

Local Hint Resolve stable_min_leaf : stable.

Lemma stable_bubble_down_loop fuel : forall index,
  stable (objects_all R) (APQ.bubble_down_loop fuel index).
Proof.
  induction fuel as [|fuel IH]; intros index; simpl; stable_steps.
Qed.

Lemma stable_bubble_up_loop fuel : forall index,
  stable (objects_all R) (APQ.bubble_up_loop fuel index).
Proof.
  induction fuel as [|fuel IH]; intros index; simpl; stable_steps.
Qed.

Local Hint Resolve stable_bubble_down_loop stable_bubble_up_loop : stable.

Lemma stable_bubble_down index : stable (objects_all R) (APQ.bubble_down index).
Proof. unfold APQ.bubble_down. stable_steps. Qed.

Lemma stable_bubble_up index : stable (objects_all R) (APQ.bubble_up index).
Proof. unfold APQ.bubble_up. stable_steps. Qed.

Local Hint Resolve stable_bubble_down stable_bubble_up : stable.

Lemma stable_add key item : R item -> stable (objects_all R) (APQ.add key item).
Proof.
  intros Hitem. unfold APQ.add.
  apply stable_bind; [apply stable_len_queue|intros i].
  apply stable_bind; [|intros h].
  { intros q Hq h e. simpl. intros He.
    apply lookup_app_Some in He as [He|[_ He]]; [by eapply Hq|].
    destruct (h - length (APQ.objects q))%nat; [|done].
    by injection He as <-. }
  apply stable_bind; [by intros q Hq|intros _].
  stable_steps.
Qed.

Lemma stable_remove_min : stable (objects_all R) APQ.remove_min.
Proof. unfold APQ.remove_min. stable_steps. Qed.

Lemma stable_update_key h newkey :
  stable (objects_all R) (APQ.update_key h newkey).
Proof. unfold APQ.update_key. stable_steps. Qed.

Lemma triple_value_of h :
  triple (objects_all R) (APQ.value_of h) (fun v q => R v /\ objects_all R q).
Proof.
  intros q Hq. unfold APQ.value_of, APQ.deref, bind.
  destruct (APQ.objects q !! h) as [e|] eqn:He; simpl; [|done].
  split; [by eapply Hq|done].
Qed.
End QueueValues.

(** ** The invariant of the search *)

Section SearchInvariant.
Context {L G : Type} `{EqDecision L} `{GraphLike L G}.
Context (graph : G) (R : L -> Prop) (B : dict L (Z * option L) -> Prop).
Hypothesis R_edge :
  forall vert v es e w,
    R vert -> lookup_label graph vert = Ok (Some v) ->
    Graph.get_edges (as_graph graph) v = Some es -> e ∈ es ->
    Edge.opposite e v = Some w -> R (Vertex._element w).
Hypothesis B_set : forall c l x, R l -> B c -> B (dict_set l x c).

Abbreviation Inv := (frame_inv R B).

Lemma stable_on_open {A} (c : M (APQ.t L) A) :
  stable (objects_all R) c -> stable Inv (on_open c).
Proof.
  intros Hc f [Ho Hb]. unfold on_open. specialize (Hc (open f) Ho).
  destruct (c (open f)) as [q r]. by split.
Qed.

Lemma stable_set_locs k v : stable Inv (set_locs k v).
Proof. by intros f [Ho Hb]. Qed.

Lemma stable_set_preds k v : stable Inv (set_preds k v).
Proof. by intros f [Ho Hb]. Qed.

Lemma stable_set_closed k v : R k -> stable Inv (set_closed k v).
Proof. intros Hk f [Ho Hb]. split; [done|]. by apply B_set. Qed.

Lemma stable_pop_locs k : stable Inv (pop_locs k).
Proof. intros f [Ho Hb]. unfold pop_locs. by destruct (dict_get _ _). Qed.

Lemma stable_pop_preds k : stable Inv (pop_preds k).
Proof. intros f [Ho Hb]. unfold pop_preds. by destruct (dict_get _ _). Qed.

Lemma stable_in_closed k : stable Inv (in_closed k).
Proof. by intros f Hf. Qed.

Lemma stable_in_locs k : stable Inv (in_locs k).
Proof. by intros f Hf. Qed.

Lemma stable_get : stable Inv get.
Proof. by intros f Hf. Qed.

Local Hint Resolve stable_on_open stable_set_locs stable_set_preds
  stable_set_closed stable_pop_locs stable_pop_preds stable_in_closed
  stable_in_locs stable_get stable_key_of stable_update_key stable_add
  stable_remove_min : stable.

Lemma stable_locs_key k : stable Inv (locs_key k).
Proof.
  unfold locs_key. apply stable_bind; [stable_steps|intros f].
  destruct (dict_get k (locs f)) as [[z|h]|]; stable_steps.
Qed.

Lemma stable_locs_update_key k newkey : stable Inv (locs_update_key k newkey).
Proof.
  unfold locs_update_key. apply stable_bind; [stable_steps|intros f].
  destruct (dict_get k (locs f)) as [[z|h]|]; stable_steps.
Qed.

Local Hint Resolve stable_locs_key stable_locs_update_key : stable.

Lemma stable_relax min vert v es edge :
  R vert -> lookup_label graph vert = Ok (Some v) ->
  Graph.get_edges (as_graph graph) v = Some es -> edge ∈ es ->
  stable Inv (relax min vert v edge).
Proof.
  intros Hvert Hv Hes Hedge. unfold relax.
  destruct (Edge.opposite edge v) as [w|] eqn:Hw; simpl.
  - assert (R (Vertex._element w)) as Hw' by eauto.
    rewrite bind_ret. stable_steps.
  - rewrite bind_raise. stable_steps.
Qed.

Lemma triple_close_min :
  triple Inv close_min (fun closing f => R closing.2 /\ Inv f).
Proof.
  unfold close_min.
  eapply triple_bind; [apply stable_triple; stable_steps|intros min; simpl].
  apply (triple_bind _ _ _ (fun vert f => R vert /\ Inv f)).
  { intros f [Ho Hb]. unfold on_open.
    pose proof (triple_value_of R min (open f) Ho) as Hval.
    destruct (APQ.value_of min (open f)) as [q [vert| |]]; [|done..].
    destruct Hval as [Hvert Hq]. exact (conj Hvert (conj Hq Hb)). }
  intros vert. apply triple_pure. intros Hvert.
  eapply triple_bind; [apply stable_triple; stable_steps|intros loc; simpl].
  eapply triple_bind; [apply stable_triple; stable_steps|intros pred; simpl].
  eapply triple_bind; [apply stable_triple; stable_steps|intros k; simpl].
  eapply triple_bind; [apply stable_triple; stable_steps|intros u; simpl].
  by intros f Hf.
Qed.

Lemma triple_scan_edges min vert :
  R vert -> triple Inv (scan_edges graph min vert) (fun _ => Inv).
Proof.
  intros Hvert f Hf. unfold scan_edges, bind.
  destruct (lookup_label graph vert) as [[v|]| |] eqn:Hv; [|done..].
  destruct (Graph.get_edges (as_graph graph) v) as [es|] eqn:Hes; [|done].
  apply (triple_for_each Inv); [|done].
  intros edge Hedge. by eapply stable_triple, stable_relax.
Qed.

Lemma triple_visit : triple Inv (visit graph) (fun _ => Inv).
Proof.
  unfold visit. eapply triple_bind; [apply triple_close_min|].
  intros [min vert] f [Hvert Hf]. by apply triple_scan_edges.
Qed.

Lemma triple_dijkstra_loop fuel :
  triple Inv (dijkstra_loop fuel graph) (fun _ => Inv).
Proof.
  induction fuel as [|fuel IH]; simpl; [by intros f Hf|].
  eapply triple_bind; [apply stable_triple; stable_steps|intros n; simpl].
  destruct (n >? 0); [|by intros f Hf].
  eapply triple_bind; [apply triple_visit|intros u; apply IH].
Qed.
End SearchInvariant.

(** ** What [dijkstra] puts in the closed table *)

Section ClosedTable.
Context {L G : Type} `{EqDecision L} `{GraphLike L G}.
Implicit Types (graph : G) (s l : L) (closed : dict L (Z * option L)).

(** The frame when the while loop is first reached. *)
Lemma dijkstra_body_loop fuel graph s :
  dijkstra_body fuel graph s (dijkstra_start s) =
  dijkstra_loop fuel graph
    (mkFrame (APQ.mkAPQ [APQ.mkElement 0 s 0] [0%nat])
             [(s, LocInt 0)] [] [(s, None)]).
Proof. reflexivity. Qed.

(** Every label in the closed table can be reached from the source. *)
Lemma dijkstra_closed_reachable fuel graph s closed :
  lookup_sound graph -> dijkstra fuel graph s = Ok closed ->
  forall l, dict_mem l closed = true -> reachable (as_graph graph) s l.
Proof.
  intros Hsound Hd.
  set (R := reachable (as_graph graph) s).
  set (B := fun c : dict L (Z * option L) =>
              forall l, dict_mem l c = true -> R l).
  assert (triple (frame_inv R B) (dijkstra_loop fuel graph)
                 (fun _ => frame_inv R B)) as Hloop.
  { apply triple_dijkstra_loop.
    - intros vert v es e w Hvert Hv Hes He Hw.
      destruct (Hsound vert v Hv) as [Hin Hel].
      eapply rtc_r; [exact Hvert|]. by exists v, es, e, w.
    - intros c k x Hk Hc l. rewrite dict_mem_set.
      destruct (decide (l = k)) as [->|Hne]; [done|].
      rewrite bool_decide_eq_false_2 by done. apply Hc. }
  unfold dijkstra in Hd. rewrite dijkstra_body_loop in Hd.
  match type of Hd with context [dijkstra_loop fuel graph ?f] =>
    specialize (Hloop f) end.
  destruct (dijkstra_loop fuel graph _) as [f [u| |]]; [|done..].
  injection Hd as <-. apply Hloop. split.
  - intros [|h] e; simpl; [|done]. intros [= <-]. apply rtc_refl.
  - intros l. done.
Qed.

(** The first round closes the source label. *)
Lemma close_min_first s :
  close_min (mkFrame (APQ.mkAPQ [APQ.mkElement 0 s 0] [0%nat])
                     [(s, LocInt 0)] [] [(s, None)]) =
  (mkFrame (APQ.mkAPQ [APQ.mkElement 0 s 0] []) [] [(s, (0, None))] [],
   Ok (0%nat, s)).
Proof.
  unfold close_min, bind. simpl.
  unfold pop_locs. simpl. rewrite !decide_True by done. simpl.
  unfold pop_preds. simpl. rewrite !decide_True by done. reflexivity.
Qed.

(** The source label is in the closed table. *)
Lemma dijkstra_source_closed fuel graph s closed :
  dijkstra fuel graph s = Ok closed -> dict_mem s closed = true.
Proof.
  intros Hd.
  set (R := fun _ : L => True).
  set (B := fun c : dict L (Z * option L) => dict_mem s c = true).
  assert (forall c k x, R k -> B c -> B (dict_set k x c)) as HB.
  { intros c k x _ Hc. unfold B. rewrite dict_mem_set, Hc.
    apply orb_true_r. }
  assert (forall vert v es e w,
            R vert -> lookup_label graph vert = Ok (Some v) ->
            Graph.get_edges (as_graph graph) v = Some es -> e ∈ es ->
            Edge.opposite e v = Some w -> R (Vertex._element w)) as HR
    by done.
  unfold dijkstra in Hd. rewrite dijkstra_body_loop in Hd.
  destruct fuel as [|fuel]; [done|]. simpl in Hd.
  unfold bind in Hd at 1. simpl in Hd.
  unfold bind in Hd at 1. unfold visit in Hd. unfold bind in Hd at 1.
  rewrite close_min_first in Hd. simpl in Hd.
  match type of Hd with context [scan_edges graph 0%nat s ?f] =>
    pose proof (triple_scan_edges graph R B HR 0%nat s I f) as Hscan
  end.
  destruct (scan_edges graph 0%nat s _) as [f [u| |]]; [|done..].
  pose proof (triple_dijkstra_loop graph R B HR HB fuel f) as Hloop.
  destruct (dijkstra_loop fuel graph f) as [f' [u'| |]]; [|done..].
  injection Hd as <-. apply Hloop, Hscan. split; [done|].
  unfold B. simpl. unfold dict_mem. simpl. by rewrite decide_True.
Qed.
End ClosedTable.

(** ** The queue operations on a well-formed queue *)

Section QueueSteps.
Context {L : Type}.
Implicit Types (q : APQ.t L) (h a b : APQ.handle) (e : APQ.Element L).

Lemma py_index_Some n i p :
  py_index n i = Some p ->
  (p < n)%nat /\ (i = Z.of_nat p \/ i = Z.of_nat p - Z.of_nat n).
Proof.
  unfold py_index.
  destruct (Z.leb_spec 0 i).
  - destruct (Z.ltb_spec i (Z.of_nat n)); [|done]. intros [= <-]. lia.
  - destruct (Z.leb_spec 0 (Z.of_nat n + i)); [|done]. intros [= <-]. lia.
Qed.

Lemma py_index_neg (n p : nat) :
  (p < n)%nat -> py_index n (Z.of_nat p - Z.of_nat n) = Some p.
Proof.
  intros Hp. unfold py_index.
  destruct (Z.leb_spec 0 (Z.of_nat p - Z.of_nat n)); [lia|].
  destruct (Z.leb_spec 0 (Z.of_nat n + (Z.of_nat p - Z.of_nat n))); [|lia].
  f_equal. lia.
Qed.

Lemma queue_getitem_at q i p h :
  py_index (length (APQ._queue q)) i = Some p ->
  APQ._queue q !! p = Some h ->
  APQ.queue_getitem i q = (q, Ok h).
Proof.
  intros Hi Hp. unfold APQ.queue_getitem, py_getitem. by rewrite Hi, Hp.
Qed.

Lemma queue_setitem_at q i p h :
  py_index (length (APQ._queue q)) i = Some p ->
  APQ.queue_setitem i h q
  = (APQ.mkAPQ (APQ.objects q) (<[p := h]> (APQ._queue q)), Ok tt).
Proof. intros Hi. unfold APQ.queue_setitem, py_setitem. by rewrite Hi. Qed.

Lemma set_index_live q h e i :
  APQ.objects q !! h = Some e ->
  APQ.set_index h i q
  = (APQ.mkAPQ (<[h := APQ.mkElement (APQ._key e) (APQ._value e) i]> (APQ.objects q))
               (APQ._queue q), Ok tt).
Proof. intros He. unfold APQ.set_index, APQ.deref, bind, modify. by rewrite He. Qed.

Lemma set_key_live q h e k :
  APQ.objects q !! h = Some e ->
  APQ.set_key h k q
  = (APQ.mkAPQ (<[h := APQ.mkElement k (APQ._value e) (APQ._index e)]> (APQ.objects q))
               (APQ._queue q), Ok tt).
Proof. intros He. unfold APQ.set_key, APQ.deref, bind, modify. by rewrite He. Qed.

Lemma index_of_live q h e :
  APQ.objects q !! h = Some e -> APQ.index_of h q = (q, Ok (APQ._index e)).
Proof. intros He. unfold APQ.index_of, APQ.deref, bind. by rewrite He. Qed.

Lemma value_of_live q h e :
  APQ.objects q !! h = Some e -> APQ.value_of h q = (q, Ok (APQ._value e)).
Proof. intros He. unfold APQ.value_of, APQ.deref, bind. by rewrite He. Qed.

Lemma reordered_refl q : reordered q q.
Proof. by repeat split. Qed.

Lemma reordered_trans q1 q2 q3 :
  reordered q1 q2 -> reordered q2 q3 -> reordered q1 q3.
Proof.
  intros [[Hl1 Hv1] [Hn1 Hm1]] [[Hl2 Hv2] [Hn2 Hm2]]. repeat split.
  - congruence.
  - intros h. by rewrite Hv2, Hv1.
  - congruence.
  - by rewrite Hm2, Hm1.
  - by rewrite Hm2, Hm1.
Qed.

(** The state after the three statements of a swap. *)
Lemma swap_entries_at q i j p1 p2 a b ea eb :
  py_index (length (APQ._queue q)) i = Some p1 ->
  py_index (length (APQ._queue q)) j = Some p2 ->
  APQ._queue q !! p1 = Some a -> APQ._queue q !! p2 = Some b ->
  APQ.objects q !! a = Some ea -> APQ.objects q !! b = Some eb ->
  exists eb',
    (<[a := APQ.mkElement (APQ._key ea) (APQ._value ea) j]> (APQ.objects q)) !! b
      = Some eb' /\
    APQ.swap_entries i j q =
    (APQ.mkAPQ
       (<[b := APQ.mkElement (APQ._key eb') (APQ._value eb') i]>
          (<[a := APQ.mkElement (APQ._key ea) (APQ._value ea) j]> (APQ.objects q)))
       (<[p2 := a]> (<[p1 := b]> (APQ._queue q))), Ok tt).
Proof.
  intros Hi Hj Ha Hb Hea Heb.
  assert (exists eb', (<[a := APQ.mkElement (APQ._key ea) (APQ._value ea) j]>
                         (APQ.objects q)) !! b = Some eb') as [eb' Heb'].
  { apply lookup_lt_is_Some. rewrite length_insert. by eapply lookup_lt_Some. }
  exists eb'. split; [done|].
  unfold APQ.swap_entries.
  unfold bind at 1. rewrite (queue_getitem_at _ _ _ _ Hi Ha).
  unfold bind at 1. rewrite (set_index_live _ _ _ _ Hea).
  unfold bind at 1. rewrite (queue_getitem_at _ j p2 b) by done.
  unfold bind at 1. rewrite (set_index_live _ b eb' i) by done.
  unfold bind at 1. rewrite (queue_getitem_at _ j p2 b) by done.
  unfold bind at 1. rewrite (queue_getitem_at _ i p1 a) by done.
  unfold bind at 1. rewrite (queue_setitem_at _ i p1) by done.
  rewrite (queue_setitem_at _ j p2) by (simpl; by rewrite length_insert).
  reflexivity.
Qed.
End QueueSteps.

Section QueueSwap.
Context {L : Type}.
Implicit Types (q : APQ.t L) (h a b : APQ.handle) (e : APQ.Element L).

Lemma insert_same_value (O : list (APQ.Element L)) h e e' h' :
  O !! h = Some e -> APQ._value e' = APQ._value e ->
  (APQ._value <$> <[h := e']> O !! h') = (APQ._value <$> O !! h').
Proof.
  intros He Hv. destruct (decide (h = h')) as [<-|Hne].
  - rewrite list_lookup_insert_eq by (by eapply lookup_lt_Some).
    rewrite He. simpl. by rewrite Hv.
  - by rewrite list_lookup_insert_ne.
Qed.


Lemma transpose_involutive p1 p2 x : transpose p1 p2 (transpose p1 p2 x) = x.
Proof. unfold transpose. repeat case_decide; congruence. Qed.

Lemma lookup_swapped (Q : list APQ.handle) p1 p2 a b x :
  Q !! p1 = Some a -> Q !! p2 = Some b ->
  <[p2 := a]> (<[p1 := b]> Q) !! x = Q !! transpose p1 p2 x.
Proof.
  intros H1 H2. unfold transpose.
  apply lookup_lt_Some in H1 as Hp1. apply lookup_lt_Some in H2 as Hp2.
  destruct (decide (x = p2)) as [->|Hx2].
  - by rewrite list_lookup_insert_eq by (by rewrite length_insert).
  - rewrite list_lookup_insert_ne by done.
    destruct (decide (x = p1)) as [->|Hx1].
    + by rewrite list_lookup_insert_eq.
    + by rewrite list_lookup_insert_ne.
Qed.

Lemma swap_entries_ok q i j p1 p2 :
  queue_wf q ->
  py_index (length (APQ._queue q)) i = Some p1 ->
  py_index (length (APQ._queue q)) j = Some p2 ->
  (i = Z.of_nat p1 \/ i = -1) -> (j = Z.of_nat p2 \/ j = -1) ->
  exists q', APQ.swap_entries i j q = (q', Ok tt) /\
             queue_wf q' /\ reordered q q' /\
             forall x, APQ._queue q' !! x = APQ._queue q !! transpose p1 p2 x.
Proof.
  intros [Hnd Hwf] Hi Hj Hival Hjval.
  destruct (py_index_Some _ _ _ Hi) as [Hp1 _].
  destruct (py_index_Some _ _ _ Hj) as [Hp2 _].
  destruct (lookup_lt_is_Some_2 _ _ Hp1) as [a Ha].
  destruct (lookup_lt_is_Some_2 _ _ Hp2) as [b Hb].
  destruct (Hwf _ _ Ha) as (ea & Hea & _).
  destruct (Hwf _ _ Hb) as (eb & Heb & _).
  destruct (swap_entries_at q i j p1 p2 a b ea eb Hi Hj Ha Hb Hea Heb)
    as (eb' & Heb' & Hswap).
  eexists. split; [exact Hswap|].
  set (O1 := <[a := APQ.mkElement (APQ._key ea) (APQ._value ea) j]> (APQ.objects q)) in *.
  set (O2 := <[b := APQ.mkElement (APQ._key eb') (APQ._value eb') i]> O1).
  assert (forall h, (APQ._value <$> O2 !! h) = (APQ._value <$> APQ.objects q !! h))
    as Hvals.
  { intros h. unfold O2. rewrite (insert_same_value O1 b eb') by done.
    unfold O1. by rewrite (insert_same_value _ a ea). }
  assert (O2 !! b = Some (APQ.mkElement (APQ._key eb') (APQ._value eb') i)) as HO2b.
  { unfold O2. apply list_lookup_insert_eq. by eapply lookup_lt_Some. }
  assert (a <> b -> O2 !! a = Some (APQ.mkElement (APQ._key ea) (APQ._value ea) j))
    as HO2a.
  { intros Hab. unfold O2. rewrite list_lookup_insert_ne by done.
    unfold O1. apply list_lookup_insert_eq. by eapply lookup_lt_Some. }
  assert (forall h, h <> a -> h <> b -> O2 !! h = APQ.objects q !! h) as HO2.
  { intros h H1 H2. unfold O2, O1. by rewrite !list_lookup_insert_ne. }
  assert (forall x y h, APQ._queue q !! x = Some h -> APQ._queue q !! y = Some h ->
                        x = y) as Hinj.
  { intros x y h. by apply NoDup_alt. }
  pose proof (fun x => lookup_swapped (APQ._queue q) p1 p2 a b x Ha Hb) as Hlk.
  split; [split|split; [|exact Hlk]]; simpl.
  - apply NoDup_alt. intros x y h. rewrite !Hlk. intros Hx Hy.
    rewrite <- (transpose_involutive p1 p2 x), <- (transpose_involutive p1 p2 y).
    f_equal. by eapply Hinj.
  - intros x h. rewrite Hlk. unfold transpose.
    destruct (decide (x = p2)) as [->|Hx2].
    + rewrite Ha. intros [= <-]. destruct (decide (a = b)) as [->|Hab].
      * eexists. split; [exact HO2b|]. simpl.
        assert (p1 = p2) as -> by (by eapply Hinj). done.
      * eexists. split; [by apply HO2a|]. done.
    + destruct (decide (x = p1)) as [->|Hx1].
      * rewrite Hb. intros [= <-]. eexists. split; [exact HO2b|]. done.
      * intros Hx. rewrite HO2; [by apply Hwf| |].
        -- intros ->. apply Hx1. by eapply Hinj.
        -- intros ->. apply Hx2. by eapply Hinj.
  - split; [split|split]; simpl.
    + unfold O2, O1. by rewrite !length_insert.
    + exact Hvals.
    + by rewrite !length_insert.
    + intros h. rewrite !list_elem_of_lookup. split.
      * intros [x Hx]. rewrite Hlk in Hx. eauto.
      * intros [x Hx]. exists (transpose p1 p2 x).
        by rewrite Hlk, transpose_involutive.
Qed.
End QueueSwap.

(** ** A round of bubble-down *)

(** C9, as stated, fails: in a valid heap whose root and only child both
    have key 1, [bubble_down(0)] does not stop but swaps the two entries. *)
Lemma bubble_down_swaps_equal_keys :
  let q := Examples.equal_keys in
  heap_ordered q = true /\ indices_valid q = true /\
  (APQ._key <$> entry_at q 0) = Some 1 /\
  (APQ._key <$> entry_at q 1) = Some 1 /\
  APQ.min_leaf 0 q = (q, Ok 1) /\
  APQ._queue q = [0%nat; 1%nat] /\
  exists q', APQ.bubble_down 0 q = (q', Ok tt) /\
             APQ._queue q' = [1%nat; 0%nat].
Proof. repeat split. eexists. split; vm_compute; reflexivity. Qed.

(** C9, amended. In a round of bubble-down at a position with a child, the
    entry is compared against its single child when there is no right
    child. When there are two children it is compared against the left one
    if the left key is strictly less than the right key, and against the
    right one otherwise, so against the right one when the two keys are
    equal; the chosen child has a smallest key of the two. The descent stops
    when the entry's key is strictly less than that child's key; when it is
    greater or equal, also when the two keys are equal, the two entries
    change places, each with its [_index] set to its new position, and the
    descent goes on from the child's position. *)
Theorem bubble_down_round {L} (q : APQ.t L) (i fuel : nat)
    (parent : APQ.Element L) :
  handles_live q -> NoDup (APQ._queue q) ->
  entry_at q i = Some parent ->
  (2 * i + 1 < length (APQ._queue q))%nat ->
  exists (m : nat) (child : APQ.Element L),
    APQ.min_leaf (Z.of_nat i) q = (q, Ok (Z.of_nat m)) /\
    entry_at q m = Some child /\
    ((length (APQ._queue q) <= 2 * i + 2)%nat -> m = (2 * i + 1)%nat) /\
    ((2 * i + 2 < length (APQ._queue q))%nat ->
     (m = 2 * i + 1 \/ m = 2 * i + 2)%nat /\
     (forall p e, (p = 2 * i + 1 \/ p = 2 * i + 2)%nat ->
                  entry_at q p = Some e -> APQ._key child <= APQ._key e) /\
     exists left right,
       entry_at q (2 * i + 1) = Some left /\
       entry_at q (2 * i + 2) = Some right /\
       (APQ._key left < APQ._key right -> m = (2 * i + 1)%nat) /\
       (APQ._key right <= APQ._key left -> m = (2 * i + 2)%nat)) /\
    (APQ._key parent < APQ._key child ->
     APQ.bubble_down_loop (S fuel) (Z.of_nat i) q = (q, Ok tt)) /\
    (APQ._key child <= APQ._key parent ->
     exists q',
       APQ.swap_entries (Z.of_nat i) (Z.of_nat m) q = (q', Ok tt) /\
       entry_at q' i
       = Some (APQ.mkElement (APQ._key child) (APQ._value child) (Z.of_nat i)) /\
       entry_at q' m
       = Some (APQ.mkElement (APQ._key parent) (APQ._value parent) (Z.of_nat m)) /\
       APQ.bubble_down_loop (S fuel) (Z.of_nat i) q
       = APQ.bubble_down_loop fuel (Z.of_nat m) q').
Proof.
  intros Hlive Hnd Hparent Hleft.
  destruct (min_leaf_child q i Hlive Hleft)
    as (m & child & Hmin & Hchild & Hm & Hsingle & Hl & Hr).
  exists m, child. split; [exact Hmin|]. split; [exact Hchild|].
  split; [exact Hsingle|]. split.
  { intros Htwo. split; [exact Hm|]. split.
    { intros p e [->| ->] He.
      - by apply Hl.
      - by apply Hr. }
    destruct (Hlive (2 * i + 1)%nat Hleft) as [left Hleft'].
    destruct (Hlive (2 * i + 2)%nat Htwo) as [right Hright'].
    exists left, right. split; [exact Hleft'|]. split; [exact Hright'|].
    split.
    - intros Hlt. destruct Hm as [Hm|Hm]; [exact Hm|]. subst m.
      rewrite Hright' in Hchild. injection Hchild as <-.
      specialize (Hl left Hleft'). lia.
    - intros Hge. destruct Hm as [Hm|Hm]; [|exact Hm]. subst m.
      rewrite Hleft' in Hchild. injection Hchild as <-.
      destruct (Hr right Hright') as [_ Hstrict].
      specialize (Hstrict eq_refl). lia. }
  apply entry_at_Some in Hparent as Hp. destruct Hp as (a & Ha & Hea).
  apply entry_at_Some in Hchild as Hc. destruct Hc as (b & Hb & Heb).
  assert (APQ.bubble_down_loop (S fuel) (Z.of_nat i) q =
          if APQ._key parent <? APQ._key child then (q, Ok tt)
          else bind (APQ.swap_entries (Z.of_nat i) (Z.of_nat m))
                    (fun _ => APQ.bubble_down_loop fuel (Z.of_nat m)) q) as Hround.
  { simpl. unfold bind at 1. unfold APQ.len_queue at 1.
    destruct (Z.ltb_spec (2 * Z.of_nat i + 1) (Z.of_nat (length (APQ._queue q))));
      [|lia].
    unfold bind at 1. rewrite (queue_getitem_nat _ _ _ Ha).
    unfold bind at 1. rewrite Hmin.
    unfold bind at 1. rewrite (queue_getitem_nat _ _ _ Hb).
    unfold bind at 1. rewrite (elem_lt_live _ _ _ _ _ Hea Heb).
    destruct (APQ._key parent <? APQ._key child); [done|].
    unfold bind at 1. by rewrite Hmin. }
  split.
  - intros Hlt. rewrite Hround.
    by destruct (Z.ltb_spec (APQ._key parent) (APQ._key child)); [|lia].
  - intros Hge.
    apply lookup_lt_Some in Ha as Hlta. apply lookup_lt_Some in Hb as Hltb.
    assert (i <> m) as Him by lia.
    assert (a <> b) as Hab.
    { intros ->. apply Him. eapply NoDup_alt; eauto. }
    destruct (swap_entries_at q (Z.of_nat i) (Z.of_nat m) i m a b parent child)
      as (eb' & Heb' & Hswap); [by apply py_index_nat..|done|done|done|done|].
    rewrite list_lookup_insert_ne in Heb' by done.
    unfold APQ.handle in *. rewrite Heb in Heb'. injection Heb' as <-.
    eexists. split; [exact Hswap|]. split; [|split].
    + unfold entry_at. simpl.
      rewrite list_lookup_insert_ne by done.
      rewrite list_lookup_insert_eq by done.
      apply list_lookup_insert_eq. rewrite length_insert.
      by eapply lookup_lt_Some.
    + unfold entry_at. simpl.
      rewrite list_lookup_insert_eq by (by rewrite length_insert).
      rewrite list_lookup_insert_ne by done.
      apply list_lookup_insert_eq. by eapply lookup_lt_Some.
    + rewrite Hround.
      destruct (Z.ltb_spec (APQ._key parent) (APQ._key child)); [lia|].
      unfold bind. by rewrite Hswap.
Qed.

Lemma bubble_down_round_witness :
  let q := Examples.three_equal_keys in
  handles_live q /\ NoDup (APQ._queue q) /\
  entry_at q 0 = Some (APQ.mkElement 1 "a" 0) /\
  entry_at q 1 = Some (APQ.mkElement 1 "b" 1) /\
  entry_at q 2 = Some (APQ.mkElement 1 "c" 2) /\
  APQ.min_leaf 0 q = (q, Ok 2) /\
  exists q',
    APQ.swap_entries 0 2 q = (q', Ok tt) /\
    entry_at q' 0 = Some (APQ.mkElement 1 "c" 0) /\
    entry_at q' 2 = Some (APQ.mkElement 1 "a" 2) /\
    APQ.bubble_down_loop 2 0 q = APQ.bubble_down_loop 1 2 q'.
Proof.
  intros q.
  assert (handles_live q) as Hlive.
  { intros p Hp. destruct p as [|[|[|p]]]; [by eexists..|].
    vm_compute in Hp. lia. }
  assert (NoDup (APQ._queue q)) as Hnd.
  { vm_compute. apply NoDup_ListNoDup. repeat constructor; simpl; lia. }
  split; [exact Hlive|]. split; [exact Hnd|].
  split; [reflexivity|]. split; [reflexivity|]. split; [reflexivity|].
  destruct (bubble_down_round q 0 1 (APQ.mkElement 1 "a" 0))
    as (m & child & Hmin & Hchild & _ & Htwo & _ & Hswap).
  - exact Hlive.
  - exact Hnd.
  - reflexivity.
  - vm_compute. lia.
  - destruct Htwo as (_ & _ & left & right & Hl & Hr & _ & Htie);
      [vm_compute; lia|].
    vm_compute in Hl, Hr. injection Hl as <-. injection Hr as <-.
    assert (m = 2%nat) as -> by (apply Htie; simpl; lia).
    vm_compute in Hchild. injection Hchild as <-.
    split; [exact Hmin|]. apply Hswap. simpl. lia.
Defined.

Section QueueLoops.
Context {L : Type}.
Implicit Types (q : APQ.t L) (h a b : APQ.handle) (e : APQ.Element L).

Lemma queue_wf_live q : queue_wf q -> handles_live q.
Proof.
  intros [_ Hwf] p Hp. destruct (lookup_lt_is_Some_2 _ _ Hp) as [h Hh].
  destruct (Hwf _ _ Hh) as (e & He & _). exists e.
  apply entry_at_Some. eauto.
Qed.

Lemma queue_lt_at q i j p1 p2 a b ea eb :
  py_index (length (APQ._queue q)) i = Some p1 ->
  py_index (length (APQ._queue q)) j = Some p2 ->
  APQ._queue q !! p1 = Some a -> APQ._queue q !! p2 = Some b ->
  APQ.objects q !! a = Some ea -> APQ.objects q !! b = Some eb ->
  APQ.queue_lt i j q = (q, Ok (APQ._key ea <? APQ._key eb)).
Proof.
  intros Hi Hj Ha Hb Hea Heb. unfold APQ.queue_lt, bind.
  rewrite (queue_getitem_at _ _ _ _ Hi Ha), (queue_getitem_at _ _ _ _ Hj Hb).
  by apply elem_lt_live.
Qed.

Lemma py_index_range n i :
  -1 <= i < Z.of_nat n -> (1 <= n)%nat ->
  exists p, py_index n i = Some p /\ (i = Z.of_nat p \/ i = -1).
Proof.
  intros Hi Hn. destruct (decide (i = -1)) as [->|Hne].
  - exists (n - 1)%nat. split; [|by right].
    replace (-1) with (Z.of_nat (n - 1) - Z.of_nat n) by lia.
    apply py_index_neg. lia.
  - exists (Z.to_nat i). split; [|left; lia].
    replace i with (Z.of_nat (Z.to_nat i)) at 1 by lia.
    apply py_index_nat. lia.
Qed.

Lemma bubble_up_loop_ok fuel : forall index q,
  queue_wf q ->
  -1 <= index < Z.of_nat (length (APQ._queue q)) ->
  (1 <= length (APQ._queue q))%nat ->
  index + 2 <= Z.of_nat fuel ->
  exists q', APQ.bubble_up_loop fuel index q = (q', Ok tt) /\
             queue_wf q' /\ reordered q q'.
Proof.
  induction fuel as [|fuel IH]; intros index q Hwf Hindex Hlen Hfuel; [lia|].
  simpl.
  assert (-1 <= (index - 1) / 2 < Z.of_nat (length (APQ._queue q))) as Hparent.
  { pose proof (Z.div_mod (index - 1) 2 ltac:(lia)).
    pose proof (Z.mod_pos_bound (index - 1) 2 ltac:(lia)). lia. }
  destruct (py_index_range _ _ Hindex Hlen) as (p1 & Hp1 & Hv1).
  destruct (py_index_range _ _ Hparent Hlen) as (p2 & Hp2 & Hv2).
  destruct (py_index_Some _ _ _ Hp1) as [Hlt1 _].
  destruct (py_index_Some _ _ _ Hp2) as [Hlt2 _].
  destruct (lookup_lt_is_Some_2 _ _ Hlt1) as [a Ha].
  destruct (lookup_lt_is_Some_2 _ _ Hlt2) as [b Hb].
  destruct Hwf as [Hnd Hobj].
  destruct (Hobj _ _ Ha) as (ea & Hea & _).
  destruct (Hobj _ _ Hb) as (eb & Heb & _).
  unfold bind at 1.
  rewrite (queue_lt_at q _ _ p1 p2 a b ea eb) by done.
  destruct (Z.ltb_spec (APQ._key ea) (APQ._key eb)) as [Hlt|Hge].
  2: { eexists. split; [reflexivity|]. split; [by split|apply reordered_refl]. }
  assert (index <> -1) as Hne.
  { intros ->. change ((-1 - 1) / 2) with (-1) in *.
    assert (p1 = p2) as -> by congruence.
    assert (a = b) as -> by congruence.
    assert (ea = eb) as -> by congruence. lia. }
  destruct (swap_entries_ok q index ((index - 1) / 2) p1 p2)
    as (q1 & Hswap & Hwf1 & Hre1 & _); [by split|done..|].
  unfold bind. rewrite Hswap.
  destruct Hre1 as (Hv & Hl & Hm).
  destruct (IH ((index - 1) / 2) q1) as (q2 & Hloop & Hwf2 & Hre2).
  - done.
  - by rewrite Hl.
  - by rewrite Hl.
  - pose proof (Z.div_mod (index - 1) 2 ltac:(lia)).
    pose proof (Z.mod_pos_bound (index - 1) 2 ltac:(lia)). lia.
  - exists q2. split; [done|]. split; [done|].
    eapply reordered_trans; [|exact Hre2]. done.
Qed.

Lemma bubble_down_loop_ok fuel : forall index q,
  queue_wf q -> 0 <= index -> (0 < fuel)%nat ->
  Z.of_nat (length (APQ._queue q)) - index < Z.of_nat fuel ->
  exists q', APQ.bubble_down_loop fuel index q = (q', Ok tt) /\
             queue_wf q' /\ reordered q q'.
Proof.
  induction fuel as [|fuel IH]; intros index q Hwf Hindex Hpos Hfuel; [lia|].
  simpl. unfold bind at 1. unfold APQ.len_queue at 1.
  destruct (Z.ltb_spec (2 * index + 1) (Z.of_nat (length (APQ._queue q))))
    as [Hchild|Hleaf].
  2: { eexists. split; [reflexivity|]. split; [done|apply reordered_refl]. }
  assert (exists i : nat, index = Z.of_nat i) as [i ->]
    by (exists (Z.to_nat index); lia).
  assert (2 * i + 1 < length (APQ._queue q))%nat as Hleft by lia.
  pose proof (queue_wf_live q Hwf) as Hlive.
  destruct (Hlive i) as [parent Hparent]; [lia|].
  destruct (min_leaf_child q i Hlive Hleft)
    as (m & child & Hmin & Hchildm & Hm & _).
  apply entry_at_Some in Hparent as Hp. destruct Hp as (a & Ha & Hea).
  apply entry_at_Some in Hchildm as Hc. destruct Hc as (b & Hb & Heb).
  unfold bind at 1. rewrite (queue_getitem_nat _ _ _ Ha).
  unfold bind at 1. rewrite Hmin.
  unfold bind at 1. rewrite (queue_getitem_nat _ _ _ Hb).
  unfold bind at 1. rewrite (elem_lt_live _ _ _ _ _ Hea Heb).
  destruct (APQ._key parent <? APQ._key child).
  { eexists. split; [reflexivity|]. split; [done|apply reordered_refl]. }
  unfold bind at 1. rewrite Hmin.
  apply lookup_lt_Some in Ha as Hlta. apply lookup_lt_Some in Hb as Hltb.
  destruct (swap_entries_ok q (Z.of_nat i) (Z.of_nat m) i m)
    as (q1 & Hswap & Hwf1 & Hre1 & _);
    [done|by apply py_index_nat..|by left|by left|].
  unfold bind. rewrite Hswap.
  destruct Hre1 as (Hv & Hl & Hmem).
  destruct (IH (Z.of_nat m) q1) as (q2 & Hloop & Hwf2 & Hre2).
  - done.
  - lia.
  - lia.
  - rewrite Hl. lia.
  - exists q2. split; [done|]. split; [done|].
    eapply reordered_trans; [|exact Hre2]. done.
Qed.

Lemma bubble_down_ok q :
  queue_wf q ->
  exists q', APQ.bubble_down 0 q = (q', Ok tt) /\ queue_wf q' /\ reordered q q'.
Proof.
  intros Hwf. unfold APQ.bubble_down, bind, APQ.len_queue.
  apply bubble_down_loop_ok; [done|lia|lia|lia].
Qed.

Lemma bubble_up_ok q index :
  queue_wf q ->
  -1 <= index < Z.of_nat (length (APQ._queue q)) ->
  exists q', APQ.bubble_up index q = (q', Ok tt) /\ queue_wf q' /\ reordered q q'.
Proof.
  intros Hwf Hindex. unfold APQ.bubble_up.
  destruct (Z.gtb_spec index 0).
  - unfold bind, APQ.len_queue. apply bubble_up_loop_ok; [done|done|lia|lia].
  - eexists. split; [reflexivity|]. split; [done|apply reordered_refl].
Qed.
End QueueLoops.

Section QueueOps.
Context {L : Type}.
Implicit Types (q : APQ.t L) (h a b : APQ.handle) (e : APQ.Element L).

Lemma same_values_refl q : same_values q q.
Proof. by split. Qed.

Lemma same_values_trans q1 q2 q3 :
  same_values q1 q2 -> same_values q2 q3 -> same_values q1 q3.
Proof.
  intros [Hl1 Hv1] [Hl2 Hv2]. split; [congruence|].
  intros h. by rewrite Hv2, Hv1.
Qed.

Lemma py_index_last (n : nat) i :
  (1 <= n)%nat -> i = -1 \/ i = Z.of_nat n - 1 ->
  py_index n i = Some (n - 1)%nat.
Proof.
  intros Hn [->| ->].
  - replace (-1) with (Z.of_nat (n - 1) - Z.of_nat n) by lia.
    apply py_index_neg. lia.
  - replace (Z.of_nat n - 1) with (Z.of_nat (n - 1)) by lia.
    apply py_index_nat. lia.
Qed.

(** [remove_min] begins with a swap of the first and the last entry. *)
Lemma remove_min_swap q :
  queue_wf q -> (1 <= length (APQ._queue q))%nat ->
  APQ.remove_min q =
  bind (APQ.swap_entries 0 (Z.of_nat (length (APQ._queue q)) - 1))
       (fun _ => bind APQ.queue_pop
                      (fun removed => bind (APQ.bubble_down 0)
                                           (fun _ => ret removed))) q.
Proof.
  intros [Hnd Hwf] Hlen.
  set (n := length (APQ._queue q)) in *.
  destruct (lookup_lt_is_Some_2 (APQ._queue q) 0%nat ltac:(lia)) as [a Ha].
  destruct (lookup_lt_is_Some_2 (APQ._queue q) (n - 1)%nat ltac:(lia)) as [b Hb].
  destruct (Hwf _ _ Ha) as (ea & Hea & _).
  destruct (Hwf _ _ Hb) as (eb & Heb & _).
  assert (py_index n 0 = Some 0%nat) as Hi0 by (by apply (py_index_nat n 0)).
  assert (py_index n (Z.of_nat n - 1) = Some (n - 1)%nat) as Hil
    by (apply py_index_last; [done|by right]).
  assert (py_index n (-1) = Some (n - 1)%nat) as Him
    by (apply py_index_last; [done|by left]).
  destruct (swap_entries_at q 0 (Z.of_nat n - 1) 0 (n - 1) a b ea eb)
    as (eb' & Heb' & Hswap); [done..|].
  unfold bind at 1. rewrite Hswap.
  unfold APQ.remove_min.
  unfold bind at 1. unfold APQ.len_queue at 1.
  unfold bind at 1. rewrite (queue_getitem_at _ 0 0%nat a) by done.
  unfold bind at 1. rewrite (set_index_live _ _ _ _ Hea).
  unfold bind at 1. unfold APQ.len_queue at 1. simpl APQ._queue.
  unfold bind at 1. rewrite (queue_getitem_at _ _ (n - 1)%nat b) by done.
  unfold bind at 1. rewrite (set_index_live _ b eb' 0) by done.
  unfold bind at 1. rewrite (queue_getitem_at _ (-1) (n - 1)%nat b) by done.
  unfold bind at 1. rewrite (queue_getitem_at _ 0 0%nat a) by done.
  unfold bind at 1. rewrite (queue_setitem_at _ 0 0%nat) by done.
  unfold bind at 1.
  rewrite (queue_setitem_at _ (-1) (n - 1)%nat)
    by (simpl; by rewrite length_insert).
  reflexivity.
Qed.

Lemma remove_min_ok q :
  queue_wf q -> (1 <= length (APQ._queue q))%nat ->
  exists h q',
    APQ.remove_min q = (q', Ok h) /\ queue_wf q' /\ same_values q q' /\
    (h ∉ APQ._queue q') /\
    forall h', h' ∈ APQ._queue q <-> h' = h \/ h' ∈ APQ._queue q'.
Proof.
  intros Hwf Hlen. rewrite remove_min_swap by done.
  set (n := length (APQ._queue q)) in *.
  destruct (swap_entries_ok q 0 (Z.of_nat n - 1) 0 (n - 1))
    as (q1 & Hswap & [Hnd1 Hwf1] & (Hv1 & Hl1 & Hm1) & Hlk1).
  { done. }
  { by apply (py_index_nat n 0). }
  { apply py_index_last; [done|by right]. }
  { by left. }
  { left. lia. }
  unfold bind at 1. rewrite Hswap.
  destruct (lookup_lt_is_Some_2 (APQ._queue q) 0%nat ltac:(lia)) as [a Ha].
  assert (last (APQ._queue q1) = Some a) as Hlast.
  { rewrite last_lookup, Hl1, Hlk1. fold n.
    replace (Init.Nat.pred n) with (n - 1)%nat by lia.
    unfold transpose. by rewrite decide_True by done. }
  apply last_Some in Hlast as [l' Hl'].
  unfold bind at 1. unfold APQ.queue_pop. rewrite Hl'.
  rewrite last_snoc, List.removelast_last.
  rewrite Hl' in Hnd1. apply NoDup_app in Hnd1 as (Hndl & Hal & _).
  set (q2 := APQ.mkAPQ (APQ.objects q1) l').
  assert (queue_wf q2) as Hwf2.
  { split; [done|]. intros p h Hp. apply Hwf1. rewrite Hl'.
    by apply lookup_app_l_Some. }
  destruct (bubble_down_ok q2 Hwf2) as (q3 & Hdown & Hwf3 & (Hv3 & Hl3 & Hm3)).
  unfold bind. rewrite Hdown. exists a, q3.
  split; [reflexivity|]. split; [done|]. split.
  { eapply same_values_trans; [exact Hv1|]. exact Hv3. }
  split.
  - rewrite Hm3. simpl. intros Hin. apply (Hal a Hin). apply list_elem_of_singleton.
    done.
  - intros h'. rewrite <- Hm1, Hl', elem_of_app, list_elem_of_singleton, Hm3.
    simpl. tauto.
Qed.

Lemma add_ok q key item :
  queue_wf q ->
  exists q',
    APQ.add key item q = (q', Ok (length (APQ.objects q))) /\ queue_wf q' /\
    length (APQ.objects q') = S (length (APQ.objects q)) /\
    (forall h, (h < length (APQ.objects q))%nat ->
               (APQ._value <$> APQ.objects q' !! h)
               = (APQ._value <$> APQ.objects q !! h)) /\
    (APQ._value <$> APQ.objects q' !! length (APQ.objects q)) = Some item /\
    forall h, h ∈ APQ._queue q' <-> h ∈ APQ._queue q \/ h = length (APQ.objects q).
Proof.
  intros [Hnd Hwf].
  set (hn := length (APQ.objects q)).
  set (n := length (APQ._queue q)).
  set (q1 := APQ.mkAPQ (APQ.objects q ++ [APQ.mkElement key item (Z.of_nat n)])
                       (APQ._queue q ++ [hn])).
  assert (forall h, h ∈ APQ._queue q -> (h < hn)%nat) as Hold.
  { intros h [p Hp]%list_elem_of_lookup. destruct (Hwf _ _ Hp) as (e & He & _).
    by eapply lookup_lt_Some. }
  assert (queue_wf q1) as Hwf1.
  { split; simpl.
    - apply NoDup_app. split; [done|]. split; [|apply NoDup_singleton].
      intros h Hh Hin. apply list_elem_of_singleton in Hin. subst h.
      apply Hold in Hh. lia.
    - intros p h Hp. apply lookup_app_Some in Hp as [Hp|[Hge Hp]].
      + destruct (Hwf _ _ Hp) as (e & He & Hi). exists e.
        split; [by apply lookup_app_l_Some|done].
      + destruct (p - length (APQ._queue q))%nat eqn:Hd; [|done].
        injection Hp as <-. eexists. split.
        * rewrite lookup_app_r by done. unfold hn. by rewrite Nat.sub_diag.
        * left. simpl. unfold n. lia. }
  destruct (bubble_up_ok q1 (Z.of_nat n) Hwf1) as (q2 & Hup & Hwf2 & (Hv2 & Hl2 & Hm2)).
  { simpl. rewrite length_app. simpl. unfold n. lia. }
  exists q2. split.
  { unfold APQ.add. unfold bind at 1. unfold APQ.len_queue at 1.
    unfold bind at 1. unfold bind at 1. unfold modify.
    cbn [APQ.objects APQ._queue]. fold hn n q1. unfold bind. by rewrite Hup. }
  split; [done|]. destruct Hv2 as [Hlen2 Hval2]. split.
  { rewrite Hlen2. simpl. rewrite length_app. simpl. lia. }
  split.
  { intros h Hh. rewrite Hval2. simpl. by rewrite lookup_app_l by done. }
  split.
  { rewrite Hval2. simpl. rewrite lookup_app_r by done.
    by rewrite Nat.sub_diag. }
  intros h. rewrite Hm2. simpl. rewrite elem_of_app, list_elem_of_singleton.
  done.
Qed.

Lemma update_key_ok q h e newkey :
  queue_wf q -> h ∈ APQ._queue q ->
  APQ.objects q !! h = Some e -> APQ._key e > newkey ->
  exists q', APQ.update_key h newkey q = (q', Ok tt) /\
             queue_wf q' /\ reordered q q'.
Proof.
  intros [Hnd Hwf] Hin He Hkey.
  apply list_elem_of_lookup in Hin as [p Hp].
  destruct (Hwf _ _ Hp) as (e0 & He0 & Hidx).
  assert (e0 = e) as -> by congruence.
  set (q1 := APQ.mkAPQ
               (<[h := APQ.mkElement newkey (APQ._value e) (APQ._index e)]>
                  (APQ.objects q)) (APQ._queue q)).
  assert (APQ.objects q1 !! h
          = Some (APQ.mkElement newkey (APQ._value e) (APQ._index e))) as He1.
  { simpl. apply list_lookup_insert_eq. by eapply lookup_lt_Some. }
  assert (queue_wf q1) as Hwf1.
  { split; [done|]. intros p' h' Hp'. simpl.
    destruct (decide (h' = h)) as [->|Hne].
    - eexists. split; [exact He1|]. simpl.
      assert (p' = p) as -> by (eapply NoDup_alt; eauto). done.
    - rewrite list_lookup_insert_ne by done. by apply Hwf. }
  assert (reordered q q1) as Hre1.
  { split; [split|split]; simpl; [by rewrite length_insert| |done|done].
    intros h'. by apply (insert_same_value _ h e). }
  destruct (bubble_up_ok q1 (APQ._index e) Hwf1) as (q2 & Hup & Hwf2 & Hre2).
  { simpl. apply lookup_lt_Some in Hp. lia. }
  exists q2. split.
  { unfold APQ.update_key. unfold bind at 1. rewrite (key_of_live _ _ _ He).
    destruct (Z.gtb_spec (APQ._key e) newkey); [|lia].
    unfold bind at 1. rewrite (set_key_live _ _ _ _ He). fold q1.
    unfold bind. by rewrite (index_of_live _ _ _ He1). }
  split; [done|]. by eapply reordered_trans.
Qed.
End QueueOps.

(** ** More on dictionaries *)

Section DictMore.
Context {K V : Type} `{EqDecision K}.
Implicit Types (d : dict K V) (k : K) (v : V).

Lemma dict_keys_set_new k v d :
  k ∉ dict_keys d -> dict_keys (dict_set k v d) = dict_keys d ++ [k].
Proof.
  unfold dict_keys. induction d as [|[k0 v0] d IH]; simpl; [done|].
  rewrite not_elem_of_cons. intros [Hne Hk].
  rewrite decide_False by done. simpl. f_equal. by apply IH.
Qed.

Lemma dict_set_NoDup k v d :
  NoDup (dict_keys d) -> NoDup (dict_keys (dict_set k v d)).
Proof.
  intros Hd. destruct (decide (k ∈ dict_keys d)) as [Hin|Hout].
  - by rewrite dict_keys_set_present.
  - rewrite dict_keys_set_new by done. apply NoDup_app.
    split; [done|]. split; [|apply NoDup_singleton].
    intros x Hx Hk. apply list_elem_of_singleton in Hk. by subst.
Qed.

Lemma dict_set_length_new k v d :
  dict_get k d = None -> length (dict_set k v d) = S (length d).
Proof.
  induction d as [|[k0 v0] d IH]; simpl; [done|].
  destruct (decide (k = k0)); [done|]. intros Hd. simpl. by rewrite IH.
Qed.

Lemma dict_get_del_ne k k' d :
  k <> k' -> dict_get k (dict_del k' d) = dict_get k d.
Proof.
  intros Hne. induction d as [|[k0 v0] d IH]; simpl; [done|].
  destruct (decide (k' = k0)) as [->|Hne'].
  - by rewrite decide_False.
  - simpl. by rewrite IH.
Qed.

Lemma dict_keys_del k d x : x ∈ dict_keys (dict_del k d) -> x ∈ dict_keys d.
Proof.
  unfold dict_keys. induction d as [|[k0 v0] d IH]; simpl; [done|].
  destruct (decide (k = k0)); simpl; rewrite !elem_of_cons; tauto.
Qed.

Lemma dict_del_NoDup k d :
  NoDup (dict_keys d) -> NoDup (dict_keys (dict_del k d)).
Proof.
  unfold dict_keys. induction d as [|[k0 v0] d IH]; simpl; [done|].
  rewrite NoDup_cons. intros [Hk0 Hd].
  destruct (decide (k = k0)); simpl; [done|].
  apply NoDup_cons. split; [|by apply IH].
  intros Hin. apply Hk0. by eapply (dict_keys_del k).
Qed.

Lemma dict_get_del_eq k d :
  NoDup (dict_keys d) -> dict_get k (dict_del k d) = None.
Proof.
  unfold dict_keys. induction d as [|[k0 v0] d IH]; simpl; [done|].
  rewrite NoDup_cons. intros [Hk0 Hd].
  destruct (decide (k = k0)) as [->|Hne]; simpl.
  - by apply dict_get_None_keys.
  - rewrite decide_False by done. by apply IH.
Qed.

Lemma dict_length_bound d (B : list K) :
  NoDup (dict_keys d) -> (forall k, dict_mem k d = true -> k ∈ B) ->
  (length d <= length B)%nat.
Proof.
  intros Hnd Hsub.
  replace (length d) with (length (dict_keys d))
    by (unfold dict_keys; apply length_map).
  apply submseteq_length, NoDup_submseteq; [done|].
  intros k Hk. by apply Hsub, dict_mem_keys.
Qed.
End DictMore.

(** ** The search returns *)

Section SearchTotal.
Context {L G : Type} `{EqDecision L} `{GraphLike L G}.
Context (graph : G) (bound : list L).
Hypothesis bound_edges :
  forall l, l ∈ edge_labels (as_graph graph) -> l ∈ bound.
Hypothesis lookup_ok :
  forall l, l ∈ bound -> exists ov, lookup_label graph l = Ok ov.
Hypothesis incident :
  forall v es e, Graph.get_edges (as_graph graph) v = Some es -> e ∈ es ->
                 is_Some (Edge.opposite e v).

Lemma opposite_label v es e w :
  Graph.get_edges (as_graph graph) v = Some es -> e ∈ es ->
  Edge.opposite e v = Some w -> Vertex._element w ∈ bound.
Proof.
  intros Hes He Hw. apply bound_edges. unfold edge_labels.
  apply list_elem_of_In, in_flat_map. exists v. split.
  - apply list_elem_of_In, dict_mem_keys. unfold Graph.get_edges in Hes.
    by destruct (dict_mem v _).
  - rewrite Hes. apply in_flat_map. exists e.
    split; [by apply list_elem_of_In|].
    unfold Edge.opposite, Edge.start, Edge.end_ in *.
    repeat case_decide; simplify_eq; simpl; tauto.
Qed.

Lemma relax_ok min vert v es edge f em :
  frame_wf bound f ->
  APQ.objects (open f) !! min = Some em ->
  Graph.get_edges (as_graph graph) v = Some es -> edge ∈ es ->
  exists f', relax min vert v edge f = (f', Ok tt) /\ frame_wf bound f' /\
             closed f' = closed f /\
             (length (APQ.objects (open f)) <= length (APQ.objects (open f')))%nat.
Proof.
  intros Hf Hmin Hes Hedge.
  destruct (incident v es edge Hes Hedge) as [w Hw].
  pose proof (opposite_label v es edge w Hes Hedge Hw) as Hbound.
  destruct f as [q lcs cls prs]. destruct Hf as [Hq Hlk Hck Hh Hl Hoc Hc].
  simpl in *.
  unfold relax. rewrite Hw. simpl. rewrite bind_ret.
  set (o := Vertex._element w) in *.
  unfold bind at 1. unfold in_closed at 1. simpl.
  destruct (dict_mem o cls) eqn:Hclosed; simpl.
  { eexists. split; [reflexivity|]. split; [by split|]. by split. }
  unfold bind at 1. unfold on_open at 1. simpl.
  rewrite (key_of_live _ _ _ Hmin).
  unfold bind at 1. unfold in_locs at 1. simpl.
  destruct (dict_mem o lcs) eqn:Hlocs; simpl.
  - (* the label is in the queue already *)
    unfold dict_mem in Hlocs.
    destruct (dict_get o lcs) as [x|] eqn:Hget; [|done].
    destruct (Hl o x Hget) as (h & -> & Hin & Hval).
    destruct (APQ.objects q !! h) as [e|] eqn:He; [|done].
    unfold bind at 1. unfold locs_key. unfold bind at 1. unfold get at 1.
    simpl. rewrite Hget. unfold on_open at 1. simpl.
    rewrite (key_of_live _ _ _ He).
    destruct (Z.gtb_spec (APQ._key e) (APQ._key em + Edge._element edge)) as [Hgt|Hle].
    2: { eexists. split; [reflexivity|]. split; [by split|]. by split. }
    unfold bind at 1. unfold set_preds at 1. unfold modify. simpl.
    unfold locs_update_key. unfold bind at 1. unfold get at 1. simpl.
    rewrite Hget.
    destruct (update_key_ok q h e (APQ._key em + Edge._element edge))
      as (q' & Hupd & Hq' & ((Hlen & Hvals) & Hql & Hmem)); [done|done|done|lia|].
    unfold on_open. simpl. rewrite Hupd.
    eexists. split; [reflexivity|]. split; [|split; [done|simpl; lia]].
    split; simpl; try done.
    + intros h0 Hh0. apply Hmem in Hh0.
      destruct (Hh h0 Hh0) as (l & Hv0 & Hg0 & Hp0 & Hb0).
      exists l. rewrite Hvals. split_and!; try done.
      rewrite dict_mem_set, Hp0. apply orb_true_r.
    + intros l x Hx. destruct (Hl l x Hx) as (h0 & -> & Hin0 & Hv0).
      exists h0. rewrite Hvals, Hmem. done.
  - (* a new label *)
    unfold bind at 1. unfold set_preds at 1. unfold modify. simpl.
    destruct (add_ok q (APQ._key em + Edge._element edge) o Hq)
      as (q' & Hadd & Hq' & Hlen & Hold & Hnew & Hmem).
    unfold bind at 1. unfold on_open at 1. simpl. rewrite Hadd.
    unfold set_locs, modify. simpl.
    eexists. split; [reflexivity|]. split; [|split; [done|simpl; lia]].
    assert (forall h l, (APQ._value <$> APQ.objects q !! h) = Some l ->
                        (APQ._value <$> APQ.objects q' !! h) = Some l) as Hkeep.
    { intros h l Hv. rewrite Hold; [done|].
      apply lookup_lt_is_Some. destruct (APQ.objects q !! h); [eauto|done]. }
    assert (forall l, is_Some (dict_get l lcs) -> l <> o) as Hne.
    { intros l [x Hx] ->. unfold dict_mem in Hlocs. by rewrite Hx in Hlocs. }
    split; simpl; try done.
    + by apply dict_set_NoDup.
    + intros h0 Hh0. apply Hmem in Hh0 as [Hh0| ->].
      * destruct (Hh h0 Hh0) as (l & Hv0 & Hg0 & Hp0 & Hb0).
        exists l. split_and!; try done.
        -- by apply Hkeep.
        -- rewrite dict_get_set_ne; [done|]. apply Hne. eauto.
        -- rewrite dict_mem_set, Hp0. apply orb_true_r.
      * exists o. split_and!; try done.
        -- apply dict_get_set_eq.
        -- rewrite dict_mem_set. by rewrite bool_decide_eq_true_2.
    + intros l x. rewrite dict_get_set.
      destruct (decide (l = o)) as [->|Hlo].
      * intros [= <-]. eexists. split; [done|]. split; [|exact Hnew].
        apply Hmem. by right.
      * intros Hx. destruct (Hl l x Hx) as (h0 & -> & Hin0 & Hv0).
        exists h0. split; [done|]. split; [apply Hmem; by left|by apply Hkeep].
    + intros l. rewrite dict_mem_set.
      destruct (decide (l = o)) as [->|Hlo]; [done|].
      rewrite bool_decide_eq_false_2 by done. apply Hoc.
Qed.

Lemma for_each_relax_ok min vert v es : forall edges f em,
  frame_wf bound f ->
  APQ.objects (open f) !! min = Some em ->
  Graph.get_edges (as_graph graph) v = Some es ->
  (forall e, e ∈ edges -> e ∈ es) ->
  exists f', for_each edges (relax min vert v) f = (f', Ok tt) /\
             frame_wf bound f' /\ closed f' = closed f.
Proof.
  induction edges as [|edge edges IH]; intros f em Hf Hmin Hes Hsub; simpl.
  - by exists f.
  - destruct (relax_ok min vert v es edge f em) as (f1 & Hrelax & Hf1 & Hc1 & Hlen);
      [done|done|done|apply Hsub, elem_of_cons; by left|].
    unfold bind. rewrite Hrelax.
    assert (is_Some (APQ.objects (open f1) !! min)) as [em1 Hmin1].
    { apply lookup_lt_is_Some. apply lookup_lt_Some in Hmin. lia. }
    destruct (IH f1 em1) as (f2 & Hrest & Hf2 & Hc2); [done|done|done| |].
    { intros e He. apply Hsub, elem_of_cons. by right. }
    exists f2. split; [done|]. split; [done|]. congruence.
Qed.

Lemma scan_edges_ok min vert f em :
  frame_wf bound f -> APQ.objects (open f) !! min = Some em -> vert ∈ bound ->
  exists f', scan_edges graph min vert f = (f', Ok tt) /\
             frame_wf bound f' /\ closed f' = closed f.
Proof.
  intros Hf Hmin Hvert. destruct (lookup_ok vert Hvert) as [ov Hov].
  unfold scan_edges, bind. rewrite Hov.
  destruct ov as [v|]; [|by exists f].
  destruct (Graph.get_edges (as_graph graph) v) as [es|] eqn:Hes; [|by exists f].
  by eapply for_each_relax_ok.
Qed.

Lemma close_min_ok f :
  frame_wf bound f -> (1 <= length (APQ._queue (open f)))%nat ->
  exists min vert f' em,
    close_min f = (f', Ok (min, vert)) /\ frame_wf bound f' /\
    APQ.objects (open f') !! min = Some em /\ vert ∈ bound /\
    length (closed f') = S (length (closed f)).
Proof.
  intros Hf Hlen. destruct f as [q lcs cls prs].
  destruct Hf as [Hq Hlk Hck Hh Hl Hoc Hc]. simpl in *.
  destruct (remove_min_ok q Hq Hlen)
    as (min & q' & Hrem & Hq' & (Hlen' & Hvals) & Hout & Hmem).
  assert (min ∈ APQ._queue q) as Hmin by (apply Hmem; by left).
  destruct (Hh min Hmin) as (vert & Hvert & Hgl & Hgp & Hb).
  rewrite <- Hvals in Hvert.
  apply fmap_Some in Hvert as (em & Hem & Hvert). symmetry in Hvert.
  unfold dict_mem in Hgp.
  destruct (dict_get vert prs) as [pred|] eqn:Hpred; [|done].
  exists min, vert. eexists. exists em. split.
  { unfold close_min. unfold bind at 1. unfold on_open at 1. simpl.
    rewrite Hrem.
    unfold bind at 1. unfold on_open at 1. simpl.
    rewrite (value_of_live _ _ _ Hem), Hvert.
    unfold bind at 1. unfold pop_locs at 1. simpl. rewrite Hgl.
    unfold bind at 1. unfold pop_preds at 1. simpl. rewrite Hpred.
    unfold bind at 1. unfold on_open at 1. simpl.
    rewrite (key_of_live _ _ _ Hem).
    reflexivity. }
  assert (dict_mem vert cls = false) as Hnew.
  { apply Hoc. unfold dict_mem. by rewrite Hgl. }
  simpl. split; [|split; [done|split; [done|]]].
  2: { apply dict_set_length_new. unfold dict_mem in Hnew.
       by destruct (dict_get vert cls). }
  assert (forall h l, h ∈ APQ._queue q' ->
            (APQ._value <$> APQ.objects q !! h) = Some l -> l <> vert) as Hother.
  { intros h l Hin Hv ->.
    destruct (Hh h) as (l' & Hv' & Hg' & _); [apply Hmem; by right|].
    assert (l' = vert) as -> by congruence.
    assert (h = min) as -> by congruence. done. }
  split; simpl.
  - done.
  - by apply dict_del_NoDup.
  - by apply dict_set_NoDup.
  - intros h Hin. destruct (Hh h) as (l & Hv & Hg & Hp & Hbl);
      [apply Hmem; by right|].
    exists l. rewrite Hvals.
    assert (l <> vert) as Hne by (by eapply Hother).
    split_and!; try done.
    + by rewrite dict_get_del_ne.
    + unfold dict_mem in *. by rewrite dict_get_del_ne.
  - intros l x Hx.
    assert (l <> vert) as Hne.
    { intros ->. by rewrite dict_get_del_eq in Hx. }
    rewrite dict_get_del_ne in Hx by done.
    destruct (Hl l x Hx) as (h & -> & Hin & Hv).
    exists h. rewrite Hvals. split; [done|]. split; [|done].
    apply Hmem in Hin as [->|Hin]; [|done].
    rewrite <- Hvals, Hem in Hv. simpl in Hv. congruence.
  - intros l Hmeml.
    assert (l <> vert) as Hne.
    { intros ->. unfold dict_mem in Hmeml. by rewrite dict_get_del_eq in Hmeml. }
    rewrite dict_mem_set, bool_decide_eq_false_2 by done. simpl.
    apply Hoc. unfold dict_mem in *. by rewrite dict_get_del_ne in Hmeml.
  - intros l. rewrite dict_mem_set.
    destruct (decide (l = vert)) as [->|Hne]; [done|].
    rewrite bool_decide_eq_false_2 by done. apply Hc.
Qed.

Lemma visit_ok f :
  frame_wf bound f -> (1 <= length (APQ._queue (open f)))%nat ->
  exists f', visit graph f = (f', Ok tt) /\ frame_wf bound f' /\
             length (closed f') = S (length (closed f)).
Proof.
  intros Hf Hlen.
  destruct (close_min_ok f Hf Hlen)
    as (min & vert & f1 & em & Hclose & Hf1 & Hem & Hvert & Hlen1).
  destruct (scan_edges_ok min vert f1 em Hf1 Hem Hvert) as (f2 & Hscan & Hf2 & Hc2).
  exists f2. split.
  - unfold visit, bind. by rewrite Hclose.
  - split; [done|]. by rewrite Hc2.
Qed.

Lemma dijkstra_loop_ok fuel : forall f,
  frame_wf bound f ->
  (length bound < length (closed f) + fuel)%nat ->
  exists f', dijkstra_loop fuel graph f = (f', Ok tt) /\ frame_wf bound f'.
Proof.
  induction fuel as [|fuel IH]; intros f Hf Hfuel.
  - pose proof (dict_length_bound (closed f) bound
                  (wf_closed_keys _ _ Hf) (wf_closed _ _ Hf)). lia.
  - simpl. unfold bind at 1. unfold on_open at 1, APQ.len_queue at 1.
    destruct (Z.gtb_spec (Z.of_nat (length (APQ._queue (open f)))) 0) as [Hpos|Hzero].
    + destruct (visit_ok f Hf) as (f1 & Hvisit & Hf1 & Hlen1); [lia|].
      assert (visit graph
                (mkFrame (open f) (locs f) (closed f) (preds f)) = (f1, Ok tt))
        as Hvisit' by (by destruct f).
      unfold bind. rewrite Hvisit'. apply IH; [done|lia].
    + eexists. split; [reflexivity|]. by destruct f.
Qed.
End SearchTotal.

Section Total.
Context {L G : Type} `{EqDecision L} `{GraphLike L G}.
Context (graph : G) (s : L).
Hypothesis lookup_ok :
  forall l, l ∈ s :: edge_labels (as_graph graph) ->
            exists ov, lookup_label graph l = Ok ov.
Hypothesis incident :
  forall v es e, Graph.get_edges (as_graph graph) v = Some es -> e ∈ es ->
                 is_Some (Edge.opposite e v).

(** More fuel than a finished loop needed changes nothing. *)
Lemma dijkstra_loop_more_fuel fuel : forall f f' u,
  dijkstra_loop fuel graph f = (f', Ok u) ->
  dijkstra_loop (S fuel) graph f = (f', Ok u).
Proof.
  induction fuel as [|fuel IH]; intros f f' u; [done|].
  intros Hrun. simpl in Hrun |- *. unfold bind in Hrun |- * at 1.
  destruct (on_open APQ.len_queue f) as [f0 [n| |]]; [|done..].
  destruct (n >? 0); [|done].
  unfold bind in Hrun |- * at 1.
  destruct (visit graph f0) as [f1 [u1| |]]; [|done..].
  by apply IH.
Qed.

Lemma dijkstra_first_round fuel :
  dijkstra_body (S fuel) graph s (dijkstra_start s) =
  bind (scan_edges graph 0%nat s) (fun _ => dijkstra_loop fuel graph)
       (mkFrame (APQ.mkAPQ [APQ.mkElement 0 s 0] []) [] [(s, (0, None))] []).
Proof.
  rewrite dijkstra_body_loop. simpl.
  unfold bind at 1. simpl. unfold visit. unfold bind at 1. unfold bind at 1.
  by rewrite close_min_first.
Qed.

Lemma dijkstra_total fuel :
  (length (edge_labels (as_graph graph)) + 2 <= fuel)%nat ->
  exists closed, dijkstra fuel graph s = Ok closed.
Proof.
  intros Hfuel. destruct fuel as [|fuel]; [lia|].
  unfold dijkstra. rewrite dijkstra_first_round.
  set (bound := s :: edge_labels (as_graph graph)).
  set (f2 := mkFrame (APQ.mkAPQ [APQ.mkElement 0 s 0] []) [] [(s, (0, None))] []).
  assert (frame_wf bound f2) as Hf2.
  { split; simpl.
    - split; [apply NoDup_nil_2|]. intros p h Hp. done.
    - apply NoDup_nil_2.
    - apply NoDup_singleton.
    - intros h Hh. by apply elem_of_nil in Hh.
    - intros l x Hx. done.
    - intros l Hl. done.
    - intros l. unfold dict_mem. simpl.
      destruct (decide (l = s)) as [->|]; [|done]. intros _.
      apply elem_of_cons. by left. }
  destruct (scan_edges_ok graph bound) with (min := 0%nat) (vert := s) (f := f2)
    (em := APQ.mkElement 0 s 0) as (f3 & Hscan & Hf3 & Hc3).
  { intros l Hl. apply elem_of_cons. by right. }
  { done. }
  { done. }
  { done. }
  { done. }
  { apply elem_of_cons. by left. }
  destruct (dijkstra_loop_ok graph bound) with (fuel := fuel) (f := f3)
    as (f4 & Hloop & Hf4).
  { intros l Hl. apply elem_of_cons. by right. }
  { done. }
  { done. }
  { done. }
  { rewrite Hc3. simpl. lia. }
  unfold bind. rewrite Hscan, Hloop. eauto.
Qed.
End Total.

Section GraphWf.
Context {L : Type} `{EqDecision L}.
Implicit Types (g : Graph.t L) (v w a b : Vertex.t L) (e : Edge.t L).

Lemma get_edges_get_edge g v es e :
  Graph.get_edges g v = Some es -> e ∈ es ->
  exists w, Graph.get_edge g v w = Some e.
Proof.
  unfold Graph.get_edges, Graph.get_edge.
  destruct (dict_mem v (Graph._structure g)); [|done]. intros [= <-] He.
  apply list_elem_of_In, in_flat_map in He as (w & Hw & He). exists w. simpl.
  destruct (dict_get w (Graph.adjacency g v)) as [e'|] eqn:Hget; [|done].
  destruct He as [->|[]]. unfold dict_mem. by rewrite Hget.
Qed.

Lemma graph_wf_incident g v es e :
  graph_wf g -> Graph.get_edges g v = Some es -> e ∈ es ->
  is_Some (Edge.opposite e v).
Proof.
  intros Hg Hes He. destruct (get_edges_get_edge g v es e Hes He) as [w Hw].
  destruct (gw_ends g Hg _ _ _ Hw) as [[[-> _]|[-> _]] _];
    unfold Edge.opposite, Edge.start, Edge.end_.
  - rewrite decide_True by done. eauto.
  - destruct (decide _); [eauto|]. rewrite decide_True by done. eauto.
Qed.

Lemma edge_labels_vertices g l :
  graph_wf g -> l ∈ edge_labels g ->
  exists v, v ∈ Graph.vertices g /\ Vertex.element v = l.
Proof.
  intros Hg Hl. unfold edge_labels in Hl.
  apply list_elem_of_In, in_flat_map in Hl as (v & Hv & Hl).
  destruct (Graph.get_edges g v) as [es|] eqn:Hes; [|done].
  apply in_flat_map in Hl as (e & He & Hl).
  destruct (get_edges_get_edge g v es e Hes) as [w Hw];
    [by apply list_elem_of_In|].
  destruct (gw_ends g Hg _ _ _ Hw) as [Hends Hwin].
  apply list_elem_of_In in Hv.
  destruct Hl as [<-|[<-|[]]]; destruct Hends as [[-> ->]|[-> ->]]; eauto.
Qed.

Lemma graph_wf_init : graph_wf (Graph.init (L := L)).
Proof.
  split.
  - intros v Hv. by apply elem_of_nil in Hv.
  - intros a b e. by rewrite get_edge_lookup.
Qed.

Lemma graph_wf_add_vertex g element :
  graph_wf g -> graph_wf (Graph.add_vertex g element).1.
Proof.
  intros [Hids Hends]. split.
  - intros v. unfold Graph.vertices. simpl. rewrite dict_keys_set.
    intros [->|Hin]; simpl; [lia|]. specialize (Hids v Hin). lia.
  - intros a b e. rewrite get_edge_add_vertex by done. intros Hget.
    destruct (Hends _ _ _ Hget) as [He Hb]. split; [done|].
    unfold Graph.vertices. simpl. apply dict_keys_set. by right.
Qed.

Lemma graph_wf_add_edge g v w element oneway :
  graph_wf g -> graph_wf (Graph.add_edge g v w element oneway).1.
Proof.
  intros Hg. pose proof Hg as [Hids Hends].
  destruct (decide (v ∈ Graph.vertices g /\ w ∈ Graph.vertices g))
    as [[Hv Hw]|Hout].
  2: { assert (Graph.add_edge g v w element oneway = (g, None)) as ->; [|done].
       apply add_edge_absent. by apply not_and_l in Hout. }
  destruct (add_edge_present g v w element oneway Hv Hw)
    as (g' & -> & Hnext & Hvs & Hget). simpl.
  split.
  - rewrite Hvs, Hnext. intros v0 Hin. specialize (Hids v0 Hin). lia.
  - rewrite Hvs. intros a b e. rewrite Hget.
    destruct (add_edge_mode v w oneway) as [both|]; [|by apply Hends].
    destruct (decide (a = v /\ b = w)) as [[-> ->]|].
    { intros [= <-]. split; [by left|done]. }
    destruct (decide (both = true /\ a = w /\ b = v)) as [(_ & -> & ->)|].
    { intros [= <-]. split; [by right|done]. }
    apply Hends.
Qed.

Lemma now_step (h : history (L := L)) c :
  now (step h c) =
  match c with
  | AddVertex element => (Graph.add_vertex (now h) element).1
  | AddEdge v w element oneway => (Graph.add_edge (now h) v w element oneway).1
  end.
Proof.
  destruct c as [element|v w element oneway]; simpl; [done|].
  destruct (Graph.add_edge _ _ _ _ _) as [g [e|]]; [|done].
  by destruct (add_edge_mode v w oneway) as [[|]|].
Qed.

Lemma play_graph_wf cs : forall h : history (L := L),
  graph_wf (now h) -> graph_wf (now (play h cs)).
Proof.
  induction cs as [|c cs IH]; intros h Hh; simpl; [done|].
  apply IH. rewrite now_step. destruct c.
  - by apply graph_wf_add_vertex.
  - by apply graph_wf_add_edge.
Qed.

(** [dijkstra] returns on every graph built by calls. *)
Lemma dijkstra_graph_total (g : Graph.t L) s fuel :
  graph_wf g -> (length (edge_labels g) + 2 <= fuel)%nat ->
  exists closed, dijkstra fuel g s = Ok closed.
Proof.
  intros Hg Hfuel. apply dijkstra_total; [|intros v0 es e; by apply graph_wf_incident|done].
  intros l _. simpl. eauto.
Qed.

(** [dijkstra] returns on every graph built by [add_vertex] and [add_edge]
    calls, from every source label. *)
Lemma dijkstra_returns (cs : list (call (L := L))) s fuel :
  (length (edge_labels (now (play start_history cs))) + 2 <= fuel)%nat ->
  exists closed, dijkstra fuel (now (play start_history cs)) s = Ok closed.
Proof.
  apply dijkstra_graph_total, play_graph_wf, graph_wf_init.
Qed.
End GraphWf.

Section RouteMapWf.
Context {L C : Type} `{EqDecision L}.
Implicit Types (m : RouteMap.t L C).

Lemma built_graph_wf m : built m -> graph_wf (RouteMap.graph m).
Proof.
  induction 1 as [|m element c1 c2 _ IH|m element _ IH|m v w element oneway _ IH].
  - apply graph_wf_init.
  - by apply (graph_wf_add_vertex (RouteMap.graph m) element).
  - unfold RouteMap.add_vertex_if_new.
    destruct (Graph.first_with_label _ _); [done|].
    by apply (graph_wf_add_vertex (RouteMap.graph m) element).
  - unfold RouteMap.add_edge.
    pose proof (graph_wf_add_edge (RouteMap.graph m) v w element oneway IH) as Hg.
    by destruct (Graph.add_edge _ _ _ _ _).
Qed.

Lemma add_vertex_index_complete m element c1 c2 :
  index_complete m -> index_complete (RouteMap.add_vertex m element c1 c2).1.
Proof.
  intros IH v. unfold Graph.vertices. simpl. rewrite dict_keys_set.
  rewrite dict_mem_set. intros [->|Hin].
  - simpl. by rewrite bool_decide_eq_true_2.
  - rewrite (IH v Hin). apply orb_true_r.
Qed.

Lemma built_index_complete m : built m -> index_complete m.
Proof.
  induction 1 as [|m element c1 c2 _ IH|m element _ IH|m v w element oneway _ IH].
  - intros v Hv. by apply elem_of_nil in Hv.
  - by apply add_vertex_index_complete.
  - unfold RouteMap.add_vertex_if_new.
    destruct (Graph.first_with_label _ _); [done|].
    by apply add_vertex_index_complete.
  - intros v0. unfold RouteMap.add_edge.
    pose proof (add_edge_vertices (RouteMap.graph m) v w element oneway) as Hvs.
    destruct (Graph.add_edge _ _ _ _ _) as [g' r]. simpl in *.
    rewrite Hvs. apply IH.
Qed.

(** On a route map built by its methods, [dijkstra] from a label the map
    has returns a table. *)
Lemma dijkstra_route_map_total m s fuel :
  built m -> dict_mem s (RouteMap._findvertex m) = true ->
  (length (edge_labels (RouteMap.graph m)) + 2 <= fuel)%nat ->
  exists closed, dijkstra fuel m s = Ok closed.
Proof.
  intros Hm Hs Hfuel. pose proof (built_graph_wf m Hm) as Hg.
  apply dijkstra_total; [|intros v0 es e; by apply graph_wf_incident|done].
  intros l Hl. simpl. unfold RouteMap.get_vertex_by_label.
  assert (dict_mem l (RouteMap._findvertex m) = true) as Hmem.
  { apply elem_of_cons in Hl as [->|Hl]; [done|].
    destruct (edge_labels_vertices _ l Hg Hl) as (v & Hv & <-).
    by apply built_index_complete. }
  unfold dict_mem in Hmem.
  destruct (dict_get l (RouteMap._findvertex m)); [eauto|done].
Qed.

(** From a label the map does not have, [dijkstra] ends with the KeyError
    of the first lookup. *)
Lemma dijkstra_unknown_source m s fuel :
  dict_mem s (RouteMap._findvertex m) = false ->
  dijkstra (S fuel) m s = Raise KeyError.
Proof.
  intros Hs. unfold dijkstra. rewrite dijkstra_first_round.
  unfold bind at 1. unfold scan_edges. unfold bind at 1. simpl.
  unfold RouteMap.get_vertex_by_label. unfold dict_mem in Hs.
  by destruct (dict_get s (RouteMap._findvertex m)).
Qed.

End RouteMapWf.


(** [sp] to a label that is not in the table ends with a KeyError. *)
Lemma sp_absent_KeyError {L C} `{EqDecision L} (m : RouteMap.t L C)
    (fuel : nat) (v w : L) (closed : dict L (Z * option L)) :
  dijkstra fuel m v = Ok closed -> dict_mem w closed = false ->
  sp fuel m v w = ([], Raise KeyError).
Proof.
  intros Hd Hw. unfold sp. rewrite Hd.
  destruct fuel as [|fuel]; [done|]. simpl.
  destruct (decide (w = v)) as [->|Hne].
  { apply dijkstra_source_closed in Hd. congruence. }
  rewrite bool_decide_eq_false_2 by congruence.
  unfold RouteMap.get_vertex_by_label.
  destruct (dict_get w (RouteMap._findvertex m)) as [label|]; [|done].
  destruct (dict_get label (RouteMap._vertexcoords m)) as [[lat lon]|];
    [|done].
  unfold dict_mem in Hw. by destruct (dict_get w closed).
Qed.

(** A label that cannot be reached is not in the table. *)
Lemma dijkstra_unreachable_absent {L G} `{EqDecision L} `{GraphLike L G}
    (graph : G) (fuel : nat) (s l : L) (closed : dict L (Z * option L)) :
  lookup_sound graph -> dijkstra fuel graph s = Ok closed ->
  ~ reachable (as_graph graph) s l -> dict_mem l closed = false.
Proof.
  intros Hsound Hd Hl. destruct (dict_mem l closed) eqn:Hmem; [|done].
  destruct Hl. by eapply dijkstra_closed_reachable.
Qed.

(** [sp] to a label that cannot be reached ends with a KeyError, whatever
    the route map and the source, once the fuel covers the rounds of the
    search. *)
Lemma sp_unreachable_KeyError {L C} `{EqDecision L} (m : RouteMap.t L C)
    (fuel : nat) (v w : L) :
  built m -> (length (edge_labels (RouteMap.graph m)) + 2 <= fuel)%nat ->
  ~ reachable (RouteMap.graph m) v w ->
  sp fuel m v w = ([], Raise KeyError).
Proof.
  intros Hm Hfuel Hw.
  destruct (dict_mem v (RouteMap._findvertex m)) eqn:Hv.
  - destruct (dijkstra_route_map_total m v fuel Hm Hv Hfuel) as [closed Hd].
    apply (sp_absent_KeyError m fuel v w closed Hd).
    exact (dijkstra_unreachable_absent m fuel v w closed
             (route_map_lookup_sound m Hm) Hd Hw).
  - destruct fuel as [|fuel]; [lia|].
    unfold sp. by rewrite dijkstra_unknown_source.
Qed.

(** What [sp] has printed when it fails on a label that is not in the
    table: the lines of [dijkstra] and the header, and no line of the
    loop. *)
Lemma sp_output_absent {L C} `{EqDecision L} (m : RouteMap.t L C)
    (fuel : nat) (v w : L) (closed : dict L (Z * option L)) :
  dijkstra fuel m v = Ok closed -> dict_mem w closed = false ->
  sp_output fuel m v w = (dijkstra_prints closed ++ [Header], Raise KeyError).
Proof.
  intros Hd Hw. pose proof (sp_absent_KeyError m fuel v w closed Hd Hw) as Hsp.
  unfold sp in Hsp. unfold sp_output. rewrite Hd in *. by rewrite Hsp.
Qed.

(** When the source is no label of the route map, [dijkstra] raises before
    its print statements, and [sp] prints nothing. *)
Lemma sp_output_unknown_source {L C} `{EqDecision L} (m : RouteMap.t L C)
    (fuel : nat) (v w : L) :
  dict_mem v (RouteMap._findvertex m) = false ->
  sp_output (S fuel) m v w = ([], Raise KeyError).
Proof.
  intros Hv. unfold sp_output. by rewrite dijkstra_unknown_source.
Qed.

(** In the graph of two vertices and no edge, and in the route map of
    two vertices and no edge, a label reaches only itself. *)
Lemma two_vertices_apart (a b : string) :
  a <> b -> ~ reachable Examples.two_vertices a b.
Proof.
  intros Hab Hr. destruct (rtc_inv _ _ Hr) as [Heq|(c & Hhop & _)]; [done|].
  destruct Hhop as (v & es & e & w & Hv & _ & Hes & He & _).
  repeat (apply elem_of_cons in Hv as [->|Hv];
          [vm_compute in Hes; injection Hes as <-; by apply elem_of_nil in He|]).
  by apply elem_of_nil in Hv.
Qed.

Lemma two_islands_apart (a b : string) :
  a <> b -> ~ reachable (RouteMap.graph Examples.two_islands) a b.
Proof.
  intros Hab Hr. destruct (rtc_inv _ _ Hr) as [Heq|(c & Hhop & _)]; [done|].
  destruct Hhop as (v & es & e & w & Hv & _ & Hes & He & _).
  repeat (apply elem_of_cons in Hv as [->|Hv];
          [vm_compute in Hes; injection Hes as <-; by apply elem_of_nil in He|]).
  by apply elem_of_nil in Hv.
Qed.



(** ** Witnesses on concrete inputs *)

Lemma add_edge_spec_witness :
  let g := Examples.two_vertices in
  let e := Edge.mk 2 (Examples.vA, Examples.vB) 7 in
  Examples.vA ∈ Graph.vertices g /\ Examples.vB ∈ Graph.vertices g /\
  Examples.vA <> Examples.vB /\
  Graph.add_edge g Examples.vA (Vertex.mk 5 "Z") 7 Examples.two_way = (g, None) /\
  (exists g',
     Graph.add_edge g Examples.vA Examples.vB 7 Examples.directed
     = (g', Some e) /\
     Graph.get_edge g' Examples.vA Examples.vB = Some e /\
     Graph.get_edge g' Examples.vB Examples.vA = None) /\
  (exists g',
     Graph.add_edge g Examples.vA Examples.vB 7 Examples.two_way
     = (g', Some e) /\
     Graph.get_edge g' Examples.vA Examples.vB = Some e /\
     Graph.get_edge g' Examples.vB Examples.vA = Some e) /\
  (exists g',
     Graph.add_edge g Examples.vA Examples.vB 7 PyNone = (g', Some e) /\
     Graph._structure g' = Graph._structure g /\
     Graph.get_edge g' Examples.vA Examples.vB = None).
Proof.
  intros g e.
  assert (Examples.vA ∈ Graph.vertices g) as Ha
    by (apply elem_of_cons; by left).
  assert (Examples.vB ∈ Graph.vertices g) as Hb
    by (apply elem_of_cons; right; apply elem_of_cons; by left).
  assert (Examples.vA <> Examples.vB) as Hne by done.
  split; [exact Ha|]. split; [exact Hb|]. split; [exact Hne|].
  split; [|split; [|split]].
  - destruct (add_edge_spec g Examples.vA (Vertex.mk 5 "Z") 7
                            Examples.two_way) as [Hno _].
    apply Hno. right. intros Hin.
    repeat (apply elem_of_cons in Hin as [Hin|Hin]; [discriminate Hin|]).
    by apply elem_of_nil in Hin.
  - destruct (add_edge_spec g Examples.vA Examples.vB 7 Examples.directed)
      as [_ Hok].
    destruct (Hok Ha Hb) as (g' & Hadd & _ & Hone & _).
    destruct Hone as [Hget Hrest]; [by left|].
    exists g'. split; [exact Hadd|]. split; [exact Hget|].
    by rewrite Hrest.
  - destruct (add_edge_spec g Examples.vA Examples.vB 7 Examples.two_way)
      as [_ Hok].
    destruct (Hok Ha Hb) as (g' & Hadd & _ & _ & Htwo & _).
    destruct (Htwo eq_refl Hne) as (Hvw & Hwv & _).
    exists g'. split; [exact Hadd|]. split; [exact Hvw|exact Hwv].
  - destruct (add_edge_spec g Examples.vA Examples.vB 7 PyNone) as [_ Hok].
    destruct (Hok Ha Hb) as (g' & Hadd & _ & _ & _ & Hnone).
    destruct (Hnone eq_refl eq_refl Hne) as [Hsame Hget].
    exists g'. split; [exact Hadd|]. split; [exact Hsame|].
    by rewrite Hget.
Defined.

Lemma get_vertex_by_label_miss_witness :
  built Examples.two_islands /\
  Graph.get_vertex_by_label Examples.two_vertices "Z" = None /\
  RouteMap.get_vertex_by_label Examples.two_islands "Z" = Raise KeyError.
Proof.
  assert (built Examples.two_islands) as Hm by (do 2 constructor; constructor).
  split; [exact Hm|].
  destruct (get_vertex_by_label_miss Examples.two_vertices
              Examples.two_islands "Z") as [Hg Hr].
  split.
  - apply Hg. intros v Hv.
    apply elem_of_cons in Hv as [->|Hv]; [done|].
    apply elem_of_cons in Hv as [->|Hv]; [done|].
    by apply elem_of_nil in Hv.
  - apply Hr; [exact Hm|]. intros v Hv.
    apply elem_of_cons in Hv as [->|Hv]; [done|].
    apply elem_of_cons in Hv as [->|Hv]; [done|].
    by apply elem_of_nil in Hv.
Defined.

(** * Further properties *)

(** ** The two edge counts *)

Section GraphCountFacts.
Context {L : Type} `{EqDecision L}.
Implicit Types (g : Graph.t L) (v w a b : Vertex.t L) (e : Edge.t L).

Lemma sum_list_with_ext_in {A} (f f' : A -> nat) (l : list A) :
  (forall x, x ∈ l -> f' x = f x) -> sum_list_with f' l = sum_list_with f l.
Proof.
  induction l as [|x l IH]; intros Hf; simpl; [done|].
  rewrite Hf by (apply elem_of_cons; by left).
  rewrite IH; [done|]. intros y Hy. apply Hf, elem_of_cons. by right.
Qed.

Lemma sum_list_with_change {A} (f f' : A -> nat) (l : list A) x :
  NoDup l -> x ∈ l -> (forall y, y <> x -> f' y = f y) ->
  (sum_list_with f' l + f x = sum_list_with f l + f' x)%nat.
Proof.
  induction l as [|y l IH]; intros Hnd Hin Hf; [by apply elem_of_nil in Hin|].
  apply NoDup_cons in Hnd as [Hy Hnd]. simpl.
  apply elem_of_cons in Hin as [->|Hin].
  - rewrite (sum_list_with_ext_in f f' l); [lia|].
    intros z Hz. apply Hf. intros ->. done.
  - rewrite Hf by (intros ->; done). specialize (IH Hnd Hin Hf). lia.
Qed.

Lemma num_edges_sizes g : Graph.num_edges g = (adjacency_sizes g `div` 2)%nat.
Proof.
  unfold Graph.num_edges, adjacency_sizes, Graph.vertices. f_equal.
  generalize (dict_keys (Graph._structure g)). intros vs.
  assert (forall acc, foldl (fun num v => (num + length (Graph.adjacency g v))%nat) acc vs
                      = (acc + sum_list_with (fun v => length (Graph.adjacency g v)) vs)%nat)
    as Hacc.
  { induction vs as [|v vs IH]; intros acc; simpl; [lia|]. rewrite IH. lia. }
  by rewrite Hacc.
Qed.

Lemma length_edges g :
  length (Graph.edges g) = sum_list_with (fun v => length (listed_at g v)) (Graph.vertices g).
Proof.
  unfold Graph.edges, Graph.vertices.
  induction (dict_keys (Graph._structure g)) as [|v vs IH]; simpl; [done|].
  rewrite length_app, IH. done.
Qed.

Lemma adjacency_store_edge s n n' v w e x :
  Graph.adjacency (Graph.mk (Graph.store_edge v w e s) n) x =
  if decide (x = v) then dict_set w e (Graph.adjacency (Graph.mk s n') v)
  else Graph.adjacency (Graph.mk s n') x.
Proof.
  unfold Graph.adjacency, Graph.store_edge. simpl. rewrite dict_get_set.
  by destruct (decide (x = v)) as [->|].
Qed.

Lemma adjacency_add_vertex g element x :
  Vertex.mk (Graph.next_id g) element ∉ Graph.vertices g ->
  Graph.adjacency (Graph.add_vertex g element).1 x = Graph.adjacency g x.
Proof.
  intros Hnew. unfold Graph.adjacency, Graph.add_vertex. simpl.
  rewrite dict_get_set. destruct (decide _) as [->|]; [|done].
  apply dict_get_None_keys in Hnew. by rewrite Hnew.
Qed.

Lemma listed_at_new_entry (adj : dict (Vertex.t L) (Edge.t L)) w e v :
  dict_get w adj = None ->
  length (flat_map (fun w' => match dict_get w' (dict_set w e adj) with
                              | Some e' => if decide (Edge.start e' = v) then [e'] else []
                              | None => []
                              end)
                   (dict_keys (dict_set w e adj)))
  = (length (flat_map (fun w' => match dict_get w' adj with
                                 | Some e' => if decide (Edge.start e' = v) then [e'] else []
                                 | None => []
                                 end)
                      (dict_keys adj))
     + if decide (Edge.start e = v) then 1 else 0)%nat.
Proof.
  intros Hnew. rewrite dict_keys_set_new by (by apply dict_get_None_keys).
  rewrite flat_map_app, length_app. f_equal.
  - rewrite !length_flat_map. f_equal. apply map_ext_in. intros w' Hw'.
    rewrite dict_get_set_ne; [done|]. intros ->.
    apply list_elem_of_In, dict_mem_keys in Hw'. unfold dict_mem in Hw'.
    by rewrite Hnew in Hw'.
  - simpl. rewrite dict_get_set_eq. by destruct (decide _).
Qed.

(** What one new entry [v -> w : e] adds to the two counts. *)
Lemma counts_store_edge s n n' v w e :
  NoDup (dict_keys s) -> v ∈ dict_keys s ->
  Graph.get_edge (Graph.mk s n) v w = None ->
  let g := Graph.mk s n in
  let g' := Graph.mk (Graph.store_edge v w e s) n' in
  adjacency_sizes g' = S (adjacency_sizes g) /\
  length (Graph.edges g')
  = (length (Graph.edges g) + if decide (Edge.start e = v) then 1 else 0)%nat.
Proof.
  intros Hnd Hv Hnone g g'.
  assert (Graph.vertices g' = Graph.vertices g) as Hvs
    by (by apply vertices_store_edge).
  assert (dict_get w (Graph.adjacency g v) = None) as Hw.
  { rewrite get_edge_lookup in Hnone. unfold Graph.adjacency. simpl in *.
    destruct (dict_get v s) eqn:Hs; [done|].
    apply dict_get_None_keys in Hs. done. }
  split.
  - unfold adjacency_sizes. rewrite Hvs.
    assert (forall y, y <> v -> length (Graph.adjacency g' y) = length (Graph.adjacency g y)) as Hrest.
    { intros y Hy. unfold g'. rewrite (adjacency_store_edge s n' n v w e y).
      by rewrite decide_False by done. }
    assert (length (Graph.adjacency g' v) = S (length (Graph.adjacency g v))) as Hat.
    { unfold g'. rewrite (adjacency_store_edge s n' n v w e v).
      rewrite decide_True by done. fold g. by apply dict_set_length_new. }
    pose proof (sum_list_with_change
                  (fun x => length (Graph.adjacency g x))
                  (fun x => length (Graph.adjacency g' x))
                  (Graph.vertices g) v Hnd Hv Hrest) as Hsum.
    cbv beta in Hsum. lia.
  - rewrite !length_edges, Hvs.
    assert (forall y, y <> v -> length (listed_at g' y) = length (listed_at g y)) as Hrest.
    { intros y Hy. unfold listed_at, g'. rewrite (adjacency_store_edge s n' n v w e y).
      by rewrite decide_False by done. }
    assert (length (listed_at g' v)
            = (length (listed_at g v) + if decide (Edge.start e = v) then 1 else 0)%nat)
      as Hat.
    { unfold listed_at, g'. rewrite (adjacency_store_edge s n' n v w e v).
      rewrite decide_True by done. fold g. by apply listed_at_new_entry. }
    pose proof (sum_list_with_change
                  (fun x => length (listed_at g x))
                  (fun x => length (listed_at g' x))
                  (Graph.vertices g) v Hnd Hv Hrest) as Hsum.
    cbv beta in Hsum. lia.
Qed.

Lemma counts_add_vertex g element :
  Vertex.mk (Graph.next_id g) element ∉ Graph.vertices g ->
  let g' := (Graph.add_vertex g element).1 in
  Graph.vertices g' = Graph.vertices g ++ [Vertex.mk (Graph.next_id g) element] /\
  adjacency_sizes g' = adjacency_sizes g /\
  length (Graph.edges g') = length (Graph.edges g).
Proof.
  intros Hnew g'.
  assert (Graph.vertices g' = Graph.vertices g ++ [Vertex.mk (Graph.next_id g) element])
    as Hvs by (by apply dict_keys_set_new).
  assert (Graph.adjacency g (Vertex.mk (Graph.next_id g) element) = []) as Hadj.
  { unfold Graph.adjacency. apply dict_get_None_keys in Hnew.
    unfold Graph.vertices in Hnew. by rewrite Hnew. }
  assert (forall x, Graph.adjacency g' x = Graph.adjacency g x) as Hsame
    by (intros x; by apply adjacency_add_vertex).
  split; [done|]. split.
  - unfold adjacency_sizes. rewrite Hvs, sum_list_with_app.
    cbn [sum_list_with]. rewrite Hsame, Hadj. simpl.
    rewrite (sum_list_with_ext_in (fun v => length (Graph.adjacency g v))); [lia|].
    intros x _. by rewrite Hsame.
  - rewrite !length_edges, Hvs, sum_list_with_app.
    cbn [sum_list_with]. unfold listed_at at 2. rewrite Hsame, Hadj. simpl.
    rewrite (sum_list_with_ext_in (fun v => length (listed_at g v))); [lia|].
    intros x _. unfold listed_at. by rewrite Hsame.
Qed.

Lemma fresh_vertex g element :
  graph_wf g -> Vertex.mk (Graph.next_id g) element ∉ Graph.vertices g.
Proof.
  intros Hg Hin. apply (gw_ids _ Hg) in Hin. simpl in Hin. lia.
Qed.

(** What a history of calls on new pairs keeps true of the two counts. *)
Lemma counts_step (h : history (L := L)) c :
  graph_wf (now h) -> NoDup (Graph.vertices (now h)) ->
  joins_new_pair (now h) c = true ->
  NoDup (Graph.vertices (now (step h c))) /\
  (adjacency_sizes (now h) = 2 * length (two_way h) + length (one_way h) ->
   adjacency_sizes (now (step h c))
   = 2 * length (two_way (step h c)) + length (one_way (step h c)))%nat /\
  (length (Graph.edges (now h)) = length (two_way h) + length (one_way h) ->
   length (Graph.edges (now (step h c)))
   = length (two_way (step h c)) + length (one_way (step h c)))%nat.
Proof.
  intros Hg Hnd Hnew. destruct h as [g tw ow]. simpl in *.
  destruct c as [element|v w element oneway]; simpl in Hnew; unfold step;
    cbn [now two_way one_way].
  - pose proof (fresh_vertex g element Hg) as Hfresh.
    destruct (counts_add_vertex g element Hfresh) as (Hvs & Hsz & Hed).
    split; [|split; intros; lia].
    rewrite Hvs. apply NoDup_app. split; [done|]. split; [|apply NoDup_singleton].
    intros x Hx Hx'. apply list_elem_of_singleton in Hx'. by subst x.
  - destruct (Graph.get_edge g v w) eqn:Hvw; [done|].
    destruct (Graph.get_edge g w v) eqn:Hwv; [done|].
    destruct (decide (v ∈ Graph.vertices g /\ w ∈ Graph.vertices g)) as [[Hv Hw]|Hout].
    2: { rewrite add_edge_absent.
         - cbn [now two_way one_way]. split_and!; auto.
         - apply not_and_l in Hout. done. }
    unfold Graph.add_edge.
    rewrite (proj2 (vertex_in_graph g v) Hv), (proj2 (vertex_in_graph g w) Hw).
    cbn [negb orb].
    destruct g as [s n]. cbn [Graph._structure Graph.next_id] in *.
    set (e := Edge.mk n (v, w) element).
    unfold add_edge_mode.
    destruct (is_True oneway || bool_decide (v = w)) eqn:Hone.
    + destruct (counts_store_edge s n (S n) v w e Hnd Hv Hvw) as [Hsz Hed].
      rewrite decide_True in Hed by done. cbn [now two_way one_way length].
      split; [by rewrite (vertices_store_edge s _ n)|].
      unfold adjacency_sizes in *. cbn [Graph.vertices Graph._structure] in *.
      split; intros; lia.
    + apply orb_false_iff in Hone as [_ Hne]. apply bool_decide_eq_false in Hne.
      destruct (is_False oneway); cbn [now two_way one_way length].
      2: { split_and!; auto. }
      destruct (counts_store_edge s n (S n) v w e Hnd Hv Hvw) as [Hsz Hed].
      rewrite decide_True in Hed by done.
      set (s1 := Graph.store_edge v w e s) in *.
      assert (dict_keys s1 = dict_keys s) as Hk1
        by (by apply (vertices_store_edge s n n)).
      destruct (counts_store_edge s1 (S n) (S n) w v e) as [Hsz2 Hed2].
      { by rewrite Hk1. }
      { by rewrite Hk1. }
      { unfold s1. rewrite (get_edge_store_edge s (S n) n).
        rewrite decide_False by (intros [? ?]; congruence). done. }
      rewrite decide_False in Hed2 by (unfold e, Edge.start; simpl; congruence).
      split.
      { rewrite (vertices_store_edge s1 _ n) by (by rewrite Hk1).
        unfold Graph.vertices. simpl. by rewrite Hk1. }
      unfold adjacency_sizes in *. cbn [Graph.vertices Graph._structure] in *.
      split; intros; lia.
Qed.

Lemma counts_play cs : forall h : history (L := L),
  graph_wf (now h) -> NoDup (Graph.vertices (now h)) ->
  only_new_pairs h cs = true ->
  (adjacency_sizes (now h) = 2 * length (two_way h) + length (one_way h))%nat ->
  (length (Graph.edges (now h)) = length (two_way h) + length (one_way h))%nat ->
  let h' := play h cs in
  (adjacency_sizes (now h') = 2 * length (two_way h') + length (one_way h'))%nat /\
  (length (Graph.edges (now h')) = length (two_way h') + length (one_way h'))%nat.
Proof.
  induction cs as [|c cs IH]; intros h Hg Hnd Hnew Hsz Hed; simpl; [done|].
  simpl in Hnew. apply andb_true_iff in Hnew as [Hc Hcs].
  destruct (counts_step h c Hg Hnd Hc) as (Hnd' & Hsz' & Hed').
  apply IH; auto.
  rewrite now_step. destruct c.
  - by apply graph_wf_add_vertex.
  - by apply graph_wf_add_edge.
Qed.
End GraphCountFacts.

(** X1. [num_edges] against the edges there are. In a graph built by calls
    none of which joins a pair of vertices that an edge joins already,
    [edges()] lists every edge [add_edge] stored, once, and [num_edges()]
    returns the number of two-way edges plus half the number of one-way
    edges and self-loops, rounded down. *)
Theorem num_edges_counts_one_way_edges_half {L} `{EqDecision L}
    (cs : list (call (L := L))) :
  only_new_pairs start_history cs = true ->
  let h := play start_history cs in
  length (Graph.edges (now h)) = (length (two_way h) + length (one_way h))%nat /\
  Graph.num_edges (now h)
  = (length (two_way h) + length (one_way h) `div` 2)%nat.
Proof.
  intros Hnew h.
  destruct (counts_play cs start_history) as [Hsz Hed]; try done.
  { apply graph_wf_init. }
  { apply NoDup_nil_2. }
  fold h in Hsz, Hed. split; [done|].
  rewrite num_edges_sizes, Hsz.
  rewrite Nat.add_comm, Nat.mul_comm, Nat.div_add by done. lia.
Qed.

(** ** Element objects through the queue operations *)

Section QueueKeeps.
Context {L : Type} (h : APQ.handle) (k : Z) (v : L).
Implicit Types (q : APQ.t L).

Lemma keeps_len_queue : stable (element_holds h k v) APQ.len_queue.
Proof. by intros q Hq. Qed.

Lemma keeps_queue_getitem i : stable (element_holds h k v) (APQ.queue_getitem i).
Proof.
  intros q Hq. unfold APQ.queue_getitem. by destruct (py_getitem _ _).
Qed.

Lemma keeps_queue_setitem i h' : stable (element_holds h k v) (APQ.queue_setitem i h').
Proof.
  intros q Hq. unfold APQ.queue_setitem. by destruct (py_setitem _ _ _).
Qed.

Lemma keeps_queue_pop : stable (element_holds h k v) APQ.queue_pop.
Proof. intros q Hq. unfold APQ.queue_pop. by destruct (last _). Qed.

Lemma keeps_deref h' : stable (element_holds h k v) (APQ.deref h').
Proof. intros q Hq. unfold APQ.deref. by destruct (_ !! _). Qed.

Lemma keeps_set_index h' i : stable (element_holds h k v) (APQ.set_index h' i).
Proof.
  intros q [i0 Hq]. unfold APQ.set_index, APQ.deref, bind, modify.
  destruct (APQ.objects q !! h') as [e|] eqn:He; simpl; [|by exists i0].
  unfold element_holds. simpl.
  destruct (decide (h = h')) as [->|Hne].
  - rewrite list_lookup_insert_eq by (by eapply lookup_lt_Some).
    rewrite Hq in He. injection He as <-. simpl. by exists i.
  - rewrite list_lookup_insert_ne by done. by exists i0.
Qed.

Lemma keeps_set_key h' k' : h' <> h -> stable (element_holds h k v) (APQ.set_key h' k').
Proof.
  intros Hne q [i0 Hq]. unfold APQ.set_key, APQ.deref, bind, modify.
  destruct (APQ.objects q !! h') as [e|] eqn:He; simpl; [|by exists i0].
  unfold element_holds. simpl.
  rewrite list_lookup_insert_ne by done. by exists i0.
Qed.

Local Hint Resolve keeps_len_queue keeps_queue_getitem
  keeps_queue_setitem keeps_queue_pop keeps_deref keeps_set_index : stable.

Lemma keeps_key_of h' : stable (element_holds h k v) (APQ.key_of h').
Proof. unfold APQ.key_of. stable_steps. Qed.

Lemma keeps_index_of h' : stable (element_holds h k v) (APQ.index_of h').
Proof. unfold APQ.index_of. stable_steps. Qed.

Local Hint Resolve keeps_key_of keeps_index_of : stable.

Lemma keeps_elem_lt a b : stable (element_holds h k v) (APQ.elem_lt a b).
Proof. unfold APQ.elem_lt. stable_steps. Qed.

Local Hint Resolve keeps_elem_lt : stable.

Lemma keeps_queue_lt i j : stable (element_holds h k v) (APQ.queue_lt i j).
Proof. unfold APQ.queue_lt. stable_steps. Qed.

Lemma keeps_swap_entries i j : stable (element_holds h k v) (APQ.swap_entries i j).
Proof. unfold APQ.swap_entries. stable_steps. Qed.

Local Hint Resolve keeps_queue_lt keeps_swap_entries : stable.

Lemma keeps_min_leaf i : stable (element_holds h k v) (APQ.min_leaf i).
Proof. unfold APQ.min_leaf. stable_steps. Qed.

Local Hint Resolve keeps_min_leaf : stable.

Lemma keeps_bubble_down_loop fuel : forall index,
  stable (element_holds h k v) (APQ.bubble_down_loop fuel index).
Proof.
  induction fuel as [|fuel IH]; intros index; simpl; stable_steps.
Qed.

Lemma keeps_bubble_up_loop fuel : forall index,
  stable (element_holds h k v) (APQ.bubble_up_loop fuel index).
Proof.
  induction fuel as [|fuel IH]; intros index; simpl; stable_steps.
Qed.

Local Hint Resolve keeps_bubble_down_loop keeps_bubble_up_loop : stable.

Lemma keeps_bubble_down index : stable (element_holds h k v) (APQ.bubble_down index).
Proof. unfold APQ.bubble_down. stable_steps. Qed.

Lemma keeps_bubble_up index : stable (element_holds h k v) (APQ.bubble_up index).
Proof. unfold APQ.bubble_up. stable_steps. Qed.

Local Hint Resolve keeps_bubble_down keeps_bubble_up : stable.

Lemma keeps_add key item : stable (element_holds h k v) (APQ.add key item).
Proof.
  unfold APQ.add.
  apply stable_bind; [apply keeps_len_queue|intros i].
  apply stable_bind; [|intros h'].
  { intros q [i0 Hq]. exists i0. simpl. by apply lookup_app_l_Some. }
  apply stable_bind; [by intros q Hq|intros _].
  stable_steps.
Qed.

Lemma keeps_remove_min : stable (element_holds h k v) APQ.remove_min.
Proof. unfold APQ.remove_min. stable_steps. Qed.

Lemma keeps_remove h' : stable (element_holds h k v) (APQ.remove h').
Proof. unfold APQ.remove. stable_steps. Qed.

Lemma keeps_update_key h' newkey :
  h' <> h -> stable (element_holds h k v) (APQ.update_key h' newkey).
Proof.
  intros Hne. pose proof (keeps_set_key h' newkey Hne).
  unfold APQ.update_key. stable_steps.
Qed.
End QueueKeeps.

Section QueueMore.
Context {L : Type}.
Implicit Types (q : APQ.t L) (h a b : APQ.handle) (e : APQ.Element L).

Lemma element_holds_key q h k v :
  element_holds h k v q ->
  APQ.get_key h q = (q, Ok k) /\ APQ.value_of h q = (q, Ok v).
Proof.
  intros [i Hi]. split.
  - unfold APQ.get_key. by rewrite (key_of_live _ _ _ Hi).
  - by rewrite (value_of_live _ _ _ Hi).
Qed.

Lemma element_holds_live q h e :
  APQ.objects q !! h = Some e -> element_holds h (APQ._key e) (APQ._value e) q.
Proof. intros He. exists (APQ._index e). by destruct e. Qed.

Lemma add_holds q key item :
  element_holds (length (APQ.objects q)) key item (APQ.add key item q).1.
Proof.
  unfold APQ.add. unfold bind at 1. unfold APQ.len_queue at 1.
  unfold bind at 1. unfold bind at 1. unfold modify.
  cbn [APQ.objects APQ._queue].
  set (q1 := APQ.mkAPQ _ _).
  assert (element_holds (length (APQ.objects q)) key item q1) as H1.
  { eexists. unfold q1. simpl. rewrite lookup_app_r by done.
    by rewrite Nat.sub_diag. }
  apply (keeps_bubble_up _ _ _ (Z.of_nat (length (APQ._queue q)))) in H1.
  unfold bind. by destruct (APQ.bubble_up _ q1) as [q2 [[]| |]].
Qed.

Lemma update_key_holds q h e newkey :
  APQ.objects q !! h = Some e -> APQ._key e > newkey ->
  element_holds h newkey (APQ._value e) (APQ.update_key h newkey q).1.
Proof.
  intros He Hgt. unfold APQ.update_key.
  unfold bind at 1. rewrite (key_of_live _ _ _ He).
  destruct (Z.gtb_spec (APQ._key e) newkey); [|lia].
  unfold bind at 1. rewrite (set_key_live _ _ _ _ He).
  set (q1 := APQ.mkAPQ _ _).
  assert (element_holds h newkey (APQ._value e) q1) as H1.
  { eexists. unfold q1. simpl. apply list_lookup_insert_eq.
    by eapply lookup_lt_Some. }
  destruct H1 as [i1 H1]. unfold bind at 1. rewrite (index_of_live _ _ _ H1).
  apply keeps_bubble_up. by exists i1.
Qed.

Lemma remove_min_root q a :
  queue_wf q -> APQ._queue q !! 0%nat = Some a ->
  exists q',
    APQ.remove_min q = (q', Ok a) /\ queue_wf q' /\ same_values q q' /\
    (a ∉ APQ._queue q') /\
    (forall h', h' ∈ APQ._queue q <-> h' = a \/ h' ∈ APQ._queue q') /\
    S (length (APQ._queue q')) = length (APQ._queue q).
Proof.
  intros Hwf Ha.
  assert (1 <= length (APQ._queue q))%nat as Hlen
    by (apply lookup_lt_Some in Ha; lia).
  rewrite remove_min_swap by done.
  set (n := length (APQ._queue q)) in *.
  destruct (swap_entries_ok q 0 (Z.of_nat n - 1) 0 (n - 1))
    as (q1 & Hswap & [Hnd1 Hwf1] & (Hv1 & Hl1 & Hm1) & Hlk1).
  { done. }
  { by apply (py_index_nat n 0). }
  { apply py_index_last; [done|by right]. }
  { by left. }
  { left. lia. }
  unfold bind at 1. rewrite Hswap.
  assert (last (APQ._queue q1) = Some a) as Hlast.
  { rewrite last_lookup, Hl1, Hlk1. fold n.
    replace (Init.Nat.pred n) with (n - 1)%nat by lia.
    unfold transpose. by rewrite decide_True by done. }
  apply last_Some in Hlast as [l' Hl'].
  unfold bind at 1. unfold APQ.queue_pop. rewrite Hl'.
  rewrite last_snoc, List.removelast_last.
  assert (S (length l') = n) as Hn.
  { unfold n. rewrite <- Hl1, Hl', length_app. simpl. lia. }
  rewrite Hl' in Hnd1. apply NoDup_app in Hnd1 as (Hndl & Hal & _).
  set (q2 := APQ.mkAPQ (APQ.objects q1) l').
  assert (queue_wf q2) as Hwf2.
  { split; [done|]. intros p h Hp. apply Hwf1. rewrite Hl'.
    by apply lookup_app_l_Some. }
  destruct (bubble_down_ok q2 Hwf2) as (q3 & Hdown & Hwf3 & (Hv3 & Hl3 & Hm3)).
  unfold bind. rewrite Hdown. exists q3.
  split; [reflexivity|]. split; [done|]. split.
  { eapply same_values_trans; [exact Hv1|]. exact Hv3. }
  split; [|split].
  - rewrite Hm3. simpl. intros Hin. apply (Hal a Hin). apply list_elem_of_singleton.
    done.
  - intros h'. rewrite <- Hm1, Hl', elem_of_app, list_elem_of_singleton, Hm3.
    simpl. tauto.
  - rewrite Hl3. simpl. done.
Qed.

Lemma queue_wf_empty q : APQ._queue q = [] -> queue_wf q.
Proof.
  intros Hq. split; rewrite Hq; [apply NoDup_nil_2|]. intros p h Hp. done.
Qed.
End QueueMore.

(** X2. The empty queue. [min()] and [remove_min()] on a queue without
    entries raise IndexError, the error of [self._queue[0]], and leave the
    queue as it was. *)
Theorem empty_queue_raises_IndexError {L} (q : APQ.t L) :
  APQ._queue q = [] ->
  APQ.min q = (q, Raise IndexError) /\
  APQ.remove_min q = (q, Raise IndexError).
Proof.
  intros Hq. unfold APQ.min, APQ.remove_min, bind, APQ.len_queue,
    APQ.queue_getitem, py_getitem. by rewrite Hq.
Qed.

Lemma empty_queue_raises_IndexError_witness :
  APQ.min (APQ.init (L := string)) = (APQ.init, Raise IndexError) /\
  APQ.remove_min (APQ.init (L := string)) = (APQ.init, Raise IndexError).
Proof. apply (empty_queue_raises_IndexError APQ.init). reflexivity. Defined.

(** X3. [add] followed by [remove_min] on an empty queue. The first entry
    of a queue is added without a comparison; [remove_min] then returns
    that very Element, with the key and the value given to [add], and the
    queue is empty again. *)
Theorem add_then_remove_min_on_empty {L} (q : APQ.t L) (key : Z) (item : L) :
  APQ._queue q = [] ->
  exists q1 q2 h,
    APQ.add key item q = (q1, Ok h) /\ APQ._queue q1 = [h] /\
    APQ.remove_min q1 = (q2, Ok h) /\ APQ._queue q2 = [] /\
    APQ.get_key h q2 = (q2, Ok key) /\ APQ.value_of h q2 = (q2, Ok item).
Proof.
  intros Hq. set (h := length (APQ.objects q)).
  set (q1 := APQ.mkAPQ (APQ.objects q ++ [APQ.mkElement key item 0]) [h]).
  assert (APQ.add key item q = (q1, Ok h)) as Hadd.
  { unfold APQ.add, bind, APQ.len_queue, modify, APQ.bubble_up. rewrite Hq. done. }
  assert (queue_wf q1) as Hwf1.
  { split; [apply NoDup_singleton|]. intros p h' Hp.
    destruct p as [|p]; [|done]. injection Hp as <-.
    exists (APQ.mkElement key item 0). split; [|by left]. unfold q1, h. simpl.
    rewrite lookup_app_r by done. by rewrite Nat.sub_diag. }
  destruct (remove_min_root q1 h Hwf1) as (q2 & Hrem & Hwf2 & _ & Hout & Hmem & Hlen);
    [done|].
  exists q1, q2, h. split; [done|]. split; [done|]. split; [done|].
  assert (APQ._queue q2 = []) as Hq2.
  { apply nil_length_inv. simpl in Hlen. lia. }
  split; [done|].
  apply element_holds_key.
  replace q2 with (APQ.remove_min q1).1 by (by rewrite Hrem).
  apply keeps_remove_min.
  replace q1 with (APQ.add key item q).1 by (by rewrite Hadd).
  apply add_holds.
Qed.

Lemma add_then_remove_min_on_empty_witness :
  exists q1 q2 h,
    APQ.add 5 "a" APQ.init = (q1, Ok h) /\ APQ._queue q1 = [h] /\
    APQ.remove_min q1 = (q2, Ok h) /\ APQ._queue q2 = [] /\
    APQ.get_key h q2 = (q2, Ok 5) /\ APQ.value_of h q2 = (q2, Ok "a").
Proof. apply (add_then_remove_min_on_empty APQ.init 5 "a"). reflexivity. Defined.

(** X4. [remove_min] on a well-formed queue. It returns the Element at the
    root, which leaves the queue; every other entry stays, the queue is one
    entry shorter and still well formed, and no Element object changes its
    key or its value: the caller can still read [min._key] and
    [min._value] from the Element returned. *)
Theorem remove_min_returns_root {L} (q : APQ.t L) (a : APQ.handle) :
  queue_wf q -> APQ._queue q !! 0%nat = Some a ->
  exists q',
    APQ.remove_min q = (q', Ok a) /\ queue_wf q' /\
    (a ∉ APQ._queue q') /\
    (forall h, h ∈ APQ._queue q <-> h = a \/ h ∈ APQ._queue q') /\
    S (length (APQ._queue q')) = length (APQ._queue q) /\
    forall h k v, element_holds h k v q -> element_holds h k v q'.
Proof.
  intros Hwf Ha.
  destruct (remove_min_root q a Hwf Ha) as (q' & Hrem & Hwf' & _ & Hout & Hmem & Hlen).
  exists q'. split_and!; try done.
  intros h k v Hh. replace q' with (APQ.remove_min q).1 by (by rewrite Hrem).
  by apply keeps_remove_min.
Qed.

(** X5. [add] on a well-formed queue. It returns a new Element that was in
    the queue before under no reference, the queue holds the old entries
    and the new one, [get_key] of the new Element is the key given, its
    value the item given, and no other Element changes its key or value. *)
Theorem add_inserts_entry {L} (q : APQ.t L) (key : Z) (item : L) :
  queue_wf q ->
  exists q' h,
    APQ.add key item q = (q', Ok h) /\ queue_wf q' /\
    (h ∉ APQ._queue q) /\
    (forall h', h' ∈ APQ._queue q' <-> h' ∈ APQ._queue q \/ h' = h) /\
    length (APQ._queue q') = S (length (APQ._queue q)) /\
    APQ.get_key h q' = (q', Ok key) /\ APQ.value_of h q' = (q', Ok item) /\
    forall h' k v, element_holds h' k v q -> element_holds h' k v q'.
Proof.
  intros Hwf.
  destruct (add_ok q key item Hwf) as (q' & Hadd & Hwf' & Hlen & Hold & Hnew & Hmem).
  exists q', (length (APQ.objects q)). split_and!; try done.
  - intros [p Hp]%list_elem_of_lookup. destruct Hwf as [_ Hwf].
    destruct (Hwf _ _ Hp) as (e & He & _). apply lookup_lt_Some in He. lia.
  - assert (NoDup (APQ._queue q ++ [length (APQ.objects q)])) as Hnd.
    { apply NoDup_app. split; [apply Hwf|]. split; [|apply NoDup_singleton].
      intros h Hh Hh'. apply list_elem_of_singleton in Hh'. subst h.
      apply list_elem_of_lookup in Hh as [p Hp]. destruct Hwf as [_ Hwf].
      destruct (Hwf _ _ Hp) as (e & He & _). apply lookup_lt_Some in He. lia. }
    replace (S (length (APQ._queue q)))
      with (length (APQ._queue q ++ [length (APQ.objects q)]))
      by (rewrite length_app; simpl; lia).
    apply Nat.le_antisymm.
    + apply submseteq_length, NoDup_submseteq; [apply Hwf'|].
      intros h Hh. apply Hmem in Hh. rewrite elem_of_app, list_elem_of_singleton. done.
    + apply submseteq_length, NoDup_submseteq; [done|].
      intros h Hh. apply Hmem. rewrite elem_of_app, list_elem_of_singleton in Hh. done.
  - eapply element_holds_key. replace q' with (APQ.add key item q).1 by (by rewrite Hadd).
    apply add_holds.
  - eapply element_holds_key. replace q' with (APQ.add key item q).1 by (by rewrite Hadd).
    apply add_holds.
  - intros h' k v Hh. replace q' with (APQ.add key item q).1 by (by rewrite Hadd).
    by apply keeps_add.
Qed.

(** X6. [update_key]. With the key the Element has already, nothing
    changes. With a smaller key, on a well-formed queue, the Element gets
    the new key and keeps its value, the queue holds the same entries and
    stays well formed, and no other Element changes its key or value. *)
Theorem update_key_decrease {L} (q : APQ.t L) (h : APQ.handle)
    (e : APQ.Element L) (newkey : Z) :
  APQ.objects q !! h = Some e ->
  (newkey = APQ._key e -> APQ.update_key h newkey q = (q, Ok tt)) /\
  (newkey < APQ._key e -> queue_wf q -> h ∈ APQ._queue q ->
   exists q',
     APQ.update_key h newkey q = (q', Ok tt) /\ queue_wf q' /\
     (forall h', h' ∈ APQ._queue q' <-> h' ∈ APQ._queue q) /\
     length (APQ._queue q') = length (APQ._queue q) /\
     APQ.get_key h q' = (q', Ok newkey) /\
     APQ.value_of h q' = (q', Ok (APQ._value e)) /\
     forall h' k v, h' <> h -> element_holds h' k v q -> element_holds h' k v q').
Proof.
  intros He. split.
  - intros ->. unfold APQ.update_key.
    unfold bind at 1. rewrite (key_of_live _ _ _ He).
    rewrite Z.gtb_ltb, Z.ltb_irrefl.
    unfold bind at 1. rewrite (key_of_live _ _ _ He).
    by rewrite Z.ltb_irrefl.
  - intros Hlt Hwf Hin.
    destruct (update_key_ok q h e newkey Hwf Hin He) as (q' & Hupd & Hwf' & Hre);
      [lia|].
    destruct Hre as (_ & Hlen & Hmem).
    exists q'. split_and!; try done.
    + eapply element_holds_key.
      replace q' with (APQ.update_key h newkey q).1 by (by rewrite Hupd).
      apply update_key_holds; [done|lia].
    + eapply element_holds_key.
      replace q' with (APQ.update_key h newkey q).1 by (by rewrite Hupd).
      apply update_key_holds; [done|lia].
    + intros h' k v Hne Hh.
      replace q' with (APQ.update_key h newkey q).1 by (by rewrite Hupd).
      by apply keeps_update_key.
Qed.

Section QueueRemove.
Context {L : Type}.
Implicit Types (q : APQ.t L) (h a b : APQ.handle) (e : APQ.Element L).

Lemma length_removelast {A} (l : list A) :
  length (removelast l) = (length l - 1)%nat.
Proof. rewrite removelast_firstn_len, length_take. lia. Qed.

Lemma py_index_end (n : nat) : py_index n (Z.of_nat n) = None.
Proof.
  unfold py_index. destruct (Z.leb_spec 0 (Z.of_nat n)); [|lia].
  by destruct (Z.ltb_spec (Z.of_nat n) (Z.of_nat n)); [lia|].
Qed.

(** The statements of [remove] up to the pop, when every [_index] is a
    position: the Element passed gets the last position as its [_index],
    the queue keeps its order and loses its last entry. *)
Lemma remove_pops_last q h p e hl :
  positions_valid q -> APQ._queue q !! p = Some h ->
  APQ.objects q !! h = Some e ->
  last (APQ._queue q) = Some hl ->
  let e1 := APQ.mkElement (APQ._key e) (APQ._value e)
              (Z.of_nat (length (APQ._queue q)) - 1) in
  exists el1 O,
    <[h := e1]> (APQ.objects q) !! hl = Some el1 /\
    O = <[hl := APQ.mkElement (APQ._key el1) (APQ._value el1)
                  (Z.of_nat (length (APQ._queue q)) - 1)]>
          (<[h := e1]> (APQ.objects q)) /\
    O !! h = Some e1 /\
    APQ.remove h q =
    bind (APQ.index_of h)
      (fun i => bind (APQ.bubble_down i)
         (fun _ => bind (APQ.index_of h)
            (fun i => bind (APQ.bubble_up i) (fun _ => ret hl))))
      (APQ.mkAPQ O (removelast (APQ._queue q))).
Proof.
  intros [Hnd Hpos] Hp He Hlast e1.
  set (n := length (APQ._queue q)) in *.
  assert (p < n)%nat as Hpn by (by eapply lookup_lt_Some).
  assert (APQ._queue q !! (n - 1)%nat = Some hl) as Hl.
  { rewrite last_lookup in Hlast. fold n in Hlast.
    by replace (Init.Nat.pred n) with (n - 1)%nat in Hlast by lia. }
  destruct (Hpos _ _ Hp) as (e0 & He0 & Hidx).
  assert (e0 = e) as -> by congruence.
  set (q1 := APQ.mkAPQ (<[h := e1]> (APQ.objects q)) (APQ._queue q)).
  assert (APQ.objects q1 !! h = Some e1) as He1.
  { simpl. apply list_lookup_insert_eq. by eapply lookup_lt_Some. }
  assert (exists el1, APQ.objects q1 !! hl = Some el1 /\
            <[hl := APQ.mkElement (APQ._key el1) (APQ._value el1) (Z.of_nat n - 1)]>
              (APQ.objects q1) !! h = Some e1) as (el1 & Hel1 & He2).
  { destruct (decide (hl = h)) as [->|Hne].
    - exists e1. split; [done|]. apply list_lookup_insert_eq.
      by eapply lookup_lt_Some.
    - destruct (Hpos _ _ Hl) as (el & Hel & _). exists el. split.
      + simpl. by rewrite list_lookup_insert_ne by done.
      + by rewrite list_lookup_insert_ne by done. }
  set (q2 := APQ.mkAPQ
               (<[hl := APQ.mkElement (APQ._key el1) (APQ._value el1) (Z.of_nat n - 1)]>
                  (APQ.objects q1)) (APQ._queue q)).
  assert (py_index n (Z.of_nat n - 1) = Some (n - 1)%nat) as Hil
    by (apply py_index_last; [lia|by right]).
  assert (py_index n (-1) = Some (n - 1)%nat) as Him
    by (apply py_index_last; [lia|by left]).
  exists el1, (APQ.objects q2). split; [exact Hel1|]. split; [done|].
  split; [exact He2|].
  unfold APQ.remove.
  unfold bind at 1. unfold APQ.len_queue at 1.
  unfold bind at 1. rewrite (index_of_live _ _ _ He), Hidx.
  unfold bind at 1. rewrite (queue_getitem_nat _ _ _ Hp).
  unfold bind at 1. rewrite (set_index_live _ _ _ _ He). fold n e1 q1.
  unfold bind at 1. rewrite (index_of_live _ _ _ He1).
  unfold bind at 1. unfold APQ.len_queue at 1. simpl APQ._queue. fold n.
  unfold bind at 1. rewrite (queue_getitem_at q1 _ (n - 1)%nat hl) by done.
  unfold bind at 1. rewrite (set_index_live _ _ _ _ Hel1). simpl APQ._index.
  change (APQ._queue q1) with (APQ._queue q). fold q2.
  unfold bind at 1. rewrite (queue_getitem_at q2 (-1) (n - 1)%nat hl) by done.
  unfold bind at 1. rewrite (index_of_live q2 _ _ He2).
  unfold bind at 1. simpl APQ._index.
  rewrite (queue_getitem_at q2 _ (n - 1)%nat hl) by done.
  unfold bind at 1. rewrite (index_of_live q2 _ _ He2). simpl APQ._index.
  unfold bind at 1. rewrite (queue_setitem_at q2 _ (n - 1)%nat) by done.
  simpl APQ._queue. simpl APQ.objects. rewrite (list_insert_id _ _ _ Hl).
  unfold bind at 1.
  rewrite (queue_setitem_at (APQ.mkAPQ (APQ.objects q2) (APQ._queue q)) (-1)
             (n - 1)%nat) by done.
  simpl APQ._queue. simpl APQ.objects. rewrite (list_insert_id _ _ _ Hl).
  unfold bind at 1. unfold APQ.queue_pop at 1. simpl APQ._queue. rewrite Hlast.
  reflexivity.
Qed.
End QueueRemove.

(** X7. [remove] beyond a single entry. On a queue of two or more entries
    whose [_index] fields are all right, [remove(element)] ends with
    IndexError, whichever entry is passed: the entry popped is the last one
    of the list, and [element._index], set to the old last position, is
    then used as a position in the shortened list. *)
Theorem remove_fails_on_two_or_more {L} (q : APQ.t L) (h : APQ.handle) :
  positions_valid q -> h ∈ APQ._queue q ->
  (2 <= length (APQ._queue q))%nat ->
  exists q',
    APQ.remove h q = (q', Raise IndexError) /\
    APQ._queue q' = removelast (APQ._queue q) /\
    APQ.index_of h q' = (q', Ok (Z.of_nat (length (APQ._queue q)) - 1)).
Proof.
  intros Hq Hin Hlen.
  apply list_elem_of_lookup in Hin as [p Hp].
  destruct (proj2 Hq _ _ Hp) as (e & He & _).
  set (n := length (APQ._queue q)) in *.
  destruct (lookup_lt_is_Some_2 (APQ._queue q) (n - 1)%nat ltac:(lia)) as [hl Hl].
  assert (last (APQ._queue q) = Some hl) as Hlast.
  { rewrite last_lookup. fold n.
    by replace (Init.Nat.pred n) with (n - 1)%nat by lia. }
  destruct (remove_pops_last q h p e hl Hq Hp He Hlast) as (el1 & O & _ & _ & HO & Hrun).
  fold n in HO.
  set (q3 := APQ.mkAPQ O (removelast (APQ._queue q))) in *.
  assert (length (APQ._queue q3) = (n - 1)%nat) as Hlen3
    by (simpl; by rewrite length_removelast).
  assert (APQ.index_of h q3 = (q3, Ok (Z.of_nat n - 1))) as Hidx
    by (by rewrite (index_of_live q3 _ _ HO)).
  exists q3. split; [|by split].
  rewrite Hrun.
  unfold bind at 1. rewrite Hidx.
  unfold bind at 1. unfold APQ.bubble_down.
  unfold bind at 1. unfold APQ.len_queue at 1.
  cbn [APQ.bubble_down_loop].
  unfold bind at 1. unfold APQ.len_queue at 1. rewrite Hlen3.
  destruct (Z.ltb_spec (2 * (Z.of_nat n - 1) + 1) (Z.of_nat (n - 1))); [lia|].
  unfold ret at 1.
  unfold bind at 1. rewrite Hidx.
  unfold bind at 1. unfold APQ.bubble_up.
  destruct (Z.gtb_spec (Z.of_nat n - 1) 0); [|lia].
  unfold bind at 1. unfold APQ.len_queue at 1. rewrite Hlen3.
  replace (Z.to_nat (Z.of_nat (n - 1)) + 2)%nat with (S (n - 1 + 1))%nat by lia.
  cbn [APQ.bubble_up_loop].
  unfold bind at 1. unfold APQ.queue_lt at 1.
  unfold bind at 1. unfold APQ.queue_getitem at 1, py_getitem. rewrite Hlen3.
  replace (Z.of_nat n - 1) with (Z.of_nat (n - 1)) by lia.
  by rewrite py_index_end.
Qed.

(** X8. [remove] on a single entry. On a queue whose only entry is
    [element], with [_index] 0, [remove(element)] returns the Element and
    leaves the queue empty. *)
Theorem remove_single_entry {L} (q : APQ.t L) (h : APQ.handle) :
  positions_valid q -> APQ._queue q = [h] ->
  APQ.remove h q = (APQ.mkAPQ (APQ.objects q) [], Ok h).
Proof.
  intros Hq Hone.
  assert (APQ._queue q !! 0%nat = Some h) as Hp by (by rewrite Hone).
  destruct (proj2 Hq _ _ Hp) as (e & He & Hidx).
  destruct (remove_pops_last q h 0 e h Hq Hp He) as (el1 & O & Hel1 & HO & HOh & Hrun).
  { by rewrite Hone. }
  rewrite Hone in Hel1, HO, HOh, Hrun. simpl in Hel1, HO, HOh, Hrun.
  change (Z.of_nat 1 - 1) with 0 in *.
  assert (APQ.mkElement (APQ._key e) (APQ._value e) 0 = e) as Heq.
  { destruct e. simpl in *. by subst. }
  rewrite Heq in Hel1, HO. pose proof He as He'.
  unfold APQ.handle in He', Hel1, HO.
  rewrite (list_insert_id _ _ _ He') in Hel1, HO.
  assert (el1 = e) as -> by congruence.
  rewrite Heq in HO. rewrite (list_insert_id _ _ _ He') in HO. subst O.
  rewrite Hrun.
  unfold bind at 1.
  rewrite (index_of_live (APQ.mkAPQ (APQ.objects q) []) h e He), Hidx.
  unfold bind at 1. unfold APQ.bubble_down, bind at 1. simpl.
  unfold bind at 1.
  rewrite (index_of_live (APQ.mkAPQ (APQ.objects q) []) h e He), Hidx.
  reflexivity.
Qed.

(** ** The search, round by round *)

Section DictAppend.
Context {K V : Type} `{EqDecision K}.
Implicit Types (d : dict K V) (k : K) (v : V).

Lemma dict_set_new_app k v d :
  dict_get k d = None -> dict_set k v d = d ++ [(k, v)].
Proof.
  induction d as [|[k' v'] d IH]; simpl; [done|].
  destruct (decide (k = k')); [done|]. intros Hd. by rewrite IH.
Qed.

Lemma dict_get_app k d d' :
  dict_get k (d ++ d') =
  match dict_get k d with Some x => Some x | None => dict_get k d' end.
Proof.
  induction d as [|[k' v'] d IH]; simpl; [done|].
  by destruct (decide (k = k')).
Qed.

Lemma dict_mem_del k k' d :
  dict_mem k d = true -> k <> k' -> dict_mem k (dict_del k' d) = true.
Proof. intros Hm Hne. unfold dict_mem in *. by rewrite dict_get_del_ne. Qed.
End DictAppend.

Section SearchRun.
Context {L G : Type} `{EqDecision L} `{GraphLike L G}.
Context (graph : G) (bound : list L).
Hypothesis bound_edges :
  forall l, l ∈ edge_labels (as_graph graph) -> l ∈ bound.
Hypothesis lookup_ok :
  forall l, l ∈ bound -> exists ov, lookup_label graph l = Ok ov.
Hypothesis incident :
  forall v es e, Graph.get_edges (as_graph graph) v = Some es -> e ∈ es ->
                 is_Some (Edge.opposite e v).

(** A round's first half, statement by statement. *)
Lemma close_min_run f :
  frame_wf bound f -> (1 <= length (APQ._queue (open f)))%nat ->
  exists min vert q' k pred,
    APQ.remove_min (open f) = (q', Ok min) /\
    min ∈ APQ._queue (open f) /\ (min ∉ APQ._queue q') /\
    (forall h, h ∈ APQ._queue q' -> h ∈ APQ._queue (open f) /\ h <> min) /\
    element_holds min k vert (open f) /\
    dict_get vert (locs f) = Some (LocElement min) /\
    dict_get vert (preds f) = Some pred /\
    dict_get vert (closed f) = None /\
    close_min f =
    (mkFrame q' (dict_del vert (locs f))
             (dict_set vert (k, pred) (closed f))
             (dict_del vert (preds f)), Ok (min, vert)).
Proof.
  intros Hf Hlen. destruct f as [q lcs cls prs].
  destruct Hf as [Hq Hlk Hck Hh Hl Hoc Hc]. simpl in *.
  destruct (remove_min_ok q Hq Hlen)
    as (min & q' & Hrem & Hq' & (Hlen' & Hvals) & Hout & Hmem).
  assert (min ∈ APQ._queue q) as Hmin by (apply Hmem; by left).
  destruct (Hh min Hmin) as (vert & Hvert & Hgl & Hgp & Hb).
  apply fmap_Some in Hvert as (em & Hem & Hvert). symmetry in Hvert.
  assert (element_holds min (APQ._key em) vert q) as Hholds.
  { rewrite <- Hvert. by apply element_holds_live. }
  assert (element_holds min (APQ._key em) vert q') as [i' Hholds'].
  { replace q' with (APQ.remove_min q).1 by (by rewrite Hrem).
    by apply keeps_remove_min. }
  unfold dict_mem in Hgp.
  destruct (dict_get vert prs) as [pred|] eqn:Hpred; [|done].
  exists min, vert, q', (APQ._key em), pred.
  split_and!; try done.
  - intros h Hin. split; [apply Hmem; by right|]. intros ->. done.
  - specialize (Hoc vert). unfold dict_mem in Hoc. rewrite Hgl in Hoc.
    specialize (Hoc eq_refl). by destruct (dict_get vert cls).
  - unfold close_min. unfold bind at 1. unfold on_open at 1. simpl.
    rewrite Hrem.
    unfold bind at 1. unfold on_open at 1. simpl.
    rewrite (value_of_live _ _ _ Hholds').
    unfold bind at 1. unfold pop_locs at 1. simpl. rewrite Hgl.
    unfold bind at 1. unfold pop_preds at 1. simpl. rewrite Hpred.
    unfold bind at 1. unfold on_open at 1. simpl.
    rewrite (key_of_live _ _ _ Hholds').
    reflexivity.
Qed.

(** The body of the edge loop, case by case. *)
Lemma relax_cases min vert v es edge f em :
  frame_wf bound f ->
  APQ.objects (open f) !! min = Some em ->
  Graph.get_edges (as_graph graph) v = Some es -> edge ∈ es ->
  exists w,
    Edge.opposite edge v = Some w /\
    let o := Vertex._element w in
    let newcost := APQ._key em + Edge._element edge in
    (dict_mem o (closed f) = true /\ relax min vert v edge f = (f, Ok tt)) \/
    (dict_mem o (closed f) = false /\ dict_mem o (locs f) = false /\
     exists q',
       APQ.add newcost o (open f) = (q', Ok (length (APQ.objects (open f)))) /\
       relax min vert v edge f =
       (mkFrame q' (dict_set o (LocElement (length (APQ.objects (open f)))) (locs f))
                (closed f) (dict_set o (Some vert) (preds f)), Ok tt)) \/
    (dict_mem o (closed f) = false /\
     exists h e,
       dict_get o (locs f) = Some (LocElement h) /\
       h ∈ APQ._queue (open f) /\
       APQ.objects (open f) !! h = Some e /\ APQ._value e = o /\
       ((APQ._key e > newcost /\
         exists q',
           APQ.update_key h newcost (open f) = (q', Ok tt) /\
           relax min vert v edge f =
           (mkFrame q' (locs f) (closed f) (dict_set o (Some vert) (preds f)),
            Ok tt)) \/
        (APQ._key e <= newcost /\ relax min vert v edge f = (f, Ok tt)))).
Proof.
  intros Hf Hmin Hes Hedge.
  destruct (incident v es edge Hes Hedge) as [w Hw].
  exists w. split; [done|]. intros o newcost.
  destruct f as [q lcs cls prs]. destruct Hf as [Hq Hlk Hck Hh Hl Hoc Hc].
  simpl in *.
  destruct (relax min vert v edge (mkFrame q lcs cls prs)) as [f' r] eqn:Hrel.
  unfold relax in Hrel. rewrite Hw in Hrel. simpl in Hrel.
  rewrite bind_ret in Hrel. fold o in Hrel.
  unfold bind in Hrel at 1. unfold in_closed in Hrel at 1. simpl in Hrel.
  destruct (dict_mem o cls) eqn:Hclosed; simpl in Hrel.
  { left. by split. }
  right.
  unfold bind in Hrel at 1. unfold on_open in Hrel at 1. simpl in Hrel.
  rewrite (key_of_live _ _ _ Hmin) in Hrel. fold newcost in Hrel.
  unfold bind in Hrel at 1. unfold in_locs in Hrel at 1. simpl in Hrel.
  destruct (dict_mem o lcs) eqn:Hlocs; simpl in Hrel.
  - right. split; [done|].
    unfold dict_mem in Hlocs.
    destruct (dict_get o lcs) as [x|] eqn:Hget; [|done].
    destruct (Hl o x Hget) as (h & -> & Hin & Hval).
    apply fmap_Some in Hval as (e & He & Hval). symmetry in Hval.
    exists h, e. split_and!; try done.
    unfold bind in Hrel at 1. unfold locs_key in Hrel.
    unfold bind in Hrel at 1. unfold get in Hrel at 1.
    simpl in Hrel. rewrite Hget in Hrel. unfold on_open in Hrel at 1.
    simpl in Hrel. rewrite (key_of_live _ _ _ He) in Hrel.
    destruct (Z.gtb_spec (APQ._key e) newcost) as [Hgt|Hle].
    2: { right. by split. }
    left. split; [lia|].
    unfold bind in Hrel at 1. unfold set_preds in Hrel at 1.
    unfold modify in Hrel. simpl in Hrel.
    unfold locs_update_key in Hrel. unfold bind in Hrel at 1.
    unfold get in Hrel at 1. simpl in Hrel.
    rewrite Hget in Hrel.
    destruct (update_key_ok q h e newcost)
      as (q' & Hupd & _); [done|done|done|lia|].
    exists q'. split; [done|].
    unfold on_open in Hrel. simpl in Hrel. by rewrite Hupd in Hrel.
  - left. split; [done|]. split; [done|].
    unfold bind in Hrel at 1. unfold set_preds in Hrel at 1.
    unfold modify in Hrel. simpl in Hrel.
    destruct (add_ok q newcost o Hq) as (q' & Hadd & _).
    exists q'. split; [done|].
    unfold bind in Hrel at 1. unfold on_open in Hrel at 1. simpl in Hrel.
    rewrite Hadd in Hrel. done.
Qed.

Context (s : L).

Lemma element_holds_inj (q : APQ.t L) h k k' (l l' : L) :
  element_holds h k l q -> element_holds h k' l' q -> k = k' /\ l = l'.
Proof. intros [i Hi] [i' Hi']. rewrite Hi in Hi'. by injection Hi' as -> -> _. Qed.

Lemma element_holds_value (q : APQ.t L) h k (l : L) :
  element_holds h k l q -> (APQ._value <$> APQ.objects q !! h) = Some l.
Proof. intros [i Hi]. by rewrite Hi. Qed.

(** The label of a waiting entry is the key of [locs] for its handle. *)
Lemma frame_wf_label f h k l :
  frame_wf bound f -> h ∈ APQ._queue (open f) ->
  element_holds h k l (open f) ->
  dict_get l (locs f) = Some (LocElement h).
Proof.
  intros Hf Hin Hh. destruct (wf_handles _ _ Hf h Hin) as (l' & Hv & Hg & _).
  apply element_holds_value in Hh. by assert (l' = l) as <- by congruence.
Qed.

Lemma close_min_links f :
  frame_wf bound f -> frame_links graph s f ->
  (1 <= length (APQ._queue (open f)))%nat ->
  exists min vert f1 k pv,
    close_min f = (f1, Ok (min, vert)) /\
    frame_wf bound f1 /\ frame_links graph s f1 /\ vert ∈ bound /\
    dict_get vert (closed f1) = Some (k, pv) /\
    element_holds min k vert (open f1) /\ (min ∉ APQ._queue (open f1)) /\
    length (closed f1) = S (length (closed f)) /\
    (forall l, reached f l -> reached f1 l) /\
    (forall a, dict_mem a (closed f1) = true ->
               a = vert \/ dict_mem a (closed f) = true).
Proof.
  intros Hf Hlinks Hlen.
  destruct (close_min_ok bound f Hf Hlen)
    as (min0 & vert0 & f1 & em & Hclose & Hf1 & _ & Hvert & Hlen1).
  destruct (close_min_run f Hf Hlen)
    as (min & vert & q' & k & pred & Hrem & Hmin & Hout & Hrest & Hholds & Hgl
        & Hgp & Hgc & Hrun).
  rewrite Hrun in Hclose. injection Hclose as <- <- <-.
  assert (forall h k l, element_holds h k l (open f) -> element_holds h k l q')
    as Hkeep.
  { intros h0 k0 l0 Hh. replace q' with (APQ.remove_min (open f)).1
      by (by rewrite Hrem). by apply keeps_remove_min. }
  exists min, vert. eexists. exists k, pred.
  split; [exact Hrun|]. split; [done|].
  rewrite (dict_set_new_app _ _ _ Hgc) in *.
  split; [|split; [done|]]; [|split_and!; simpl].
  - destruct (fl_open _ _ _ Hlinks min Hmin) as (l & k' & p & dp & pp & Hh & Hp & Hc & Hlink).
    destruct (element_holds_inj _ _ _ _ _ _ Hholds Hh) as [<- <-].
    assert (pred = Some p) as -> by congruence.
    split; simpl.
    + by eapply tree_grow; [apply Hlinks|..].
    + intros h Hin. destruct (Hrest h Hin) as [Hin0 Hne].
      destruct (fl_open _ _ _ Hlinks h Hin0)
        as (l & k0 & p0 & dp0 & pp0 & Hh0 & Hp0 & Hc0 & Hlink0).
      exists l, k0, p0, dp0, pp0. split_and!; try done.
      * by apply Hkeep.
      * rewrite dict_get_del_ne; [done|]. intros ->.
        pose proof (frame_wf_label f h k0 vert Hf Hin0 Hh0). congruence.
      * rewrite dict_get_app. by rewrite Hc0.
  - rewrite dict_get_app, Hgc. simpl. by rewrite decide_True.
  - by apply Hkeep.
  - done.
  - done.
  - intros l [Hl|Hl]; unfold reached; simpl.
    + left. unfold dict_mem in *. rewrite dict_get_app.
      by destruct (dict_get l (closed f)).
    + destruct (decide (l = vert)) as [->|Hne].
      * left. unfold dict_mem. rewrite dict_get_app, Hgc. simpl.
        by rewrite decide_True.
      * right. by apply dict_mem_del.
  - intros a. unfold dict_mem. rewrite dict_get_app.
    destruct (dict_get a (closed f)); [by right|]. simpl.
    destruct (decide (a = vert)); [by left|done].
Qed.

Lemma relax_links min vert v es edge f kmin pv :
  frame_wf bound f -> frame_links graph s f ->
  lookup_label graph vert = Ok (Some v) ->
  Graph.get_edges (as_graph graph) v = Some es -> edge ∈ es ->
  dict_get vert (closed f) = Some (kmin, pv) ->
  element_holds min kmin vert (open f) -> min ∉ APQ._queue (open f) ->
  exists f' w,
    relax min vert v edge f = (f', Ok tt) /\
    frame_wf bound f' /\ frame_links graph s f' /\ closed f' = closed f /\
    element_holds min kmin vert (open f') /\ (min ∉ APQ._queue (open f')) /\
    Edge.opposite edge v = Some w /\ reached f' (Vertex._element w) /\
    (forall l, reached f l -> reached f' l).
Proof.
  intros Hf Hlinks Hlook Hes Hedge Hvert Hmin Hout.
  destruct Hmin as [imin Hem].
  destruct (relax_ok graph bound bound_edges incident min vert v es edge f _ Hf Hem Hes Hedge)
    as (f' & Hrel & Hf' & Hc' & _).
  destruct (relax_cases min vert v es edge f _ Hf Hem Hes Hedge)
    as (w & Hw & Hcases).
  simpl in Hcases.
  set (o := Vertex._element w) in *.
  set (newcost := kmin + Edge._element edge) in *.
  assert (link graph vert o (newcost - kmin)) as Hlink.
  { exists v, es, edge, w. split_and!; try done. unfold newcost. lia. }
  exists f', w. split; [done|]. split; [done|].
  change (Vertex._element w) with o. unfold reached.
  destruct Hcases as [[Hclosed Heq]|[(Hclosed & Hlocs & q' & Hadd & Heq)|
    (Hclosed & h & e & Hget & Hin & He & Hval & Hupd)]].
  - rewrite Heq in Hrel. injection Hrel as <-.
    split_and!; try done; [by exists imin|by left].
  - rewrite Heq in Hrel. injection Hrel as <-.
    destruct (add_ok (open f) newcost o (wf_queue _ _ Hf))
      as (q0 & Hadd0 & _ & _ & _ & _ & Hmem).
    rewrite Hadd in Hadd0. injection Hadd0 as <-.
    assert (forall h k l, element_holds h k l (open f) -> element_holds h k l q')
      as Hkeep.
    { intros h0 k0 l0 Hh. replace q' with (APQ.add newcost o (open f)).1
        by (by rewrite Hadd). by apply keeps_add. }
    assert (element_holds (length (APQ.objects (open f))) newcost o q') as Hnew.
    { replace q' with (APQ.add newcost o (open f)).1 by (by rewrite Hadd).
      apply add_holds. }
    split_and!; simpl; try done.
    + split; simpl; [apply Hlinks|].
      intros h0 Hin0. apply Hmem in Hin0 as [Hin0| ->].
      * destruct (fl_open _ _ _ Hlinks h0 Hin0)
          as (l & k0 & p0 & dp0 & pp0 & Hh0 & Hp0 & Hc0 & Hlink0).
        exists l, k0, p0, dp0, pp0. split_and!; try done; [by apply Hkeep|].
        rewrite dict_get_set_ne; [done|]. intros ->.
        pose proof (frame_wf_label f h0 k0 o Hf Hin0 Hh0) as Hlab.
        unfold dict_mem in Hlocs. by rewrite Hlab in Hlocs.
      * exists o, newcost, vert, kmin, pv. split_and!; try done.
        apply dict_get_set_eq.
    + apply Hkeep. by exists imin.
    + intros Hin0. apply Hmem in Hin0 as [Hin0|Heq0]; [done|].
      apply lookup_lt_Some in Hem. lia.
    + right. simpl. rewrite dict_mem_set. by rewrite bool_decide_eq_true_2.
    + intros l [Hl|Hl]; [by left|right]. simpl. rewrite dict_mem_set, Hl.
      apply orb_true_r.
  - destruct Hupd as [(Hgt & q' & Hupd & Heq)|[Hle Heq]].
    2: { rewrite Heq in Hrel. injection Hrel as <-.
         split_and!; try done; [by exists imin|].
         right. unfold dict_mem. by rewrite Hget. }
    rewrite Heq in Hrel. injection Hrel as <-.
    destruct (update_key_ok (open f) h e newcost (wf_queue _ _ Hf) Hin He)
      as (q0 & Hupd0 & _ & (_ & _ & Hmem)); [lia|].
    rewrite Hupd in Hupd0. injection Hupd0 as <-.
    assert (forall h0 k l, h0 <> h -> element_holds h0 k l (open f) ->
                           element_holds h0 k l q') as Hkeep.
    { intros h0 k0 l0 Hne Hh. replace q' with (APQ.update_key h newcost (open f)).1
        by (by rewrite Hupd). by apply keeps_update_key. }
    assert (element_holds h newcost o q') as Hnew.
    { replace q' with (APQ.update_key h newcost (open f)).1 by (by rewrite Hupd).
      rewrite <- Hval. apply update_key_holds; [done|lia]. }
    split_and!; simpl; try done.
    + split; simpl; [apply Hlinks|].
      intros h0 Hin0. apply Hmem in Hin0.
      destruct (decide (h0 = h)) as [->|Hne].
      * exists o, newcost, vert, kmin, pv. split_and!; try done.
        apply dict_get_set_eq.
      * destruct (fl_open _ _ _ Hlinks h0 Hin0)
          as (l & k0 & p0 & dp0 & pp0 & Hh0 & Hp0 & Hc0 & Hlink0).
        exists l, k0, p0, dp0, pp0. split_and!; try done; [by apply Hkeep|].
        rewrite dict_get_set_ne; [done|]. intros ->.
        pose proof (frame_wf_label f h0 k0 o Hf Hin0 Hh0) as Hlab. congruence.
    + apply Hkeep; [|by exists imin]. intros ->. done.
    + intros Hin0. by apply Hmem in Hin0.
    + right. simpl. unfold dict_mem. by rewrite Hget.
Qed.

Lemma for_each_links min vert v es kmin pv : forall edges f,
  frame_wf bound f -> frame_links graph s f ->
  lookup_label graph vert = Ok (Some v) ->
  Graph.get_edges (as_graph graph) v = Some es ->
  (forall e, e ∈ edges -> e ∈ es) ->
  dict_get vert (closed f) = Some (kmin, pv) ->
  element_holds min kmin vert (open f) -> min ∉ APQ._queue (open f) ->
  exists f',
    for_each edges (relax min vert v) f = (f', Ok tt) /\
    frame_wf bound f' /\ frame_links graph s f' /\ closed f' = closed f /\
    (forall l, reached f l -> reached f' l) /\
    (forall e w, e ∈ edges -> Edge.opposite e v = Some w ->
                 reached f' (Vertex._element w)).
Proof.
  induction edges as [|edge edges IH];
    intros f Hf Hlinks Hlook Hes Hsub Hvert Hmin Hout; simpl.
  - exists f. split_and!; try done. intros e w He. by apply elem_of_nil in He.
  - destruct (relax_links min vert v es edge f kmin pv)
      as (f1 & w1 & Hrel & Hf1 & Hl1 & Hc1 & Hmin1 & Hout1 & Hw1 & Hr1 & Hmono1);
      try done.
    { apply Hsub, elem_of_cons. by left. }
    destruct (IH f1) as (f2 & Hrest & Hf2 & Hl2 & Hc2 & Hmono2 & Hall2); try done.
    { intros e He. apply Hsub, elem_of_cons. by right. }
    { by rewrite Hc1. }
    exists f2. unfold bind. rewrite Hrel. split_and!; try done.
    + congruence.
    + intros l Hl. by apply Hmono2, Hmono1.
    + intros e w He Hw. apply elem_of_cons in He as [->|He].
      * apply Hmono2. by assert (w = w1) as -> by congruence.
      * by eapply Hall2.
Qed.

Lemma scan_links min vert f kmin pv :
  frame_wf bound f -> frame_links graph s f -> vert ∈ bound ->
  dict_get vert (closed f) = Some (kmin, pv) ->
  element_holds min kmin vert (open f) -> min ∉ APQ._queue (open f) ->
  exists f',
    scan_edges graph min vert f = (f', Ok tt) /\
    frame_wf bound f' /\ frame_links graph s f' /\ closed f' = closed f /\
    (forall l, reached f l -> reached f' l) /\
    (forall b c, link graph vert b c -> reached f' b).
Proof.
  intros Hf Hlinks Hbound Hvert Hmin Hout.
  destruct (lookup_ok vert Hbound) as [ov Hov].
  unfold scan_edges, bind. rewrite Hov.
  destruct ov as [v|].
  2: { exists f. split_and!; try done.
       intros b c (v & es & e & w & Hlook & _). congruence. }
  destruct (Graph.get_edges (as_graph graph) v) as [es|] eqn:Hes.
  2: { exists f. split_and!; try done.
       intros b c (v' & es & e & w & Hlook & Hes' & _).
       assert (v' = v) as -> by congruence. congruence. }
  destruct (for_each_links min vert v es kmin pv es f)
    as (f' & Hrun & Hf' & Hl' & Hc' & Hmono & Hall); try done.
  exists f'. split_and!; try done.
  intros b c (v' & es' & e & w & Hlook & Hes' & He & Hw & <- & _).
  assert (v' = v) as -> by congruence.
  assert (es' = es) as -> by congruence.
  by eapply Hall.
Qed.

Lemma visit_links f :
  frame_wf bound f -> frame_links graph s f -> frontier graph f ->
  (1 <= length (APQ._queue (open f)))%nat ->
  exists f',
    visit graph f = (f', Ok tt) /\
    frame_wf bound f' /\ frame_links graph s f' /\ frontier graph f' /\
    length (closed f') = S (length (closed f)).
Proof.
  intros Hf Hlinks Hfront Hlen.
  destruct (close_min_links f Hf Hlinks Hlen)
    as (min & vert & f1 & k & pv & Hclose & Hf1 & Hl1 & Hbound & Hvert & Hmin
        & Hout & Hlen1 & Hmono1 & Hnew1).
  destruct (scan_links min vert f1 k pv Hf1 Hl1 Hbound Hvert Hmin Hout)
    as (f2 & Hscan & Hf2 & Hl2 & Hc2 & Hmono2 & Hall2).
  exists f2. split.
  { unfold visit, bind. by rewrite Hclose. }
  split_and!; try done; [|by rewrite Hc2].
  intros a b c Ha Hlink. rewrite Hc2 in Ha.
  destruct (Hnew1 a Ha) as [->|Ha0].
  - by eapply Hall2.
  - apply Hmono2, Hmono1. by eapply Hfront.
Qed.

Lemma loop_links fuel : forall f f',
  frame_wf bound f -> frame_links graph s f -> frontier graph f ->
  dijkstra_loop fuel graph f = (f', Ok tt) ->
  frame_wf bound f' /\ frame_links graph s f' /\ frontier graph f' /\
  APQ._queue (open f') = [] /\
  (length (closed f') < length (closed f) + fuel)%nat.
Proof.
  induction fuel as [|fuel IH]; intros f f' Hf Hlinks Hfront Hrun; [done|].
  simpl in Hrun. unfold bind in Hrun at 1.
  unfold on_open in Hrun at 1. unfold APQ.len_queue in Hrun at 1.
  destruct (Z.gtb_spec (Z.of_nat (length (APQ._queue (open f)))) 0) as [Hpos|Hzero].
  - destruct (visit_links f Hf Hlinks Hfront) as (f1 & Hvisit & Hf1 & Hl1 & Hfr1 & Hlen1);
      [lia|].
    assert (visit graph
              (mkFrame (open f) (locs f) (closed f) (preds f)) = (f1, Ok tt))
      as Hvisit' by (by destruct f).
    unfold bind in Hrun. rewrite Hvisit' in Hrun.
    destruct (IH f1 f' Hf1 Hl1 Hfr1 Hrun) as (? & ? & ? & ? & Hlen').
    split_and!; try done. lia.
  - injection Hrun as <-.
    assert (mkFrame (open f) (locs f) (closed f) (preds f) = f) as ->
      by (by destruct f).
    split_and!; try done; [|lia]. apply nil_length_inv. lia.
Qed.

(** The table [dijkstra] returns. *)
Lemma dijkstra_links fuel table :
  s ∈ bound -> dijkstra fuel graph s = Ok table ->
  search_tree graph s table /\
  (forall a b c, dict_mem a table = true -> link graph a b c ->
                 dict_mem b table = true) /\
  NoDup (dict_keys table) /\
  (forall l, dict_mem l table = true -> l ∈ bound) /\
  (length table < fuel)%nat.
Proof.
  intros Hs Hrun. destruct fuel as [|fuel]; [done|].
  unfold dijkstra in Hrun. rewrite dijkstra_first_round in Hrun.
  set (f2 := mkFrame (APQ.mkAPQ [APQ.mkElement 0 s 0] []) [] [(s, (0, None))] [])
    in *.
  assert (frame_wf bound f2) as Hf2.
  { split; simpl.
    - split; [apply NoDup_nil_2|]. intros p h Hp. done.
    - apply NoDup_nil_2.
    - apply NoDup_singleton.
    - intros h Hh. by apply elem_of_nil in Hh.
    - intros l x Hx. done.
    - intros l Hl. done.
    - intros l. unfold dict_mem. simpl.
      destruct (decide (l = s)) as [->|]; [|done]. done. }
  assert (frame_links graph s f2) as Hl2.
  { split; simpl; [apply tree_root|]. intros h Hh. by apply elem_of_nil in Hh. }
  destruct (scan_links 0%nat s f2 0 None) as (f3 & Hscan & Hf3 & Hl3 & Hc3 & _ & Hall3);
    try done.
  { simpl. by rewrite decide_True. }
  { by exists 0. }
  { simpl. apply not_elem_of_nil. }
  unfold bind in Hrun. rewrite Hscan in Hrun.
  destruct (dijkstra_loop fuel graph f3) as [f4 [[]| |]] eqn:Hloop; [|done..].
  injection Hrun as <-.
  assert (frontier graph f3) as Hfr3.
  { intros a b c Ha Hlink. rewrite Hc3 in Ha. unfold dict_mem in Ha. simpl in Ha.
    destruct (decide (a = s)) as [->|]; [|done]. by eapply Hall3. }
  destruct (loop_links fuel f3 f4 Hf3 Hl3 Hfr3 Hloop)
    as (Hf4 & Hl4 & Hfr4 & Hq4 & Hlen4).
  split_and!.
  - apply Hl4.
  - intros a b c Ha Hlink. destruct (Hfr4 a b c Ha Hlink) as [Hb|Hb]; [done|].
    unfold dict_mem in Hb.
    destruct (dict_get b (locs f4)) as [x|] eqn:Hx; [|done].
    destruct (wf_locs _ _ Hf4 b x Hx) as (h & _ & Hin & _).
    rewrite Hq4 in Hin. by apply elem_of_nil in Hin.
  - apply Hf4.
  - apply Hf4.
  - rewrite Hc3 in Hlen4. simpl in Hlen4. lia.
Qed.
End SearchRun.

(** ** The table of the search and the report of [sp] *)

Section TreeFacts.
Context {L G : Type} `{EqDecision L} `{GraphLike L G}.
Context (graph : G) (s : L).
Implicit Types (c table : dict L (Z * option L)).

Lemma search_tree_source c :
  search_tree graph s c -> dict_get s c = Some (0, None).
Proof.
  induction 1 as [|c l d p dp pp _ IH Hl Hp Hlink]; simpl.
  - by rewrite decide_True.
  - rewrite dict_get_app. by rewrite IH.
Qed.

Lemma search_tree_entry c l d p :
  search_tree graph s c -> dict_get l c = Some (d, p) ->
  match p with
  | None => l = s /\ d = 0
  | Some p' => l <> s /\ exists dp pp, dict_get p' c = Some (dp, pp) /\
                                       link graph p' l (d - dp)
  end.
Proof.
  intros Htree. revert l d p.
  induction Htree as [|c l0 d0 p0 dp0 pp0 Htree IH Hl0 Hp0 Hlink0]; intros l d p.
  - simpl. destruct (decide (l = s)) as [->|]; [|done]. by intros [= <- <-].
  - rewrite dict_get_app.
    destruct (dict_get l c) as [x|] eqn:Hget.
    + intros [= ->]. specialize (IH l d p Hget). destruct p as [p'|]; [|done].
      destruct IH as (Hne & dp & pp & Hp' & Hlink). split; [done|].
      exists dp, pp. split; [|done]. rewrite dict_get_app. by rewrite Hp'.
    + simpl. destruct (decide (l = l0)) as [->|]; [|done]. intros [= <- <-].
      split.
      * intros ->. rewrite (search_tree_source c Htree) in Hl0. done.
      * exists dp0, pp0. split; [|done]. rewrite dict_get_app. by rewrite Hp0.
Qed.

Lemma search_tree_walk c l d p :
  search_tree graph s c -> dict_get l c = Some (d, p) -> walk graph s l d.
Proof.
  intros Htree. revert l d p.
  induction Htree as [|c l0 d0 p0 dp0 pp0 Htree IH Hl0 Hp0 Hlink0]; intros l d p.
  - simpl. destruct (decide (l = s)) as [->|]; [|done]. intros [= <- <-].
    apply walk_here.
  - rewrite dict_get_app.
    destruct (dict_get l c) as [x|] eqn:Hget.
    + intros [= ->]. by eapply IH.
    + simpl. destruct (decide (l = l0)) as [->|]; [|done]. intros [= <- <-].
      replace d0 with (dp0 + (d0 - dp0)) by lia.
      eapply walk_on; [|done]. by eapply IH.
Qed.

Lemma walk_closed table l d :
  dict_mem s table = true ->
  (forall a b x, dict_mem a table = true -> link graph a b x ->
                 dict_mem b table = true) ->
  walk graph s l d -> dict_mem l table = true.
Proof.
  intros Hs Hclosed. induction 1 as [|b b' d e _ IH Hlink]; [done|].
  by eapply Hclosed.
Qed.

(** The way back from a label of a search tree to the source, with at
    most as many steps as the tree has entries. *)
Lemma search_tree_way_back c :
  search_tree graph s c ->
  forall rest l, dict_mem l c = true ->
    exists way, way_back (c ++ rest) s l way /\ (length way < length c)%nat /\
                forall x, x ∈ way -> dict_mem x.1 c = true.
Proof.
  induction 1 as [|c l0 d0 p0 dp0 pp0 Htree IH Hl0 Hp0 Hlink0]; intros rest l.
  - unfold dict_mem. simpl. destruct (decide (l = s)) as [->|]; [|done].
    intros _. exists []. split; [apply way_done|]. split; [simpl; lia|].
    intros x Hx. by apply elem_of_nil in Hx.
  - rewrite <- app_assoc. unfold dict_mem at 1. rewrite dict_get_app.
    destruct (dict_get l c) as [x|] eqn:Hget.
    + intros _. destruct (IH ([(l0, (d0, Some p0))] ++ rest) l) as (way & Hway & Hlen & Hin).
      { unfold dict_mem. by rewrite Hget. }
      exists way. split; [done|]. split; [rewrite length_app; simpl; lia|].
      intros y Hy. unfold dict_mem. rewrite dict_get_app.
      specialize (Hin y Hy). unfold dict_mem in Hin.
      by destruct (dict_get y.1 c).
    + simpl. destruct (decide (l = l0)) as [->|]; [|done]. intros _.
      destruct (IH ([(l0, (d0, Some p0))] ++ rest) p0) as (way & Hway & Hlen & Hin).
      { unfold dict_mem. by rewrite Hp0. }
      exists ((l0, d0) :: way). split.
      * eapply way_step; [| |done].
        -- intros ->. rewrite (search_tree_source c Htree) in Hl0. done.
        -- rewrite dict_get_app, Hl0. simpl. by rewrite decide_True.
      * split; [rewrite length_app; simpl; lia|].
        intros y Hy. unfold dict_mem. rewrite dict_get_app.
        apply elem_of_cons in Hy as [->|Hy].
        -- simpl. rewrite Hl0. simpl. by rewrite decide_True.
        -- specialize (Hin y Hy). unfold dict_mem in Hin.
           by destruct (dict_get y.1 c).
Qed.
End TreeFacts.

Section TablesOfGraphs.
Context {L C : Type} `{EqDecision L}.

Lemma dijkstra_graph_links (g : Graph.t L) s fuel table :
  graph_wf g -> dijkstra fuel g s = Ok table ->
  search_tree g s table /\
  (forall a b c, dict_mem a table = true -> link g a b c ->
                 dict_mem b table = true) /\
  NoDup (dict_keys table) /\
  (forall l, dict_mem l table = true -> l ∈ s :: edge_labels g) /\
  (length table < fuel)%nat.
Proof.
  intros Hg Hrun.
  apply (dijkstra_links g (s :: edge_labels g)); try done.
  - intros l Hl. apply elem_of_cons. by right.
  - intros l _. simpl. eauto.
  - intros v0 es e. by apply graph_wf_incident.
  - apply elem_of_cons. by left.
Qed.

Lemma dijkstra_route_map_links (m : RouteMap.t L C) s fuel table :
  built m -> dijkstra fuel m s = Ok table ->
  search_tree m s table /\
  (forall a b c, dict_mem a table = true -> link m a b c ->
                 dict_mem b table = true) /\
  NoDup (dict_keys table) /\
  (forall l, dict_mem l table = true -> l ∈ s :: edge_labels (RouteMap.graph m)) /\
  (length table < fuel)%nat /\
  dict_mem s (RouteMap._findvertex m) = true.
Proof.
  intros Hm Hrun. pose proof (built_graph_wf m Hm) as Hg.
  assert (dict_mem s (RouteMap._findvertex m) = true) as Hs.
  { destruct (dict_mem s (RouteMap._findvertex m)) eqn:Hs; [done|].
    destruct fuel as [|fuel]; [done|].
    by rewrite dijkstra_unknown_source in Hrun. }
  split_and!; [..|done];
    apply (dijkstra_links m (s :: edge_labels (RouteMap.graph m)) ) in Hrun;
    try apply Hrun.
  all: try (intros l Hl; apply elem_of_cons; by right).
  all: try (intros v0 es e; by apply graph_wf_incident).
  all: try (apply elem_of_cons; by left).
  all: intros l Hl; simpl; unfold RouteMap.get_vertex_by_label;
    assert (dict_mem l (RouteMap._findvertex m) = true) as Hmem;
    [apply elem_of_cons in Hl as [->|Hl]; [done|];
     destruct (edge_labels_vertices _ l Hg Hl) as (v & Hv & <-);
     by apply built_index_complete|];
    unfold dict_mem in Hmem;
    destruct (dict_get l (RouteMap._findvertex m)); [eauto|done].
Qed.
End TablesOfGraphs.

Section RouteReport.
Context {L C : Type} `{EqDecision L}.
Implicit Types (m : RouteMap.t L C) (table : dict L (Z * option L)).

Lemma add_vertex_coords_complete m element c1 c2 :
  coords_complete m -> coords_complete (RouteMap.add_vertex m element c1 c2).1.
Proof.
  intros IH l v. simpl. rewrite dict_get_set, dict_mem_set.
  destruct (decide (l = element)) as [->|Hne].
  - intros [= <-]. by rewrite bool_decide_eq_true_2.
  - intros Hl. rewrite (IH l v Hl). apply orb_true_r.
Qed.

Lemma built_coords_complete m : built m -> coords_complete m.
Proof.
  induction 1 as [|m element c1 c2 _ IH|m element _ IH|m v w element oneway _ IH].
  - intros l v. done.
  - by apply add_vertex_coords_complete.
  - unfold RouteMap.add_vertex_if_new.
    destruct (Graph.first_with_label _ _); [done|].
    by apply add_vertex_coords_complete.
  - unfold RouteMap.add_edge.
    by destruct (Graph.add_edge _ _ _ _ _) as [g' r].
Qed.

(** The loop of [sp] along a way back. *)
Lemma sp_loop_way_back m table v way : forall w,
  way_back table v w way ->
  (forall x, x ∈ way ->
     exists vtx, dict_get x.1 (RouteMap._findvertex m) = Some vtx /\
                 dict_mem vtx (RouteMap._vertexcoords m) = true) ->
  forall fuel printed, (length way < fuel)%nat ->
  exists rows,
    sp_loop fuel m table v (Some w) printed = (printed ++ rows, Ok tt) /\
    Forall2 (fun (r : row) x =>
               element r = x.1 /\ cost r = x.2 /\
               exists vtx, RouteMap.get_vertex_by_label m x.1 = Ok vtx /\
                 dict_get vtx (RouteMap._vertexcoords m)
                 = Some (latitude r, longitude r))
            rows way.
Proof.
  intros w Hway. induction Hway as [|w d p rest Hne Hget Hway IH];
    intros Hrows fuel printed Hfuel.
  - destruct fuel as [|fuel]; [lia|]. simpl.
    rewrite bool_decide_eq_true_2 by done.
    exists []. rewrite app_nil_r. split; [done|]. constructor.
  - destruct fuel as [|fuel]; [simpl in Hfuel; lia|]. simpl.
    rewrite bool_decide_eq_false_2 by congruence.
    destruct (Hrows (w, d)) as (vtx & Hvtx & Hcoords);
      [apply elem_of_cons; by left|]. simpl in Hvtx.
    unfold RouteMap.get_vertex_by_label at 1. rewrite Hvtx.
    unfold dict_mem in Hcoords.
    destruct (dict_get vtx (RouteMap._vertexcoords m)) as [[lat lon]|] eqn:Hc;
      [|done].
    rewrite Hget.
    destruct (IH) with (fuel := fuel) (printed := printed ++ [mkRow lat lon w d])
      as (rows & Hrun & Hall).
    { intros x Hx. apply Hrows, elem_of_cons. by right. }
    { simpl in Hfuel. lia. }
    exists (mkRow lat lon w d :: rows). split.
    + rewrite Hrun. by rewrite <- app_assoc.
    + constructor; [|done]. simpl. split_and!; try done.
      exists vtx. unfold RouteMap.get_vertex_by_label. by rewrite Hvtx.
Qed.

Lemma sp_table_way_back m fuel v w table :
  built m -> dijkstra fuel m v = Ok table -> dict_mem w table = true ->
  exists way rows,
    sp fuel m v w = (rows, Ok tt) /\ way_back table v w way /\
    Forall2 (fun (r : row) x =>
               element r = x.1 /\ cost r = x.2 /\
               exists vtx, RouteMap.get_vertex_by_label m x.1 = Ok vtx /\
                 dict_get vtx (RouteMap._vertexcoords m)
                 = Some (latitude r, longitude r))
            rows way.
Proof.
  intros Hm Hrun Hw.
  destruct (dijkstra_route_map_links m v fuel table Hm Hrun)
    as (Htree & _ & _ & Hbound & Hlen & Hv).
  destruct (search_tree_way_back m v table Htree [] w Hw) as (way & Hway & Hshort & Hin).
  rewrite app_nil_r in Hway.
  destruct (sp_loop_way_back m table v way w Hway) with (fuel := fuel) (printed := @nil (row (L := L) (C := C)))
    as (rows & Hloop & Hrows).
  { intros x Hx. specialize (Hin x Hx). apply Hbound in Hin.
    assert (dict_mem x.1 (RouteMap._findvertex m) = true) as Hmem.
    { apply elem_of_cons in Hin as [->|Hin]; [done|].
      destruct (edge_labels_vertices _ _ (built_graph_wf m Hm) Hin) as (vtx & Hvtx & <-).
      by apply built_index_complete. }
    unfold dict_mem in Hmem.
    destruct (dict_get x.1 (RouteMap._findvertex m)) as [vtx|] eqn:Hvtx; [|done].
    exists vtx. split; [done|]. by eapply built_coords_complete. }
  { lia. }
  exists way, rows. split; [|done]. unfold sp. by rewrite Hrun.
Qed.
End RouteReport.

(** X9. The distances of [dijkstra] are costs of walks. In the table
    [dijkstra] returns, for a graph built by calls and for a route map
    built by its methods, the source has distance 0 and no predecessor;
    every other entry names a predecessor that is in the table too, its
    distance is the predecessor's plus the element of an edge that leads
    from the vertex found for the predecessor to a vertex with the entry's
    label; so every distance is the cost of a walk from the source. *)
Theorem dijkstra_distances_are_walk_costs {L C} `{EqDecision L}
    (cs : list (call (L := L))) (m : RouteMap.t L C) (fuel : nat) (s l : L)
    (table : dict L (Z * option L)) (d : Z) (p : option L) :
  (dijkstra fuel (now (play start_history cs)) s = Ok table ->
   dict_get l table = Some (d, p) ->
   walk (now (play start_history cs)) s l d /\
   match p with
   | None => l = s /\ d = 0
   | Some p' => l <> s /\ exists dp pp,
       dict_get p' table = Some (dp, pp) /\
       link (now (play start_history cs)) p' l (d - dp)
   end) /\
  (built m -> dijkstra fuel m s = Ok table ->
   dict_get l table = Some (d, p) ->
   walk m s l d /\
   match p with
   | None => l = s /\ d = 0
   | Some p' => l <> s /\ exists dp pp,
       dict_get p' table = Some (dp, pp) /\ link m p' l (d - dp)
   end).
Proof.
  split.
  - intros Hrun Hl.
    destruct (dijkstra_graph_links (now (play start_history cs)) s fuel table)
      as (Htree & _); [apply play_graph_wf, graph_wf_init|done|].
    split; [by eapply search_tree_walk|by apply (search_tree_entry _ s table)].
  - intros Hm Hrun Hl.
    destruct (dijkstra_route_map_links m s fuel table Hm Hrun) as (Htree & _).
    split; [by eapply search_tree_walk|by apply (search_tree_entry _ s table)].
Qed.

(** X10. [dijkstra] closes what walks reach. The labels in the table are
    exactly the labels some walk from the source ends at, a walk going
    from a label to the other end of an edge of the vertex the graph finds
    for that label. *)
Theorem dijkstra_closes_what_walks_reach {L C} `{EqDecision L}
    (cs : list (call (L := L))) (m : RouteMap.t L C) (fuel : nat) (s l : L)
    (table : dict L (Z * option L)) :
  (dijkstra fuel (now (play start_history cs)) s = Ok table ->
   (dict_mem l table = true <->
    exists d, walk (now (play start_history cs)) s l d)) /\
  (built m -> dijkstra fuel m s = Ok table ->
   (dict_mem l table = true <-> exists d, walk m s l d)).
Proof.
  split.
  - intros Hrun.
    destruct (dijkstra_graph_links (now (play start_history cs)) s fuel table)
      as (Htree & Hclosed & _); [apply play_graph_wf, graph_wf_init|done|].
    split.
    + unfold dict_mem. destruct (dict_get l table) as [[d p]|] eqn:Hl; [|done].
      intros _. exists d. by eapply search_tree_walk.
    + intros [d Hwalk].
      apply (walk_closed (now (play start_history cs)) s table l d);
        [|exact Hclosed|exact Hwalk].
      unfold dict_mem. by rewrite (search_tree_source _ s table Htree).
  - intros Hm Hrun.
    destruct (dijkstra_route_map_links m s fuel table Hm Hrun)
      as (Htree & Hclosed & _).
    split.
    + unfold dict_mem. destruct (dict_get l table) as [[d p]|] eqn:Hl; [|done].
      intros _. exists d. by eapply search_tree_walk.
    + intros [d Hwalk].
      apply (walk_closed m s table l d); [|exact Hclosed|exact Hwalk].
      unfold dict_mem. by rewrite (search_tree_source _ s table Htree).
Qed.

(** X11. [sp] to a label of the table. On a route map built by its methods,
    when the destination is in the table of the search, [sp] returns
    normally; the lines it prints are the labels on the way from the
    destination back to the source along the predecessors of the table, the
    source left out, each with the coordinates of its vertex and its
    distance. With fuel for the rounds of the search, this holds of every
    destination a walk from the source reaches. *)
Theorem sp_prints_the_way_back {L C} `{EqDecision L}
    (m : RouteMap.t L C) (fuel : nat) (v w : L) :
  built m ->
  (forall table, dijkstra fuel m v = Ok table -> dict_mem w table = true ->
   exists way rows,
     sp fuel m v w = (rows, Ok tt) /\ way_back table v w way /\
     Forall2 (fun (r : row) x =>
                element r = x.1 /\ cost r = x.2 /\
                exists vtx, RouteMap.get_vertex_by_label m x.1 = Ok vtx /\
                  dict_get vtx (RouteMap._vertexcoords m)
                  = Some (latitude r, longitude r))
             rows way) /\
  (dict_mem v (RouteMap._findvertex m) = true ->
   (length (edge_labels (RouteMap.graph m)) + 2 <= fuel)%nat ->
   forall d, walk m v w d -> exists rows, sp fuel m v w = (rows, Ok tt)).
Proof.
  intros Hm. split.
  - intros table. by apply sp_table_way_back.
  - intros Hv Hfuel d Hwalk.
    destruct (dijkstra_route_map_total m v fuel Hm Hv Hfuel) as [table Hrun].
    destruct (dijkstra_route_map_links m v fuel table Hm Hrun)
      as (Htree & Hclosed & _).
    destruct (sp_table_way_back m fuel v w table Hm Hrun) as (way & rows & Hsp & _).
    { apply (walk_closed m v table w d); [|exact Hclosed|exact Hwalk].
      unfold dict_mem. by rewrite (search_tree_source _ v table Htree). }
    by exists rows.
Qed.

(** ** Vertices, lookups and the source of a search *)

Section GraphMore.
Context {L : Type} `{EqDecision L}.
Implicit Types (g : Graph.t L) (v w a b : Vertex.t L) (e : Edge.t L).

Lemma first_with_label_app element (vs ws : list (Vertex.t L)) :
  Graph.first_with_label element (vs ++ ws) =
  match Graph.first_with_label element vs with
  | Some v => Some v
  | None => Graph.first_with_label element ws
  end.
Proof.
  induction vs as [|v vs IH]; simpl; [done|]. by destruct (decide _).
Qed.

Lemma edges_add_vertex g element :
  Vertex.mk (Graph.next_id g) element ∉ Graph.vertices g ->
  Graph.edges (Graph.add_vertex g element).1 = Graph.edges g.
Proof.
  intros Hnew.
  assert (forall x, Graph.adjacency (Graph.add_vertex g element).1 x
                    = Graph.adjacency g x) as Hsame
    by (intros x; by apply adjacency_add_vertex).
  assert (Graph.adjacency g (Vertex.mk (Graph.next_id g) element) = []) as Hadj.
  { unfold Graph.adjacency. apply dict_get_None_keys in Hnew.
    unfold Graph.vertices in Hnew. by rewrite Hnew. }
  unfold Graph.edges.
  change (dict_keys (Graph._structure (Graph.add_vertex g element).1))
    with (Graph.vertices (Graph.add_vertex g element).1).
  rewrite (proj1 (counts_add_vertex g element Hnew)).
  rewrite flat_map_app. simpl. rewrite Hsame, Hadj. simpl.
  rewrite !app_nil_r. apply flat_map_ext. intros x. by rewrite Hsame.
Qed.

Lemma get_edges_members g v adj :
  dict_get v (Graph._structure g) = Some adj ->
  exists es,
    Graph.get_edges g v = Some es /\ length es = length adj /\
    forall e, e ∈ es <-> exists w, Graph.get_edge g v w = Some e.
Proof.
  intros Hadj. unfold Graph.get_edges, dict_mem, Graph.adjacency. rewrite Hadj.
  simpl. eexists. split; [reflexivity|]. split.
  - clear Hadj. unfold dict_keys.
    assert (forall done_ : dict (Vertex.t L) (Edge.t L),
              length (flat_map (fun w => match dict_get w (done_ ++ adj) with
                                         | Some e => [e]
                                         | None => []
                                         end) (map fst adj)) = length adj) as Hlen.
    { induction adj as [|[w e] adj IH]; intros done_; simpl; [done|].
      rewrite length_app.
      replace (done_ ++ (w, e) :: adj) with ((done_ ++ [(w, e)]) ++ adj)
        by (by rewrite <- app_assoc).
      rewrite IH.
      rewrite <- app_assoc. simpl.
      assert (is_Some (dict_get w (done_ ++ (w, e) :: adj))) as [e' ->]; [|done].
      rewrite dict_get_app. destruct (dict_get w done_); [eauto|].
      simpl. rewrite decide_True by done. eauto. }
    apply (Hlen []).
  - intros e. rewrite list_elem_of_In, in_flat_map. split.
    + intros (w & Hw & He). exists w. rewrite get_edge_lookup, Hadj.
      destruct (dict_get w adj) as [e'|]; [|done]. by destruct He as [->|[]].
    + intros [w Hw]. rewrite get_edge_lookup, Hadj in Hw. exists w. split.
      * apply list_elem_of_In. by eapply dict_get_Some_keys.
      * rewrite Hw. by left.
Qed.
End GraphMore.

(** X12. [add_vertex] on a graph built by calls. The vertex returned
    carries the element given and is a new object, also when a vertex with
    that element exists already; it goes last in the vertex order, the
    number of vertices grows by one, the new vertex has no edges and degree
    0, and no edge of the graph changes. *)
Theorem add_vertex_adds_isolated_vertex {L} `{EqDecision L}
    (cs : list (call (L := L))) (element : L) :
  let g := now (play start_history cs) in
  let g' := (Graph.add_vertex g element).1 in
  let v := (Graph.add_vertex g element).2 in
  Vertex.element v = element /\
  (v ∉ Graph.vertices g) /\
  Graph.vertices g' = Graph.vertices g ++ [v] /\
  Graph.num_vertices g' = S (Graph.num_vertices g) /\
  Graph.get_edges g' v = Some [] /\
  Graph.degree g' v = Ok 0%nat /\
  (forall a b, Graph.get_edge g' a b = Graph.get_edge g a b) /\
  Graph.edges g' = Graph.edges g /\
  Graph.num_edges g' = Graph.num_edges g.
Proof.
  intros g g' v.
  assert (graph_wf g) as Hg by apply play_graph_wf, graph_wf_init.
  pose proof (fresh_vertex g element Hg) as Hnew.
  destruct (counts_add_vertex g element Hnew) as (Hvs & Hsz & _).
  assert (dict_get v (Graph._structure g') = Some []) as Hv
    by apply dict_get_set_eq.
  split_and!; try done.
  - unfold Graph.num_vertices. apply dict_set_length_new.
    by apply dict_get_None_keys.
  - unfold Graph.get_edges, dict_mem, Graph.adjacency.
    unfold v, g' in Hv |- *. by rewrite Hv.
  - unfold Graph.degree. unfold v, g' in Hv |- *. by rewrite Hv.
  - intros a b. apply get_edge_add_vertex. apply Hg.
  - by apply edges_add_vertex.
  - rewrite !num_edges_sizes. unfold g'. by rewrite Hsz.
Qed.


(** X14. [get_edges] and [degree]. For an object that is no vertex of the
    graph [get_edges] returns None and [degree] raises KeyError; for a
    vertex, [get_edges] returns exactly the edges [get_edge(v, w)] returns
    for some [w], and [degree] is their number. *)
Theorem degree_counts_get_edges {L} `{EqDecision L}
    (g : Graph.t L) (v : Vertex.t L) :
  (v ∉ Graph.vertices g ->
   Graph.get_edges g v = None /\ Graph.degree g v = Raise KeyError) /\
  (v ∈ Graph.vertices g ->
   exists es,
     Graph.get_edges g v = Some es /\ Graph.degree g v = Ok (length es) /\
     forall e, e ∈ es <-> exists w, Graph.get_edge g v w = Some e).
Proof.
  split.
  - intros Hv. apply dict_get_None_keys in Hv.
    unfold Graph.get_edges, Graph.degree, dict_mem. by rewrite Hv.
  - intros Hv. apply vertex_in_graph in Hv. unfold dict_mem in Hv.
    destruct (dict_get v (Graph._structure g)) as [adj|] eqn:Hadj; [|done].
    destruct (get_edges_members g v adj Hadj) as (es & Hes & Hlen & Hmem).
    exists es. split; [done|]. split; [|done].
    unfold Graph.degree. by rewrite Hadj, Hlen.
Qed.

(** X15. [add_edge] with a flag that is neither True nor False. Between
    two different vertices of the graph, such a call creates and returns
    an Edge object and stores it nowhere: the adjacency maps are the ones
    from before the call. *)
Theorem add_edge_other_flag_stores_nothing {L} `{EqDecision L}
    (g : Graph.t L) (v w : Vertex.t L) (element : Z) (oneway : pyobj) :
  v ∈ Graph.vertices g -> w ∈ Graph.vertices g -> v <> w ->
  is_True oneway = false -> is_False oneway = false ->
  exists g' e,
    Graph.add_edge g v w element oneway = (g', Some e) /\
    Edge.vertices e = (v, w) /\ Edge.element e = element /\
    Graph._structure g' = Graph._structure g /\
    (forall a b, Graph.get_edge g' a b = Graph.get_edge g a b) /\
    Graph.edges g' = Graph.edges g.
Proof.
  intros Hv Hw Hne Ht Hf.
  destruct (add_edge_present g v w element oneway Hv Hw) as (g' & Hadd & _).
  exists g', (Edge.mk (Graph.next_id g) (v, w) element).
  split; [done|]. split; [done|]. split; [done|].
  assert (Graph._structure g' = Graph._structure g) as Hsame.
  { unfold Graph.add_edge in Hadd.
    rewrite (proj2 (vertex_in_graph g v) Hv), (proj2 (vertex_in_graph g w) Hw) in Hadd.
    simpl in Hadd. rewrite Ht, Hf, bool_decide_eq_false_2 in Hadd by done.
    simpl in Hadd. by injection Hadd as <-. }
  split; [done|]. split.
  - intros a b. by rewrite !get_edge_lookup, Hsame.
  - unfold Graph.edges, Graph.adjacency. by rewrite Hsame.
Qed.

Lemma add_edge_other_flag_stores_nothing_witness :
  exists g' e,
    Graph.add_edge Examples.two_vertices Examples.vA Examples.vB 7 PyNone
    = (g', Some e) /\
    Graph.get_edge g' Examples.vA Examples.vB = None /\
    Graph.edges g' = [].
Proof.
  destruct (add_edge_other_flag_stores_nothing
              Examples.two_vertices Examples.vA Examples.vB 7 PyNone)
    as (g' & e & Hadd & _ & _ & _ & Hget & Hedges).
  - apply elem_of_cons. by left.
  - apply elem_of_cons. right. apply elem_of_cons. by left.
  - done.
  - reflexivity.
  - reflexivity.
  - exists g', e. split; [exact Hadd|]. split.
    + by rewrite Hget.
    + by rewrite Hedges.
Defined.

(** X16. The edges of a vertex have their other end. In a graph built by
    calls, for every edge that [get_edges(v)] returns, [opposite(v)] is a
    vertex of the graph, the one under which the edge is stored in [v]'s
    adjacency map, and [opposite] of that vertex is [v] again. *)
Theorem incident_edge_has_opposite {L} `{EqDecision L}
    (cs : list (call (L := L))) (v : Vertex.t L) (es : list (Edge.t L))
    (e : Edge.t L) :
  let g := now (play start_history cs) in
  Graph.get_edges g v = Some es -> e ∈ es ->
  exists w,
    Edge.opposite e v = Some w /\ w ∈ Graph.vertices g /\
    Graph.get_edge g v w = Some e /\ Edge.opposite e w = Some v.
Proof.
  intros g Hes He.
  assert (graph_wf g) as Hg by apply play_graph_wf, graph_wf_init.
  destruct (get_edges_get_edge g v es e Hes He) as [w Hw].
  destruct (gw_ends g Hg _ _ _ Hw) as [Hends Hin].
  exists w. unfold Edge.opposite, Edge.start, Edge.end_ in *.
  destruct Hends as [[-> ->]|[-> ->]]; split_and!; try done;
    repeat case_decide; congruence.
Qed.

Lemma incident_edge_has_opposite_witness :
  exists w,
    Edge.opposite (Edge.mk 3 (Examples.vA, Examples.vB) 1) Examples.vB = Some w /\
    w ∈ Graph.vertices (now (play start_history Examples.mixed_edges)).
Proof.
  destruct (incident_edge_has_opposite Examples.mixed_edges Examples.vB
              [Edge.mk 3 (Examples.vA, Examples.vB) 1;
               Edge.mk 4 (Examples.vB, Vertex.mk 2 "C") 2]
              (Edge.mk 3 (Examples.vA, Examples.vB) 1))
    as (w & Hw & Hin & _).
  - reflexivity.
  - apply elem_of_cons. by left.
  - by exists w.
Defined.

Section SearchMore.
Context {L G : Type} `{EqDecision L} `{GraphLike L G}.

Lemma dijkstra_more_fuel (graph : G) s fuel table :
  dijkstra fuel graph s = Ok table -> dijkstra (S fuel) graph s = Ok table.
Proof.
  unfold dijkstra. rewrite !dijkstra_body_loop. intros Hrun.
  destruct (dijkstra_loop fuel graph _) as [f' [[]| |]] eqn:Hloop; [|done..].
  by rewrite (dijkstra_loop_more_fuel graph fuel _ _ _ Hloop).
Qed.

Lemma dijkstra_enough_fuel (graph : G) s fuel fuel' table :
  dijkstra fuel graph s = Ok table -> (fuel <= fuel')%nat ->
  dijkstra fuel' graph s = Ok table.
Proof.
  intros Hrun Hle. induction Hle as [|fuel' _ IH]; [done|].
  by apply dijkstra_more_fuel.
Qed.
End SearchMore.

(** X17. [dijkstra] returns. On a graph built by calls, from every source
    label, and on a route map built by its methods, from every label of
    its index, the while loop ends: there is one table that [dijkstra]
    returns whenever the fuel covers two rounds more than the labels at the
    ends of the edges. *)
Theorem dijkstra_returns_one_table {L C} `{EqDecision L}
    (cs : list (call (L := L))) (m : RouteMap.t L C) (s : L) :
  (exists table, forall fuel,
     (length (edge_labels (now (play start_history cs))) + 2 <= fuel)%nat ->
     dijkstra fuel (now (play start_history cs)) s = Ok table) /\
  (built m -> dict_mem s (RouteMap._findvertex m) = true ->
   exists table, forall fuel,
     (length (edge_labels (RouteMap.graph m)) + 2 <= fuel)%nat ->
     dijkstra fuel m s = Ok table).
Proof.
  split.
  - destruct (dijkstra_returns cs s
                (length (edge_labels (now (play start_history cs))) + 2))
      as [table Hrun]; [done|].
    exists table. intros fuel Hfuel. by eapply dijkstra_enough_fuel.
  - intros Hm Hs.
    destruct (dijkstra_route_map_total m s
                (length (edge_labels (RouteMap.graph m)) + 2) Hm Hs)
      as [table Hrun]; [done|].
    exists table. intros fuel Hfuel. by eapply dijkstra_enough_fuel.
Qed.

(** X18. [dijkstra] from a label no vertex carries. On a Graph the lookup
    of the source gives None, no edge is looked at, and the table returned
    has the source alone, at distance 0; on a route map built by its
    methods the lookup raises KeyError and so does [dijkstra]. *)
Theorem dijkstra_from_unknown_label {L C} `{EqDecision L}
    (g : Graph.t L) (m : RouteMap.t L C) (s : L) (fuel : nat) :
  ((forall v, v ∈ Graph.vertices g -> Vertex.element v <> s) ->
   dijkstra (2 + fuel) g s = Ok [(s, (0, None))]) /\
  (built m ->
   (forall v, v ∈ Graph.vertices (RouteMap.graph m) -> Vertex.element v <> s) ->
   dijkstra (1 + fuel) m s = Raise KeyError).
Proof.
  split.
  - intros Hnone. unfold dijkstra.
    change (2 + fuel)%nat with (S (S fuel)). rewrite dijkstra_first_round.
    unfold bind at 1. unfold scan_edges. unfold bind at 1. simpl.
    unfold Graph.get_vertex_by_label.
    by rewrite (first_with_label_None s _ Hnone).
  - intros Hm Hnone. apply dijkstra_unknown_source.
    unfold dict_mem.
    destruct (dict_get s (RouteMap._findvertex m)) as [v|] eqn:Hv; [|done].
    destruct (built_index_sound m Hm s v Hv) as [Hin Hel]. by destruct (Hnone v Hin).
Qed.

(** X19. [RouteMap.add_vertex] and the two lookups. After
    [add_vertex(element, coord1, coord2)] the label index finds the new
    vertex for the element, its coordinates are the ones given, and the
    other labels are found as before. When the map, built by its methods,
    had a vertex with the element already, the inherited scan over the
    vertices still finds that older vertex, so [add_vertex_if_new] returns
    the older vertex while [get_vertex_by_label] returns the new one. *)
Theorem route_map_add_vertex_indexes_newest {L C} `{EqDecision L}
    (m : RouteMap.t L C) (element : L) (coord1 coord2 : option C) :
  let m' := (RouteMap.add_vertex m element coord1 coord2).1 in
  let v := (RouteMap.add_vertex m element coord1 coord2).2 in
  RouteMap.get_vertex_by_label m' element = Ok v /\
  dict_get v (RouteMap._vertexcoords m') = Some (coord1, coord2) /\
  (forall l, l <> element ->
     RouteMap.get_vertex_by_label m' l = RouteMap.get_vertex_by_label m l) /\
  (built m ->
   forall u, Graph.get_vertex_by_label (RouteMap.graph m) element = Some u ->
     u <> v /\
     Graph.get_vertex_by_label (RouteMap.graph m') element = Some u /\
     RouteMap.add_vertex_if_new m' element = (m', u)).
Proof.
  intros m' v. split_and!.
  - unfold RouteMap.get_vertex_by_label. simpl. by rewrite dict_get_set_eq.
  - simpl. apply dict_get_set_eq.
  - intros l Hl. unfold RouteMap.get_vertex_by_label. simpl.
    by rewrite dict_get_set_ne.
  - intros Hm u Hu.
    pose proof (built_graph_wf m Hm) as Hg.
    pose proof (fresh_vertex (RouteMap.graph m) element Hg) as Hnew.
    assert (Graph.get_vertex_by_label (RouteMap.graph m') element = Some u) as Hscan.
    { unfold Graph.get_vertex_by_label. simpl.
      rewrite dict_keys_set_new by done.
      rewrite first_with_label_app.
      unfold Graph.get_vertex_by_label in Hu. by rewrite Hu. }
    split_and!; try done.
    + intros ->. apply first_with_label_Some in Hu as [Hin _]. done.
    + unfold RouteMap.add_vertex_if_new.
      unfold Graph.get_vertex_by_label in Hscan. unfold Graph.vertices.
      by rewrite Hscan.
Qed.

(** ** What [edges] lists *)

Section EdgeListingFacts.
Context {L : Type} `{EqDecision L}.
Implicit Types (g : Graph.t L) (v w a b : Vertex.t L) (e : Edge.t L).

Lemma NoDup_flat_map {A B} (f : A -> list B) (l : list A) :
  NoDup l -> (forall x, x ∈ l -> NoDup (f x)) ->
  (forall x1 x2 y, x1 ∈ l -> x2 ∈ l -> y ∈ f x1 -> y ∈ f x2 -> x1 = x2) ->
  NoDup (flat_map f l).
Proof.
  induction l as [|x l IH]; intros Hnd Hf Hdis; simpl; [apply NoDup_nil_2|].
  apply NoDup_cons in Hnd as [Hx Hnd]. apply NoDup_app. split_and!.
  - apply Hf, elem_of_cons. by left.
  - intros y Hy Hy'. apply list_elem_of_In, in_flat_map in Hy' as (x' & Hx' & Hy').
    apply list_elem_of_In in Hx', Hy'.
    assert (x = x') as <-; [|done].
    apply (Hdis x x' y); [apply elem_of_cons; by left|apply elem_of_cons; by right|done..].
  - apply IH; [done|..].
    + intros x' Hx'. apply Hf, elem_of_cons. by right.
    + intros x1 x2 y H1 H2. apply Hdis; apply elem_of_cons; by right.
Qed.

Lemma listed_at_elem g v e :
  e ∈ listed_at g v <->
  Edge.start e = v /\ exists w, dict_get w (Graph.adjacency g v) = Some e.
Proof.
  unfold listed_at. rewrite list_elem_of_In, in_flat_map. split.
  - intros (w & Hw & He).
    destruct (dict_get w (Graph.adjacency g v)) as [e'|] eqn:Hget; [|done].
    destruct (decide (Edge.start e' = v)); [|done].
    destruct He as [->|[]]. eauto.
  - intros (Hstart & w & Hget). exists w. split.
    + apply list_elem_of_In. by eapply dict_get_Some_keys.
    + rewrite Hget. rewrite decide_True by done. by left.
Qed.

Lemma get_edge_adjacency g v w e :
  Graph.get_edge g v w = Some e <->
  v ∈ Graph.vertices g /\ dict_get w (Graph.adjacency g v) = Some e.
Proof.
  rewrite get_edge_lookup. unfold Graph.adjacency, Graph.vertices. split.
  - destruct (dict_get v (Graph._structure g)) as [adj|] eqn:Hadj; [|done].
    intros Hw. split; [by eapply dict_get_Some_keys|done].
  - intros [Hv Hw]. destruct (dict_get v (Graph._structure g)); [done|].
    simpl in Hw. done.
Qed.

Lemma edges_elem g e :
  e ∈ Graph.edges g <-> exists w, Graph.get_edge g (Edge.start e) w = Some e.
Proof.
  change (Graph.edges g) with (flat_map (listed_at g) (Graph.vertices g)).
  rewrite list_elem_of_In, in_flat_map. split.
  - intros (v & Hv & He). apply list_elem_of_In in Hv, He.
    apply listed_at_elem in He as (<- & w & Hw). exists w.
    by apply get_edge_adjacency.
  - intros (w & Hw). apply get_edge_adjacency in Hw as [Hv Hw].
    exists (Edge.start e). split; [by apply list_elem_of_In|].
    apply list_elem_of_In, listed_at_elem. eauto.
Qed.

Lemma edges_NoDup g : graph_wf g -> keys_once g -> NoDup (Graph.edges g).
Proof.
  intros Hg [Hvs Hadj].
  change (Graph.edges g) with (flat_map (listed_at g) (Graph.vertices g)).
  apply NoDup_flat_map; [done|..].
  - intros v Hv. unfold listed_at. apply NoDup_flat_map; [apply Hadj|..].
    + intros w _. destruct (dict_get w (Graph.adjacency g v)) as [e|];
        [|apply NoDup_nil_2].
      destruct (decide _); [apply NoDup_singleton|apply NoDup_nil_2].
    + intros w1 w2 e _ _ H1 H2.
      assert (forall w, e ∈ match dict_get w (Graph.adjacency g v) with
                            | Some e' => if decide (Edge.start e' = v) then [e'] else []
                            | None => []
                            end -> w = Edge.end_ e) as Hend.
      { intros w Hw.
        destruct (dict_get w (Graph.adjacency g v)) as [e'|] eqn:Hget;
          [|by apply elem_of_nil in Hw].
        destruct (decide (Edge.start e' = v)) as [Hs|]; [|by apply elem_of_nil in Hw].
        apply list_elem_of_singleton in Hw. subst e'.
        assert (Graph.get_edge g v w = Some e) as Hedge
          by (by apply get_edge_adjacency).
        destruct (gw_ends g Hg _ _ _ Hedge) as [[[_ ->]|[Hv' ->]] _]; [done|].
        congruence. }
      rewrite (Hend w1 H1), (Hend w2 H2). done.
  - intros v1 v2 e _ _ H1 H2.
    apply listed_at_elem in H1 as [<- _]. by apply listed_at_elem in H2 as [<- _].
Qed.

Lemma keys_once_init : keys_once (Graph.init (L := L)).
Proof. split; [apply NoDup_nil_2|]. intros v. apply NoDup_nil_2. Qed.

Lemma keys_once_add_vertex g element :
  keys_once g -> keys_once (Graph.add_vertex g element).1.
Proof.
  intros [Hvs Hadj]. split.
  - by apply dict_set_NoDup.
  - intros v. unfold Graph.adjacency. simpl. rewrite dict_get_set.
    destruct (decide _); [apply NoDup_nil_2|apply Hadj].
Qed.

Lemma keys_once_store_edge s n n' v w e :
  keys_once (Graph.mk s n) -> keys_once (Graph.mk (Graph.store_edge v w e s) n').
Proof.
  intros [Hvs Hadj]. split.
  - by apply dict_set_NoDup.
  - intros x. rewrite (adjacency_store_edge s n' n).
    destruct (decide _); [apply dict_set_NoDup|]; apply Hadj.
Qed.

Lemma keys_once_add_edge g v w element oneway :
  keys_once g -> keys_once (Graph.add_edge g v w element oneway).1.
Proof.
  intros Hg. unfold Graph.add_edge.
  destruct (negb _ || negb _); [done|]. destruct g as [s n]. simpl.
  destruct (is_True oneway || bool_decide (v = w)).
  - by apply (keys_once_store_edge s n).
  - destruct (is_False oneway).
    + apply (keys_once_store_edge _ (S n)). by apply (keys_once_store_edge s n).
    + done.
Qed.

Lemma keys_once_play cs : forall h : history (L := L),
  keys_once (now h) -> keys_once (now (play h cs)).
Proof.
  induction cs as [|c cs IH]; intros h Hh; simpl; [done|].
  apply IH. rewrite now_step. destruct c.
  - by apply keys_once_add_vertex.
  - by apply keys_once_add_edge.
Qed.

Lemma stored_at_start_step (h : history (L := L)) c :
  graph_wf (now h) -> stored_at_start (now h) ->
  splits_two_way (now h) c = false ->
  stored_at_start (now (step h c)).
Proof.
  intros Hg Hst Hsplit. rewrite now_step.
  destruct c as [element|v w element oneway].
  - intros a b e. rewrite !get_edge_add_vertex by apply Hg. apply Hst.
  - destruct (decide (v ∈ Graph.vertices (now h) /\ w ∈ Graph.vertices (now h)))
      as [[Hv Hw]|Hout].
    2: { rewrite add_edge_absent; [done|]. by apply not_and_l in Hout. }
    destruct (add_edge_present (now h) v w element oneway Hv Hw)
      as (g' & -> & _ & _ & Hget). simpl.
    set (e0 := Edge.mk (Graph.next_id (now h)) (v, w) element) in *.
    intros a b e. rewrite !Hget.
    unfold add_edge_mode in *.
    destruct (is_True oneway || bool_decide (v = w)) eqn:Hone.
    + (* the new edge goes into one map *)
      destruct (decide (a = v /\ b = w)) as [[-> ->]|Hnew].
      { intros [= <-]. simpl. by rewrite decide_True. }
      rewrite decide_False by (intros [[=] _]).
      intros Hold. pose proof (Hst _ _ _ Hold) as Hslot.
      destruct (decide (Edge.start e = v /\ Edge.end_ e = w)) as [[Hs He]|Hne];
        [|done].
      exfalso. rewrite Hs, He in Hslot.
      destruct (gw_ends _ Hg _ _ _ Hold) as [[[-> ->]|[-> ->]] _].
      { apply Hnew. by rewrite Hs, He. }
      assert (v <> w) as Hvw by (intros ->; apply Hnew; by rewrite Hs, He).
      simpl in Hsplit. rewrite bool_decide_eq_false_2 in Hone, Hsplit by done.
      rewrite orb_false_r in Hone. rewrite Hone, Hslot in Hsplit. simpl in Hsplit.
      rewrite He, Hs in Hold. by rewrite bool_decide_eq_true_2 in Hsplit.
    + destruct (is_False oneway); [|apply Hst].
      apply orb_false_iff in Hone as [_ Hvw]. apply bool_decide_eq_false in Hvw.
      destruct (decide (a = v /\ b = w)) as [[-> ->]|Hnew1].
      { intros [= <-]. simpl. by rewrite decide_True. }
      destruct (decide (true = true /\ a = w /\ b = v)) as [(_ & -> & ->)|Hnew2].
      { intros [= <-]. simpl. by rewrite decide_True. }
      intros Hold. pose proof (Hst _ _ _ Hold) as Hslot.
      destruct (gw_ends _ Hg _ _ _ Hold) as [[[-> ->]|[-> ->]] _].
      * rewrite decide_False by done. by rewrite decide_False by done.
      * rewrite decide_False by (intros [Hs He]; by apply Hnew2).
        rewrite decide_False by (intros (_ & Hs & He); by apply Hnew1). done.
Qed.

Lemma stored_at_start_play cs : forall h : history (L := L),
  graph_wf (now h) -> stored_at_start (now h) -> never_splits h cs = true ->
  stored_at_start (now (play h cs)).
Proof.
  induction cs as [|c cs IH]; intros h Hg Hst Hns; simpl; [done|].
  simpl in Hns. apply andb_true_iff in Hns as [Hc Hcs].
  apply negb_true_iff in Hc.
  apply IH; [|by apply stored_at_start_step|done].
  rewrite now_step. destruct c.
  - by apply graph_wf_add_vertex.
  - by apply graph_wf_add_edge.
Qed.
End EdgeListingFacts.

(** X20. What [edges()] lists. On a graph built by calls, [edges()] lists
    no edge twice, and every edge it lists is in an adjacency map. When no
    one-way call was made on a pair joined by a two-way edge, it lists
    every edge that is in an adjacency map. *)
Theorem edges_lists_stored_edges_once {L} `{EqDecision L}
    (cs : list (call (L := L))) :
  let g := now (play start_history cs) in
  NoDup (Graph.edges g) /\
  (forall e, e ∈ Graph.edges g -> stored g e) /\
  (never_splits start_history cs = true ->
   forall e, stored g e -> e ∈ Graph.edges g).
Proof.
  intros g.
  assert (graph_wf g) as Hg by apply play_graph_wf, graph_wf_init.
  split_and!.
  - apply edges_NoDup; [done|]. apply keys_once_play, keys_once_init.
  - intros e [w Hw]%edges_elem. by exists (Edge.start e), w.
  - intros Hns e (a & b & Hab).
    assert (stored_at_start g) as Hst.
    { apply stored_at_start_play; [apply graph_wf_init| |done].
      intros a' b' e'. by rewrite get_edge_lookup. }
    apply edges_elem. exists (Edge.end_ e). by eapply Hst.
Qed.

Lemma edges_lists_stored_edges_once_witness :
  never_splits start_history Examples.mixed_edges = true /\
  stored (now (play start_history Examples.mixed_edges))
         (Edge.mk 4 (Examples.vB, Vertex.mk 2 "C") 2) /\
  Edge.mk 4 (Examples.vB, Vertex.mk 2 "C") 2
    ∈ Graph.edges (now (play start_history Examples.mixed_edges)).
Proof.
  assert (never_splits start_history Examples.mixed_edges = true) as Hns
    by reflexivity.
  assert (stored (now (play start_history Examples.mixed_edges))
                 (Edge.mk 4 (Examples.vB, Vertex.mk 2 "C") 2)) as Hst
    by (by exists Examples.vB, (Vertex.mk 2 "C")).
  split; [exact Hns|]. split; [exact Hst|].
  destruct (edges_lists_stored_edges_once Examples.mixed_edges) as (_ & _ & Hall).
  exact (Hall Hns _ Hst).
Defined.

(** After a one-way call on a pair joined by a two-way edge, the older
    edge is still returned by [get_edge] in the other direction, and
    [edges()] does not list it. *)
Lemma edges_misses_split_edge :
  let g := now (play start_history Examples.readd_one_way) in
  let e := Edge.mk 2 (Examples.vA, Examples.vB) 1 in
  Graph.get_edge g Examples.vB Examples.vA = Some e /\ e ∉ Graph.edges g.
Proof.
  split; [reflexivity|]. intros Hin. vm_compute in Hin.
  apply elem_of_cons in Hin as [Hin|Hin]; [discriminate|].
  by apply elem_of_nil in Hin.
Qed.

(** ** The heap order under [remove_min] *)

Section HeapFacts.
Context {L : Type}.
Implicit Types (q : APQ.t L) (h a b : APQ.handle) (e : APQ.Element L).

Lemma parent_of_child (p i : nat) :
  (1 <= p)%nat ->
  (((p - 1) `div` 2)%nat = i <-> (p = 2 * i + 1 \/ p = 2 * i + 2)%nat).
Proof.
  intros Hp.
  pose proof (Nat.div_mod_eq (p - 1) 2) as Hdm.
  pose proof (Nat.mod_upper_bound (p - 1) 2 ltac:(lia)) as Hmod.
  split; [lia|]. intros [-> | ->].
  - replace (2 * i + 1 - 1)%nat with (i * 2)%nat by lia. by apply Nat.div_mul.
  - replace (2 * i + 2 - 1)%nat with (1 + i * 2)%nat by lia.
    rewrite Nat.div_add by done. done.
Qed.

Lemma parent_below (p : nat) : (1 <= p)%nat -> (((p - 1) `div` 2) < p)%nat.
Proof.
  intros Hp. pose proof (Nat.div_mod_eq (p - 1) 2) as Hdm.
  pose proof (Nat.mod_upper_bound (p - 1) 2 ltac:(lia)) as Hmod. lia.
Qed.

Lemma positions_valid_wf q : positions_valid q -> queue_wf q.
Proof.
  intros [Hnd Hpos]. split; [done|]. intros p h Hp.
  destruct (Hpos p h Hp) as (e & He & Hi). exists e. split; [done|by left].
Qed.

Lemma positions_valid_entry q (p : nat) :
  positions_valid q -> (p < length (APQ._queue q))%nat ->
  exists e, entry_at q p = Some e /\ APQ._index e = Z.of_nat p.
Proof.
  intros [_ Hpos] Hp.
  destruct (lookup_lt_is_Some_2 (APQ._queue q) p Hp) as [h Hh].
  destruct (Hpos p h Hh) as (e & He & Hi). exists e. split; [|done].
  apply entry_at_Some. eauto.
Qed.

Lemma indices_valid_positions q :
  NoDup (APQ._queue q) -> indices_valid q = true -> positions_valid q.
Proof.
  intros Hnd Hvalid. split; [done|]. intros p h Hp.
  unfold indices_valid in Hvalid. rewrite forallb_forall in Hvalid.
  specialize (Hvalid p). rewrite in_seq in Hvalid.
  assert (p < length (APQ._queue q))%nat as Hlt by (by eapply lookup_lt_Some).
  specialize (Hvalid ltac:(lia)).
  unfold entry_at in Hvalid. rewrite Hp in Hvalid.
  destruct (APQ.objects q !! h) as [e|]; [|done].
  exists e. split; [done|]. lia.
Qed.

Lemma positions_indices_valid q : positions_valid q -> indices_valid q = true.
Proof.
  intros Hq. unfold indices_valid. apply forallb_forall. intros p Hp.
  apply in_seq in Hp.
  destruct (positions_valid_entry q p Hq) as (e & -> & Hi); [lia|]. lia.
Qed.

Lemma heap_ordered_order q : heap_ordered q = true -> heap_order q.
Proof.
  intros Hheap p Hp e ep He Hep.
  unfold heap_ordered in Hheap. rewrite forallb_forall in Hheap.
  specialize (Hheap p). rewrite in_seq in Hheap.
  pose proof (entry_at_lt _ _ _ He).
  specialize (Hheap ltac:(lia)). rewrite He, Hep in Hheap. lia.
Qed.

Lemma heap_order_ordered q :
  positions_valid q -> heap_order q -> heap_ordered q = true.
Proof.
  intros Hq Hheap. unfold heap_ordered. apply forallb_forall. intros p Hp.
  apply in_seq in Hp.
  destruct (positions_valid_entry q p Hq) as (e & He & _); [lia|].
  pose proof (parent_below p ltac:(lia)).
  destruct (positions_valid_entry q ((p - 1) `div` 2)%nat Hq) as (ep & Hep & _);
    [lia|].
  rewrite He, Hep. pose proof (Hheap p ltac:(lia) e ep He Hep). lia.
Qed.

(** The root of a heap has a smallest key. *)
Lemma heap_order_root q (p : nat) e0 e :
  heap_order q -> positions_valid q ->
  entry_at q 0 = Some e0 -> entry_at q p = Some e -> APQ._key e0 <= APQ._key e.
Proof.
  intros Hheap Hq H0. revert e.
  induction (lt_wf p) as [p _ IH]. intros e He.
  destruct p as [|p']; [by assert (e = e0) as -> by congruence|].
  pose proof (parent_below (S p') ltac:(lia)) as Hlt.
  pose proof (entry_at_lt _ _ _ He).
  destruct (positions_valid_entry q ((S p' - 1) `div` 2)%nat Hq) as (ep & Hep & _);
    [lia|].
  pose proof (Hheap (S p') ltac:(lia) e ep He Hep).
  pose proof (IH _ Hlt ep Hep). lia.
Qed.

Lemma entry_at_same q q' (x : nat) :
  APQ._queue q' !! x = APQ._queue q !! x ->
  (forall h, APQ._queue q !! x = Some h ->
             APQ.objects q' !! h = APQ.objects q !! h) ->
  entry_at q' x = entry_at q x.
Proof.
  intros Hx Hh. unfold entry_at. rewrite Hx.
  destruct (APQ._queue q !! x) as [h|]; [by apply Hh|done].
Qed.

(** Two entries change places. *)
Lemma swap_positions q (i j : nat) ei ej :
  positions_valid q -> i <> j ->
  entry_at q i = Some ei -> entry_at q j = Some ej ->
  exists q',
    APQ.swap_entries (Z.of_nat i) (Z.of_nat j) q = (q', Ok tt) /\
    positions_valid q' /\
    length (APQ._queue q') = length (APQ._queue q) /\
    entry_at q' i
    = Some (APQ.mkElement (APQ._key ej) (APQ._value ej) (Z.of_nat i)) /\
    entry_at q' j
    = Some (APQ.mkElement (APQ._key ei) (APQ._value ei) (Z.of_nat j)) /\
    (forall x, x <> i -> x <> j -> entry_at q' x = entry_at q x) /\
    (forall h, h ∈ APQ._queue q' <-> h ∈ APQ._queue q) /\
    APQ._queue q' !! j = APQ._queue q !! i.
Proof.
  intros Hq Hij Hi Hj. pose proof Hq as [Hnd Hpos].
  apply entry_at_Some in Hi as (a & Ha & Hea).
  apply entry_at_Some in Hj as (b & Hb & Heb).
  assert (a <> b) as Hab.
  { intros ->. apply Hij. by eapply NoDup_alt. }
  assert (i < length (APQ._queue q))%nat as Hil by (by eapply lookup_lt_Some).
  assert (j < length (APQ._queue q))%nat as Hjl by (by eapply lookup_lt_Some).
  destruct (swap_entries_ok q (Z.of_nat i) (Z.of_nat j) i j)
    as (q' & Hswap & [Hnd' _] & (_ & Hlen & Hmem) & Hlk);
    [by apply positions_valid_wf|by apply py_index_nat..|by left|by left|].
  destruct (swap_entries_at q (Z.of_nat i) (Z.of_nat j) i j a b ei ej)
    as (eb' & Heb' & Hrun); [by apply py_index_nat..|done|done|done|done|].
  unfold APQ.handle in *.
  rewrite list_lookup_insert_ne in Heb' by done.
  assert (eb' = ej) as -> by congruence.
  rewrite Hrun in Hswap. injection Hswap as <-.
  assert (forall x h, APQ._queue q !! x = Some h ->
            (<[j := a]> (<[i := b]> (APQ._queue q))) !! transpose i j x = Some h)
    as Hback.
  { intros x h Hx. rewrite Hlk. by rewrite transpose_involutive. }
  simpl in *.
  assert (forall h e, h <> a -> h <> b -> APQ.objects q !! h = Some e ->
            (<[b := APQ.mkElement (APQ._key ej) (APQ._value ej) (Z.of_nat i)]>
               (<[a := APQ.mkElement (APQ._key ei) (APQ._value ei) (Z.of_nat j)]>
                  (APQ.objects q))) !! h = Some e) as Hother.
  { intros h e Hha Hhb He. by rewrite !list_lookup_insert_ne by done. }
  assert ((<[b := APQ.mkElement (APQ._key ej) (APQ._value ej) (Z.of_nat i)]>
             (<[a := APQ.mkElement (APQ._key ei) (APQ._value ei) (Z.of_nat j)]>
                (APQ.objects q))) !! a
          = Some (APQ.mkElement (APQ._key ei) (APQ._value ei) (Z.of_nat j))) as Hna.
  { rewrite list_lookup_insert_ne by done. apply list_lookup_insert_eq.
    by eapply lookup_lt_Some. }
  assert ((<[b := APQ.mkElement (APQ._key ej) (APQ._value ej) (Z.of_nat i)]>
             (<[a := APQ.mkElement (APQ._key ei) (APQ._value ei) (Z.of_nat j)]>
                (APQ.objects q))) !! b
          = Some (APQ.mkElement (APQ._key ej) (APQ._value ej) (Z.of_nat i))) as Hnb.
  { apply list_lookup_insert_eq. rewrite length_insert. by eapply lookup_lt_Some. }
  assert (<[j := a]> (<[i := b]> (APQ._queue q)) !! i = Some b) as Hqi.
  { rewrite Hlk. unfold transpose. rewrite decide_False by done.
    by rewrite decide_True by done. }
  assert (<[j := a]> (<[i := b]> (APQ._queue q)) !! j = Some a) as Hqj.
  { rewrite Hlk. unfold transpose. by rewrite decide_True by done. }
  assert (forall x, x <> i -> x <> j ->
            <[j := a]> (<[i := b]> (APQ._queue q)) !! x = APQ._queue q !! x) as Hqx.
  { intros x Hxi Hxj. rewrite Hlk. unfold transpose.
    by rewrite !decide_False by done. }
  eexists. split; [exact Hrun|]. split_and!; simpl.
  - split; [done|]. simpl. intros x h Hx. unfold APQ.handle in *.
    destruct (decide (x = i)) as [->|Hxi].
    { rewrite Hqi in Hx. injection Hx as <-. eauto. }
    destruct (decide (x = j)) as [->|Hxj].
    { rewrite Hqj in Hx. injection Hx as <-. eauto. }
    rewrite Hqx in Hx by done. destruct (Hpos x h Hx) as (e & He & Hidx).
    exists e. split; [|done]. apply Hother; [| |done].
    + intros ->. apply Hxi. exact (proj1 (NoDup_alt _) Hnd x i a Hx Ha).
    + intros ->. apply Hxj. exact (proj1 (NoDup_alt _) Hnd x j b Hx Hb).
  - done.
  - unfold entry_at. simpl. unfold APQ.handle in *. by rewrite Hqi.
  - unfold entry_at. simpl. unfold APQ.handle in *. by rewrite Hqj.
  - intros x Hxi Hxj. apply entry_at_same; simpl; [by apply Hqx|].
    intros h Hx. destruct (Hpos x h Hx) as (e & He & _).
    transitivity (Some e); [|symmetry; exact He].
    apply Hother; [| |done].
    + intros ->. apply Hxi. exact (proj1 (NoDup_alt _) Hnd x i a Hx Ha).
    + intros ->. apply Hxj. exact (proj1 (NoDup_alt _) Hnd x j b Hx Hb).
  - done.
  - unfold APQ.handle in *. by rewrite Hqj.
Qed.

Lemma heap_but_leaf q (i : nat) :
  heap_but q i -> (length (APQ._queue q) <= 2 * i + 1)%nat -> heap_order q.
Proof.
  intros [Hrest _] Hleaf p Hp.
  destruct (decide (((p - 1) `div` 2)%nat = i)) as [Hpar|Hpar]; [|by apply Hrest].
  apply parent_of_child in Hpar; [|done].
  intros e ep He _. apply entry_at_lt in He. lia.
Qed.

(** [bubble_down] from the one place where the heap order may fail. *)
Lemma bubble_down_heap fuel : forall (i : nat) q,
  positions_valid q -> heap_but q i ->
  (length (APQ._queue q) - i < fuel)%nat ->
  exists q',
    APQ.bubble_down_loop fuel (Z.of_nat i) q = (q', Ok tt) /\
    positions_valid q' /\ heap_order q' /\
    length (APQ._queue q') = length (APQ._queue q) /\
    (forall h, h ∈ APQ._queue q' <-> h ∈ APQ._queue q).
Proof.
  induction fuel as [|fuel IH]; intros i q Hq Hbut Hfuel; [lia|].
  simpl. unfold bind at 1. unfold APQ.len_queue at 1.
  set (n := length (APQ._queue q)) in *.
  destruct (Z.ltb_spec (2 * Z.of_nat i + 1) (Z.of_nat n)) as [Hchild|Hleaf].
  2: { exists q. split_and!; try done. apply (heap_but_leaf q i); [done|]. fold n. lia. }
  destruct (positions_valid_entry q i Hq) as (ei & Hei & _); [fold n; lia|].
  destruct (min_leaf_child q i) as (m & child & Hmin & Hm & Hwhich & _ & Hleft & Hright).
  { by apply queue_wf_live, positions_valid_wf. }
  { fold n. lia. }
  pose proof Hei as (a & Ha & Hea)%entry_at_Some.
  pose proof Hm as (b & Hb & Heb)%entry_at_Some.
  unfold bind at 1. rewrite (queue_getitem_nat _ _ _ Ha).
  unfold bind at 1. rewrite Hmin.
  unfold bind at 1. rewrite (queue_getitem_nat _ _ _ Hb).
  unfold bind at 1. rewrite (elem_lt_live _ _ _ _ _ Hea Heb).
  assert (((m - 1) `div` 2)%nat = i) as Hpm by (apply parent_of_child; lia).
  assert (forall p e, (1 <= p)%nat -> ((p - 1) `div` 2)%nat = i ->
            entry_at q p = Some e -> APQ._key child <= APQ._key e) as Hkids.
  { intros p e Hp Hpar He. apply parent_of_child in Hpar; [|done].
    destruct Hpar as [->| ->].
    - by apply Hleft.
    - by apply Hright. }
  destruct (Z.ltb_spec (APQ._key ei) (APQ._key child)) as [Hlt|Hge].
  - exists q. split_and!; try done.
    intros p Hp. destruct (decide (((p - 1) `div` 2)%nat = i)) as [Hpar|Hpar];
      [|by apply Hbut].
    intros e ep He Hep. rewrite Hpar, Hei in Hep. injection Hep as <-.
    pose proof (Hkids p e Hp Hpar He). lia.
  - unfold bind at 1. rewrite Hmin.
    destruct (swap_positions q i m ei child Hq) as
      (q1 & Hswap & Hq1 & Hlen1 & Hi1 & Hm1 & Hx1 & Hmem1 & _); [lia|done|done|].
    unfold bind at 1. rewrite Hswap.
    destruct (IH m q1 Hq1) as (q' & Hrun & Hq' & Hheap' & Hlen' & Hmem').
    + destruct Hbut as [Hrest Hup]. split.
      * intros p Hp Hpar e ep He Hep.
        destruct (decide (p = m)) as [->|Hnm].
        { rewrite Hpm, Hi1 in Hep. rewrite Hm1 in He.
          injection He as <-. injection Hep as <-. simpl. lia. }
        destruct (decide (p = i)) as [->|Hni].
        { rewrite Hi1 in He. injection He as <-. simpl.
          rewrite Hx1 in Hep; [|pose proof (parent_below i Hp); lia|done].
          eapply (Hup m); [done|lia|done|done|done]. }
        rewrite Hx1 in He by done.
        destruct (decide (((p - 1) `div` 2)%nat = i)) as [Hpi|Hpi].
        { rewrite Hpi, Hi1 in Hep. injection Hep as <-. simpl.
          by apply (Hkids p). }
        rewrite Hx1 in Hep by done. by apply (Hrest p Hp Hpi).
      * intros c e ep _ Hc Hpar He Hep.
        rewrite Hpm, Hi1 in Hep. injection Hep as <-. simpl.
        pose proof (parent_below c Hc).
        rewrite Hx1 in He by lia.
        apply (Hrest c Hc); [lia|done|]. by rewrite Hpar.
    + rewrite Hlen1. fold n. lia.
    + exists q'. split; [done|]. split_and!; try done; [by rewrite Hlen', Hlen1|].
      intros h. by rewrite Hmem', Hmem1.
Qed.

Lemma remove_min_heap q :
  positions_valid q -> heap_order q -> (1 <= length (APQ._queue q))%nat ->
  exists q' a e0,
    APQ.remove_min q = (q', Ok a) /\
    APQ._queue q !! 0%nat = Some a /\ APQ.objects q !! a = Some e0 /\
    positions_valid q' /\ heap_order q' /\
    S (length (APQ._queue q')) = length (APQ._queue q).
Proof.
  intros Hq Hheap Hlen. pose proof (positions_valid_wf q Hq) as Hwf.
  set (n := length (APQ._queue q)) in *.
  destruct (positions_valid_entry q 0 Hq) as (e0 & He0 & _); [fold n; lia|].
  pose proof He0 as (a & Ha & Hea)%entry_at_Some.
  destruct (decide (n = 1%nat)) as [Hone|Hmore].
  - (* a single entry *)
    destruct (remove_min_root q a Hwf Ha) as (q' & Hrem & _ & _ & _ & _ & Hlen').
    fold n in Hlen'. assert (APQ._queue q' = []) as Hempty
      by (apply nil_length_inv; lia).
    exists q', a, e0. split_and!; try done.
    + split; rewrite Hempty; [apply NoDup_nil_2|]. intros p h Hp. done.
    + intros p Hp e ep He _. apply entry_at_lt in He. rewrite Hempty in He.
      simpl in He. lia.
  - (* the last entry goes to the root *)
    destruct (positions_valid_entry q (n - 1) Hq) as (el & Hel & _); [fold n; lia|].
    rewrite remove_min_swap by done. fold n.
    replace (Z.of_nat n - 1) with (Z.of_nat (n - 1)) by lia.
    destruct (swap_positions q 0 (n - 1) e0 el Hq) as
      (q1 & Hswap & [Hnd1 Hpos1] & Hlen1 & H01 & Hl1 & Hx1 & Hmem1 & Hlast1);
      [lia|done|done|].
    change (Z.of_nat 0) with 0 in Hswap.
    unfold bind at 1. rewrite Hswap.
    assert (last (APQ._queue q1) = Some a) as Hlast.
    { rewrite last_lookup, Hlen1. fold n.
      replace (Init.Nat.pred n) with (n - 1)%nat by lia. by rewrite Hlast1. }
    apply last_Some in Hlast as [l' Hl'].
    unfold bind at 1. unfold APQ.queue_pop. rewrite Hl'.
    rewrite last_snoc, List.removelast_last.
    assert (S (length l') = n) as Hn.
    { unfold n. rewrite <- Hlen1, Hl', length_app. simpl. lia. }
    set (q2 := APQ.mkAPQ (APQ.objects q1) l').
    assert (forall x, (x < length l')%nat -> entry_at q2 x = entry_at q1 x) as Hsame.
    { intros x Hx. apply entry_at_same; [|done]. simpl. rewrite Hl'.
      by rewrite lookup_app_l. }
    assert (positions_valid q2) as Hq2.
    { split; simpl.
      - rewrite Hl' in Hnd1. by apply NoDup_app in Hnd1 as (? & _).
      - intros p h Hp. apply Hpos1. rewrite Hl'. by apply lookup_app_l_Some. }
    assert (heap_but q2 0) as Hbut.
    { split; [|intros; lia].
      intros p Hp Hpar e ep He Hep.
      pose proof (entry_at_lt _ _ _ He) as Hlt. simpl in Hlt.
      pose proof (parent_below p Hp).
      rewrite Hsame in He, Hep by lia.
      rewrite Hx1 in He, Hep by lia. by apply (Hheap p Hp). }
    destruct (bubble_down_heap (S (length l')) 0 q2 Hq2 Hbut)
      as (q3 & Hdown & Hq3 & Hheap3 & Hlen3 & _); [simpl; lia|].
    unfold bind at 1. unfold APQ.bubble_down.
    unfold bind at 1. unfold APQ.len_queue at 1.
    change (APQ._queue q2) with l'. rewrite Nat2Z.id.
    change (Z.of_nat 0) with 0 in Hdown. rewrite Hdown.
    exists q3, a, e0. split_and!; try done.
    rewrite Hlen3. simpl. done.
Qed.
End HeapFacts.



(** ** The heap order under [add] and [update_key] *)

Section HeapUpFacts.
Context {L : Type}.
Implicit Types (q : APQ.t L) (h a b : APQ.handle) (e : APQ.Element L).

Lemma parent_index (i : nat) :
  (1 <= i)%nat -> (Z.of_nat i - 1) / 2 = Z.of_nat ((i - 1) `div` 2).
Proof.
  intros Hi. rewrite Nat2Z.inj_div. f_equal. lia.
Qed.

(** [bubble_up] of an entry whose key is not below the root's. *)
Lemma bubble_up_heap fuel : forall (i : nat) q ei e0,
  positions_valid q -> (1 <= i)%nat -> heap_above q i ->
  entry_at q i = Some ei -> entry_at q 0 = Some e0 ->
  APQ._key e0 <= APQ._key ei -> (i < fuel)%nat ->
  exists q',
    APQ.bubble_up_loop fuel (Z.of_nat i) q = (q', Ok tt) /\
    positions_valid q' /\ heap_order q' /\
    length (APQ._queue q') = length (APQ._queue q) /\
    (forall h, h ∈ APQ._queue q' <-> h ∈ APQ._queue q).
Proof.
  induction fuel as [|fuel IH]; intros i q ei e0 Hq Hi Habove Hei He0 Hroot Hfuel;
    [lia|].
  simpl. rewrite parent_index by done.
  set (pi := ((i - 1) `div` 2)%nat).
  pose proof (parent_below i Hi) as Hpi. fold pi in Hpi.
  pose proof (entry_at_lt _ _ _ Hei) as Hlt.
  destruct (positions_valid_entry q pi Hq) as (ep & Hep & _); [lia|].
  unfold bind at 1. rewrite (queue_lt_entries _ _ _ _ _ Hei Hep).
  destruct Habove as [Hrest Hup].
  destruct (Z.ltb_spec (APQ._key ei) (APQ._key ep)) as [Hless|Hge].
  2: { exists q. split_and!; try done. intros p Hp.
       destruct (decide (p = i)) as [->|Hne]; [|by apply Hrest].
       intros e ep' He Hep'. fold pi in Hep'.
       assert (e = ei) as -> by congruence.
       assert (ep' = ep) as -> by congruence. done. }
  assert (1 <= pi)%nat as Hpi1.
  { destruct pi; [|lia]. assert (ep = e0) as -> by congruence. lia. }
  destruct (swap_positions q i pi ei ep Hq) as
    (q1 & Hswap & Hq1 & Hlen1 & Hi1 & Hp1 & Hx1 & Hmem1 & _); [lia|done|done|].
  unfold bind at 1. rewrite Hswap.
  destruct (IH pi q1 (APQ.mkElement (APQ._key ei) (APQ._value ei) (Z.of_nat pi)) e0)
    as (q' & Hrun & Hq' & Hheap' & Hlen' & Hmem'); try done.
  - split.
    + intros p Hp Hne e ep' He Hep'.
      destruct (decide (p = i)) as [->|Hni].
      { fold pi in Hep'. rewrite Hi1 in He. rewrite Hp1 in Hep'.
        injection He as <-. injection Hep' as <-. simpl. lia. }
      rewrite Hx1 in He by done.
      pose proof (parent_below p Hp) as Hpp.
      destruct (decide (((p - 1) `div` 2)%nat = i)) as [Hpar|Hpar].
      { rewrite Hpar, Hi1 in Hep'. injection Hep' as <-. simpl.
        eapply (Hup p); done. }
      destruct (decide (((p - 1) `div` 2)%nat = pi)) as [Hpar'|Hpar'].
      { rewrite Hpar', Hp1 in Hep'. injection Hep' as <-. simpl.
        assert (APQ._key ep <= APQ._key e); [|lia].
        apply (Hrest p Hp Hni e ep He). by rewrite Hpar'. }
      rewrite Hx1 in Hep' by done. by apply (Hrest p Hp Hni).
    + intros c e ep' _ Hc Hpar He Hep'.
      pose proof (parent_below pi Hpi1) as Hppi.
      rewrite Hx1 in Hep' by lia.
      assert (APQ._key ep' <= APQ._key ep) as Hgrand
        by (apply (Hrest pi Hpi1 ltac:(lia) ep ep' Hep Hep')).
      destruct (decide (c = i)) as [->|Hci].
      { rewrite Hi1 in He. injection He as <-. simpl. done. }
      pose proof (parent_below c Hc).
      rewrite Hx1 in He by lia.
      assert (APQ._key ep <= APQ._key e); [|lia].
      apply (Hrest c Hc Hci e ep He). by rewrite Hpar.
  - rewrite Hx1; [done|lia|lia].
  - lia.
  - exists q'. split; [done|]. split_and!; try done; [by rewrite Hlen', Hlen1|].
    intros h. by rewrite Hmem', Hmem1.
Qed.

Lemma heap_above_order q (i : nat) :
  heap_above q i -> (i = 0)%nat -> heap_order q.
Proof. intros [Hrest _] -> p Hp. apply Hrest; [done|lia]. Qed.

Lemma add_heap q key item :
  positions_valid q -> heap_order q ->
  (forall e0, entry_at q 0 = Some e0 -> APQ._key e0 <= key) ->
  exists q',
    APQ.add key item q = (q', Ok (length (APQ.objects q))) /\
    positions_valid q' /\ heap_order q' /\
    (forall h, h ∈ APQ._queue q' <->
               h ∈ APQ._queue q \/ h = length (APQ.objects q)).
Proof.
  intros Hq Hheap Hroot. pose proof Hq as [Hnd Hpos].
  set (hn := length (APQ.objects q)).
  set (n := length (APQ._queue q)).
  set (q1 := APQ.mkAPQ (APQ.objects q ++ [APQ.mkElement key item (Z.of_nat n)])
                       (APQ._queue q ++ [hn])).
  assert (forall h, h ∈ APQ._queue q -> (h < hn)%nat) as Hold.
  { intros h [p Hp]%list_elem_of_lookup. destruct (Hpos _ _ Hp) as (e & He & _).
    by eapply lookup_lt_Some. }
  assert (positions_valid q1) as Hq1.
  { split; simpl.
    - apply NoDup_app. split; [done|]. split; [|apply NoDup_singleton].
      intros h Hh Hin. apply list_elem_of_singleton in Hin. subst h.
      apply Hold in Hh. lia.
    - intros p h Hp. apply lookup_app_Some in Hp as [Hp|[Hge Hp]].
      + destruct (Hpos _ _ Hp) as (e & He & Hi). exists e.
        split; [by apply lookup_app_l_Some|done].
      + destruct (p - length (APQ._queue q))%nat eqn:Hd; [|done].
        injection Hp as <-. eexists. split.
        * rewrite lookup_app_r by done. unfold hn. by rewrite Nat.sub_diag.
        * simpl. unfold n. lia. }
  assert (forall p, (p < n)%nat -> entry_at q1 p = entry_at q p) as Hsame.
  { intros p Hp. apply entry_at_same; simpl.
    - by rewrite lookup_app_l.
    - intros h Hh. apply lookup_app_l. apply Hold.
      apply list_elem_of_lookup. eauto. }
  assert (entry_at q1 n = Some (APQ.mkElement key item (Z.of_nat n))) as Hnew.
  { apply entry_at_Some. exists hn. simpl. split.
    - rewrite lookup_app_r by done. unfold n. by rewrite Nat.sub_diag.
    - rewrite lookup_app_r by done. unfold hn. by rewrite Nat.sub_diag. }
  assert (length (APQ._queue q1) = S n) as Hlen1
    by (simpl; rewrite length_app; simpl; unfold n; lia).
  assert (exists q', APQ.bubble_up (Z.of_nat n) q1 = (q', Ok tt) /\
            positions_valid q' /\ heap_order q' /\
            forall h, h ∈ APQ._queue q' <-> h ∈ APQ._queue q1)
    as (q' & Hup & Hq' & Hheap' & Hmem').
  { unfold APQ.bubble_up.
    destruct (Z.gtb_spec (Z.of_nat n) 0) as [Hpos'|Hzero].
    2: { exists q1. split_and!; try done. intros p Hp e ep He _.
         apply entry_at_lt in He. lia. }
    destruct (positions_valid_entry q 0 Hq) as (e0 & He0 & _); [fold n; lia|].
    unfold bind at 1. unfold APQ.len_queue at 1.
    destruct (bubble_up_heap (Z.to_nat (Z.of_nat (length (APQ._queue q1))) + 2)
                n q1 (APQ.mkElement key item (Z.of_nat n)) e0)
      as (q' & Hrun & Hq' & Hheap' & _ & Hmem'); try done.
    - lia.
    - split.
      + intros p Hp Hne e ep He Hep.
        pose proof (entry_at_lt _ _ _ He). pose proof (parent_below p Hp).
        rewrite Hsame in He, Hep by lia. by apply (Hheap p Hp).
      + intros c e ep _ Hc Hpar He _. apply entry_at_lt in He.
        apply parent_of_child in Hpar; [|done]. lia.
    - rewrite Hsame by lia. done.
    - simpl. by apply Hroot.
    - lia.
    - by exists q'. }
  exists q'. split.
  { unfold APQ.add. unfold bind at 1. unfold APQ.len_queue at 1.
    unfold bind at 1. unfold bind at 1. unfold modify.
    cbn [APQ.objects APQ._queue]. fold hn n q1. unfold bind. by rewrite Hup. }
  split_and!; try done.
  intros h. rewrite Hmem'. simpl. rewrite elem_of_app, list_elem_of_singleton.
  done.
Qed.

Lemma update_key_heap q h e newkey (i : nat) :
  positions_valid q -> heap_order q ->
  APQ._queue q !! i = Some h -> APQ.objects q !! h = Some e ->
  newkey < APQ._key e ->
  (forall e0, entry_at q 0 = Some e0 -> APQ._key e0 <= newkey) ->
  exists q',
    APQ.update_key h newkey q = (q', Ok tt) /\
    positions_valid q' /\ heap_order q' /\
    (forall h', h' ∈ APQ._queue q' <-> h' ∈ APQ._queue q).
Proof.
  intros Hq Hheap Hi He Hless Hroot. pose proof Hq as [Hnd Hpos].
  destruct (Hpos _ _ Hi) as (e' & He' & Hidx).
  assert (e' = e) as -> by congruence.
  assert (entry_at q i = Some e) as Hei by (apply entry_at_Some; eauto).
  assert (1 <= i)%nat as Hi1.
  { destruct i; [|lia]. pose proof (Hroot e Hei). lia. }
  destruct (positions_valid_entry q 0 Hq) as (e0 & He0 & _);
    [apply lookup_lt_Some in Hi; lia|].
  set (e1 := APQ.mkElement newkey (APQ._value e) (APQ._index e)).
  set (q1 := APQ.mkAPQ (<[h := e1]> (APQ.objects q)) (APQ._queue q)).
  assert (APQ.objects q1 !! h = Some e1) as He1.
  { simpl. apply list_lookup_insert_eq. by eapply lookup_lt_Some. }
  assert (positions_valid q1) as Hq1.
  { split; [done|]. intros p h' Hp. simpl.
    destruct (decide (h' = h)) as [->|Hne].
    - exists e1. split; [exact He1|]. simpl.
      assert (p = i) as -> by exact (proj1 (NoDup_alt _) Hnd p i h Hp Hi). done.
    - rewrite list_lookup_insert_ne by done. by apply Hpos. }
  assert (entry_at q1 i = Some e1) as Hei1 by (apply entry_at_Some; eauto).
  assert (forall x, x <> i -> entry_at q1 x = entry_at q x) as Hsame.
  { intros x Hx. apply entry_at_same; [done|]. intros h' Hh'. simpl.
    apply list_lookup_insert_ne. intros <-. apply Hx.
    exact (proj1 (NoDup_alt _) Hnd x i h Hh' Hi). }
  unfold APQ.update_key. unfold bind at 1. rewrite (key_of_live _ _ _ He).
  destruct (Z.gtb_spec (APQ._key e) newkey); [|lia].
  unfold bind at 1. rewrite (set_key_live _ _ _ _ He). fold e1 q1.
  unfold bind at 1. rewrite (index_of_live _ _ _ He1). simpl APQ._index.
  rewrite Hidx. unfold APQ.bubble_up.
  destruct (Z.gtb_spec (Z.of_nat i) 0); [|lia].
  unfold bind at 1. unfold APQ.len_queue at 1.
  pose proof (lookup_lt_Some _ _ _ Hi) as Hlt.
  destruct (bubble_up_heap (Z.to_nat (Z.of_nat (length (APQ._queue q1))) + 2)
              i q1 e1 e0) as (q' & Hrun & Hq' & Hheap' & _ & Hmem'); try done.
  - split.
    + intros p Hp Hne e2 ep He2 Hep. rewrite Hsame in He2 by done.
      destruct (decide (((p - 1) `div` 2)%nat = i)) as [Hpar|Hpar].
      * rewrite Hpar, Hei1 in Hep. injection Hep as <-. simpl.
        assert (APQ._key e <= APQ._key e2); [|lia].
        apply (Hheap p Hp e2 e He2). by rewrite Hpar.
      * rewrite Hsame in Hep by done. by apply (Hheap p Hp).
    + intros c e2 ep _ Hc Hpar He2 Hep.
      pose proof (parent_below c Hc). pose proof (parent_below i Hi1).
      rewrite Hsame in He2, Hep by lia.
      assert (APQ._key e <= APQ._key e2)
        by (apply (Hheap c Hc e2 e He2); by rewrite Hpar).
      assert (APQ._key ep <= APQ._key e) by (by apply (Hheap i Hi1 e ep)).
      lia.
  - rewrite Hsame by lia. done.
  - simpl. by apply Hroot.
  - simpl. lia.
  - by exists q'.
Qed.
End HeapUpFacts.

(** X22. [add] keeps the heap when the key is not below the root's. On a
    valid heap with the right [_index] in every entry, adding a key that
    is not smaller than the key at the root leaves a valid heap with the
    right [_index] in every entry, holding the old entries and the new
    Element, whose key is the one given. *)
Theorem add_keeps_the_heap_above_root {L} (q : APQ.t L) (key : Z) (item : L) :
  NoDup (APQ._queue q) -> indices_valid q = true -> heap_ordered q = true ->
  (forall e0, entry_at q 0 = Some e0 -> APQ._key e0 <= key) ->
  exists q' h,
    APQ.add key item q = (q', Ok h) /\
    NoDup (APQ._queue q') /\ indices_valid q' = true /\
    heap_ordered q' = true /\
    (forall h', h' ∈ APQ._queue q' <-> h' ∈ APQ._queue q \/ h' = h) /\
    APQ.get_key h q' = (q', Ok key).
Proof.
  intros Hnd Hidx Hheap Hroot.
  pose proof (indices_valid_positions q Hnd Hidx) as Hq.
  destruct (add_heap q key item Hq (heap_ordered_order q Hheap) Hroot)
    as (q' & Hadd & Hq' & Hheap' & Hmem).
  exists q', (length (APQ.objects q)). split_and!; try done.
  - apply Hq'.
  - by apply positions_indices_valid.
  - by apply heap_order_ordered.
  - eapply element_holds_key.
    replace q' with (APQ.add key item q).1 by (by rewrite Hadd). apply add_holds.
Qed.

(** X23. [update_key] keeps the heap when the new key is smaller than the
    Element's and not below the root's. The queue holds the same entries
    afterwards, is a valid heap with the right [_index] in every entry, and
    the Element has the new key. *)
Theorem update_key_keeps_the_heap_above_root {L} (q : APQ.t L)
    (h : APQ.handle) (e : APQ.Element L) (newkey : Z) :
  NoDup (APQ._queue q) -> indices_valid q = true -> heap_ordered q = true ->
  h ∈ APQ._queue q -> APQ.objects q !! h = Some e ->
  newkey < APQ._key e ->
  (forall e0, entry_at q 0 = Some e0 -> APQ._key e0 <= newkey) ->
  exists q',
    APQ.update_key h newkey q = (q', Ok tt) /\
    NoDup (APQ._queue q') /\ indices_valid q' = true /\
    heap_ordered q' = true /\
    (forall h', h' ∈ APQ._queue q' <-> h' ∈ APQ._queue q) /\
    APQ.get_key h q' = (q', Ok newkey).
Proof.
  intros Hnd Hidx Hheap Hin He Hless Hroot.
  pose proof (indices_valid_positions q Hnd Hidx) as Hq.
  apply list_elem_of_lookup in Hin as [i Hi].
  destruct (update_key_heap q h e newkey i Hq (heap_ordered_order q Hheap)
              Hi He Hless Hroot) as (q' & Hupd & Hq' & Hheap' & Hmem).
  exists q'. split_and!; try done.
  - apply Hq'.
  - by apply positions_indices_valid.
  - by apply heap_order_ordered.
  - eapply element_holds_key.
    replace q' with (APQ.update_key h newkey q).1 by (by rewrite Hupd).
    apply update_key_holds; [done|lia].
Qed.

Lemma add_keeps_the_heap_above_root_witness :
  exists q' h,
    APQ.add 2 "d" Examples.heap_of_three = (q', Ok h) /\
    indices_valid q' = true /\ heap_ordered q' = true.
Proof.
  destruct (add_keeps_the_heap_above_root Examples.heap_of_three 2 "d")
    as (q' & h & Hadd & _ & Hidx & Hheap & _).
  - apply NoDup_ListNoDup. repeat constructor; simpl; lia.
  - reflexivity.
  - reflexivity.
  - intros e0 [= <-]. simpl. lia.
  - exists q', h. split; [exact Hadd|]. split; [exact Hidx|exact Hheap].
Defined.

Lemma update_key_keeps_the_heap_above_root_witness :
  exists q',
    APQ.update_key 2%nat 1 Examples.heap_of_three = (q', Ok tt) /\
    indices_valid q' = true /\ heap_ordered q' = true.
Proof.
  destruct (update_key_keeps_the_heap_above_root Examples.heap_of_three
              2%nat (APQ.mkElement 3 "c" 2) 1)
    as (q' & Hupd & _ & Hidx & Hheap & _).
  - apply NoDup_ListNoDup. repeat constructor; simpl; lia.
  - reflexivity.
  - reflexivity.
  - apply elem_of_cons. right. apply elem_of_cons. right.
    apply elem_of_cons. by left.
  - reflexivity.
  - simpl. lia.
  - intros e0 [= <-]. simpl. lia.
  - exists q'. split; [exact Hupd|]. split; [exact Hidx|exact Hheap].
Defined.

(** ** The further properties on concrete inputs *)

Lemma num_edges_counts_one_way_edges_half_witness :
  only_new_pairs start_history Examples.mixed_edges = true /\
  length (Graph.edges (now (play start_history Examples.mixed_edges))) = 2%nat /\
  Graph.num_edges (now (play start_history Examples.mixed_edges)) = 1%nat.
Proof.
  assert (only_new_pairs start_history Examples.mixed_edges = true) as Hnew
    by reflexivity.
  split; [exact Hnew|].
  destruct (num_edges_counts_one_way_edges_half Examples.mixed_edges Hnew)
    as [Hedges Hnum].
  split; [rewrite Hedges|rewrite Hnum]; reflexivity.
Defined.

Lemma heap_of_three_wf :
  queue_wf Examples.heap_of_three /\ positions_valid Examples.heap_of_three.
Proof.
  assert (NoDup [0%nat; 1%nat; 2%nat]) as Hnd.
  { apply NoDup_ListNoDup. repeat constructor; simpl; lia. }
  split; (split; [exact Hnd|]); intros p h Hp;
    destruct p as [|[|[|p]]]; simpl in Hp; [| | |done| | | |done];
    injection Hp as <-; eexists; (split; [reflexivity|]); try left; reflexivity.
Qed.

Lemma remove_min_returns_root_witness :
  exists q',
    APQ.remove_min Examples.heap_of_three = (q', Ok 0%nat) /\
    (0%nat ∉ APQ._queue q') /\ length (APQ._queue q') = 2%nat.
Proof.
  destruct (remove_min_returns_root Examples.heap_of_three 0%nat)
    as (q' & Hrem & _ & Hout & _ & Hlen & _).
  - apply heap_of_three_wf.
  - reflexivity.
  - exists q'. split; [exact Hrem|]. split; [exact Hout|].
    simpl in Hlen. by injection Hlen.
Defined.

Lemma add_inserts_entry_witness :
  exists q' h,
    APQ.add 0 "d" Examples.heap_of_three = (q', Ok h) /\
    APQ.get_key h q' = (q', Ok 0) /\ APQ.value_of h q' = (q', Ok "d") /\
    length (APQ._queue q') = 4%nat.
Proof.
  destruct (add_inserts_entry Examples.heap_of_three 0 "d")
    as (q' & h & Hadd & _ & _ & _ & Hlen & Hkey & Hval & _).
  - apply heap_of_three_wf.
  - exists q', h. split; [exact Hadd|]. split; [exact Hkey|]. split; [exact Hval|].
    exact Hlen.
Defined.

Lemma update_key_decrease_witness :
  exists q',
    APQ.update_key 2%nat 0 Examples.heap_of_three = (q', Ok tt) /\
    APQ.get_key 2%nat q' = (q', Ok 0) /\
    APQ.value_of 2%nat q' = (q', Ok "c").
Proof.
  destruct (update_key_decrease Examples.heap_of_three 2%nat
              (APQ.mkElement 3 "c" 2) 0) as [_ Hless].
  - reflexivity.
  - destruct Hless as (q' & Hupd & _ & _ & _ & Hkey & Hval & _).
    + simpl. lia.
    + apply heap_of_three_wf.
    + apply elem_of_cons. right. apply elem_of_cons. right.
      apply elem_of_cons. by left.
    + exists q'. split; [exact Hupd|]. split; [exact Hkey|exact Hval].
Defined.

Lemma remove_fails_on_two_or_more_witness :
  exists q',
    APQ.remove 0%nat Examples.heap_of_three = (q', Raise IndexError) /\
    APQ._queue q' = [0%nat; 1%nat].
Proof.
  destruct (remove_fails_on_two_or_more Examples.heap_of_three 0%nat)
    as (q' & Hrem & Hqueue & _).
  - apply heap_of_three_wf.
  - apply elem_of_cons. by left.
  - simpl. lia.
  - exists q'. split; [exact Hrem|exact Hqueue].
Defined.

Lemma remove_single_entry_witness :
  APQ.remove 0%nat Examples.heap_of_one
  = (APQ.mkAPQ [APQ.mkElement 5 "a" 0] [], Ok 0%nat).
Proof.
  apply (remove_single_entry Examples.heap_of_one 0%nat); [|reflexivity].
  split; [apply NoDup_singleton|]. intros p h Hp.
  destruct p as [|p]; [|done]. injection Hp as <-.
  eexists. split; reflexivity.
Defined.

Lemma dijkstra_distances_are_walk_costs_witness :
  dijkstra 5 (now (play start_history Examples.mixed_edges)) "A"
  = Ok [("A", (0, None)); ("B", (1, Some "A")); ("C", (3, Some "B"))] /\
  walk (now (play start_history Examples.mixed_edges)) "A" "C" 3.
Proof.
  assert (dijkstra 5 (now (play start_history Examples.mixed_edges)) "A"
          = Ok [("A", (0, None)); ("B", (1, Some "A")); ("C", (3, Some "B"))])
    as Hrun by reflexivity.
  split; [exact Hrun|].
  destruct (dijkstra_distances_are_walk_costs Examples.mixed_edges
              Examples.two_islands 5 "A" "C"
              [("A", (0, None)); ("B", (1, Some "A")); ("C", (3, Some "B"))]
              3 (Some "B")) as [Hgraph _].
  destruct (Hgraph Hrun eq_refl) as [Hwalk _]. exact Hwalk.
Defined.

Lemma dijkstra_closes_what_walks_reach_witness :
  dijkstra 5 Examples.two_towns "A"
  = Ok [("A", (0, None)); ("B", (7, Some "A"))] /\
  built Examples.two_towns /\
  exists d, walk Examples.two_towns "A" "B" d.
Proof.
  assert (dijkstra 5 Examples.two_towns "A"
          = Ok [("A", (0, None)); ("B", (7, Some "A"))]) as Hrun by reflexivity.
  assert (built Examples.two_towns) as Hm.
  { apply (built_add_edge _ (Vertex.mk 0 "A") (Vertex.mk 1 "B") 7 Examples.two_way).
    do 2 constructor. constructor. }
  split; [exact Hrun|]. split; [exact Hm|].
  destruct (dijkstra_closes_what_walks_reach [] Examples.two_towns 5 "A" "B"
              [("A", (0, None)); ("B", (7, Some "A"))]) as [_ Hmap].
  apply (Hmap Hm Hrun). reflexivity.
Defined.

Lemma sp_prints_the_way_back_witness :
  built Examples.two_towns /\
  exists way rows,
    sp 5 Examples.two_towns "A" "B" = (rows, Ok tt) /\
    way_back [("A", (0, None)); ("B", (7, Some "A"))] "A" "B" way.
Proof.
  assert (built Examples.two_towns) as Hm.
  { apply (built_add_edge _ (Vertex.mk 0 "A") (Vertex.mk 1 "B") 7 Examples.two_way).
    do 2 constructor. constructor. }
  split; [exact Hm|].
  destruct (sp_prints_the_way_back Examples.two_towns 5 "A" "B" Hm)
    as [Htable _].
  destruct (Htable [("A", (0, None)); ("B", (7, Some "A"))])
    as (way & rows & Hsp & Hway & _); [reflexivity..|].
  exists way, rows. split; [exact Hsp|exact Hway].
Defined.


Lemma degree_counts_get_edges_witness :
  Examples.vB ∈ Graph.vertices (now (play start_history Examples.mixed_edges)) /\
  exists es,
    Graph.get_edges (now (play start_history Examples.mixed_edges)) Examples.vB
    = Some es /\
    Graph.degree (now (play start_history Examples.mixed_edges)) Examples.vB
    = Ok (length es).
Proof.
  assert (Examples.vB
            ∈ Graph.vertices (now (play start_history Examples.mixed_edges)))
    as Hin by (apply elem_of_cons; right; apply elem_of_cons; by left).
  split; [exact Hin|].
  destruct (degree_counts_get_edges
              (now (play start_history Examples.mixed_edges)) Examples.vB)
    as [_ Hvertex].
  destruct (Hvertex Hin) as (es & Hes & Hdeg & _).
  exists es. split; [exact Hes|exact Hdeg].
Defined.

Lemma dijkstra_returns_one_table_witness :
  built Examples.two_islands /\
  dict_mem "A" (RouteMap._findvertex Examples.two_islands) = true /\
  exists table, forall fuel,
    (length (edge_labels (RouteMap.graph Examples.two_islands)) + 2 <= fuel)%nat ->
    dijkstra fuel Examples.two_islands "A" = Ok table.
Proof.
  assert (built Examples.two_islands) as Hm by (do 2 constructor; constructor).
  split; [exact Hm|]. split; [reflexivity|].
  destruct (dijkstra_returns_one_table [] Examples.two_islands "A") as [_ Hmap].
  apply (Hmap Hm). reflexivity.
Defined.

Lemma dijkstra_from_unknown_label_witness :
  built Examples.two_islands /\
  dijkstra 2 Examples.two_vertices "Z" = Ok [("Z", (0, None))] /\
  dijkstra 1 Examples.two_islands "Z" = Raise KeyError.
Proof.
  assert (built Examples.two_islands) as Hm by (do 2 constructor; constructor).
  split; [exact Hm|].
  destruct (dijkstra_from_unknown_label Examples.two_vertices
              Examples.two_islands "Z" 0) as [Hgraph Hmap].
  split.
  - apply Hgraph. intros v Hv.
    apply elem_of_cons in Hv as [->|Hv]; [done|].
    apply elem_of_cons in Hv as [->|Hv]; [done|].
    by apply elem_of_nil in Hv.
  - apply Hmap; [exact Hm|]. intros v Hv.
    apply elem_of_cons in Hv as [->|Hv]; [done|].
    apply elem_of_cons in Hv as [->|Hv]; [done|].
    by apply elem_of_nil in Hv.
Defined.

Lemma route_map_add_vertex_indexes_newest_witness :
  built Examples.two_islands /\
  Graph.get_vertex_by_label (RouteMap.graph Examples.two_islands) "A"
  = Some Examples.vA /\
  RouteMap.get_vertex_by_label
    (RouteMap.add_vertex Examples.two_islands "A" None None).1 "A"
  = Ok (Vertex.mk 2 "A") /\
  RouteMap.add_vertex_if_new
    (RouteMap.add_vertex Examples.two_islands "A" None None).1 "A"
  = ((RouteMap.add_vertex Examples.two_islands "A" None None).1, Examples.vA).
Proof.
  assert (built Examples.two_islands) as Hm by (do 2 constructor; constructor).
  assert (Graph.get_vertex_by_label (RouteMap.graph Examples.two_islands) "A"
          = Some Examples.vA) as Hold by reflexivity.
  split; [exact Hm|]. split; [exact Hold|].
  destruct (route_map_add_vertex_indexes_newest Examples.two_islands "A" None None)
    as (Hindex & _ & _ & Hscan).
  split; [exact Hindex|].
  destruct (Hscan Hm Examples.vA Hold) as (_ & _ & Hif). exact Hif.
Defined.
